(** * basel: dependency graph and main-sequence metrics

    A shallow embedding of [src/components.py] (classes [ModuleComponent]
    and [ModuleComponentLoader]) together with the properties stated for it.

    Python objects that are mutated and shared (components, the caller's
    ignore list) live in explicit stores; the interpreter services the code
    calls ([importlib.import_module], [inspect.getmembers], [open] +
    [ast.parse], [os.walk]) are the fields of an environment record. *)

From Stdlib Require Import Ascii String QArith Qabs Qround Qpower Lqa.
From stdpp Require Import gmap strings list.

Open Scope string_scope.
Open Scope Z_scope.

(** ** Python strings *)

Module PyStr.

(** [s.replace(old, new)] for one-character [old] and [new]. *)
Fixpoint replace (old new : ascii) (s : string) : string :=
  match s with
  | EmptyString => EmptyString
  | String c r =>
      String (if Ascii.eqb c old then new else c) (replace old new r)
  end.

(** [sep.join(l)] *)
Fixpoint join (sep : string) (l : list string) : string :=
  match l with
  | [] => ""
  | [x] => x
  | x :: r => x ++ sep ++ join sep r
  end.

(** [s.split(c)] for a one-character separator: never the empty list. *)
Fixpoint split (c : ascii) (s : string) : list string :=
  match s with
  | EmptyString => [""]
  | String a r =>
      if Ascii.eqb a c then "" :: split c r
      else match split c r with
           | [] => [String a ""]
           | w :: ws => String a w :: ws
           end
  end.

(** [s.rfind(c)]: index of the last occurrence, [-1] when there is none. *)
Fixpoint rfind (c : ascii) (s : string) : Z :=
  match s with
  | EmptyString => -1
  | String a r =>
      let i := rfind c r in
      if 0 <=? i then i + 1
      else if Ascii.eqb a c then 0 else -1
  end.

Definition len (s : string) : Z := Z.of_nat (String.length s).

(** [s[:i]] for [0 <= i]. *)
Definition take (i : Z) (s : string) : string :=
  String.substring 0 (Z.to_nat i) s.

(** [s.startswith(p)] *)
Definition startswith (p s : string) : bool := String.prefix p s.

(** [s.endswith(p)] *)
Definition endswith (p s : string) : bool :=
  let n := String.length s in
  let k := String.length p in
  (k <=? n)%nat && String.eqb (String.substring (n - k) k s) p.

(** Truth value of a string in a condition. *)
Definition truthy (s : string) : bool := negb (String.eqb s "").

(** [c in s] for a character [c]. *)
Fixpoint contains (c : ascii) (s : string) : bool :=
  match s with
  | EmptyString => false
  | String a r => Ascii.eqb a c || contains c r
  end.

End PyStr.

(** ** [pathlib.Path] (POSIX flavour)

    A path is its root (["" ], ["/"] or ["//"]) and its components.  The
    constructor drops empty and ["."] components, as [pathlib] does. *)

Record Path := mkPath { root : string; parts : list string }.

Module PyPath.

Fixpoint leading_slashes (s : string) : nat :=
  match s with
  | String "/"%char r => S (leading_slashes r)
  | _ => O
  end.

Definition parse_root (s : string) : string :=
  match leading_slashes s with
  | O => ""
  | 2%nat => "//"
  | _ => "/"
  end.

Definition keep_part (p : string) : bool :=
  negb (String.eqb p "") && negb (String.eqb p ".").

(** [Path(s)] *)
Definition of_string (s : string) : Path :=
  mkPath (parse_root s) (List.filter keep_part (PyStr.split "/" s)).

(** [str(p)] *)
Definition to_string (p : Path) : string :=
  match parts p with
  | [] => if String.eqb (root p) "" then "." else root p
  | ps => root p ++ PyStr.join "/" ps
  end.

(** [p.parent]: the root and the empty path are their own parent. *)
Definition parent (p : Path) : Path :=
  match parts p with
  | [] => p
  | ps => mkPath (root p) (removelast ps)
  end.

(** [p.name] *)
Definition name (p : Path) : string := List.last (parts p) "".

(** [p.stem]: the name without its last suffix. *)
Definition stem (p : Path) : string :=
  let n := name p in
  let i := PyStr.rfind "." n in
  if (0 <? i) && (i <? PyStr.len n - 1) then PyStr.take i n else n.

(** [os.path.join(a, b)] *)
Definition os_path_join (a b : string) : string :=
  if PyStr.startswith "/" b then b
  else if String.eqb a "" || PyStr.endswith "/" a then a ++ b
  else a ++ "/" ++ b.

End PyPath.

#[global] Instance Path_eq_dec : EqDecision Path.
Proof. solve_decision. Defined.

(** ** Exceptions and results *)

Inductive exn :=
| ImportError          (* includes ModuleNotFoundError *)
| OSError              (* the source file cannot be opened *)
| SyntaxError          (* the source file does not parse *)
| TypeError
| ZeroDivisionError
| OtherException.

Inductive result (A : Type) :=
| Ok (a : A)
| Raise (e : exn).
Arguments Ok {A} a.
Arguments Raise {A} e.

Definition is_raise {A} (r : result A) : Prop :=
  match r with Raise _ => True | Ok _ => False end.

(** ** Objects returned by the import machinery *)

(** What [importlib.import_module] hands back: a module object (a package
    is a module object too), or whatever else sits in [sys.modules]. *)
Inductive pyobj :=
| PyModule (is_package : bool)
| PyObject (truth : bool).

(** [inspect.ismodule(obj)] *)
Definition ismodule (o : pyobj) : bool :=
  match o with PyModule _ => true | PyObject _ => false end.

(** Truth value of the object in [if module:]. *)
Definition obj_truthy (o : pyobj) : bool :=
  match o with PyModule _ => true | PyObject b => b end.

(** A member listed by [inspect.getmembers]: whether it is a class, the
    [__module__] it was defined in, and whether it is abstract. *)
Record member := mkMember {
  m_id : string;
  m_isclass : bool;
  m_module : string;
  m_isabstract : bool
}.

(** ** Syntax trees, as far as imports are concerned *)

#[warnings="-register-all"]
Inductive node :=
| Import (names : list string)
| ImportFrom (module : option string) (names : list string)
| Other (children : list node).

(** ** The environment of one analysis run *)

Record Env := mkEnv {
  import_module : string -> result pyobj;
  getmembers : string -> list member;
  parse_file : Path -> result node;      (* open(path) and ast.parse *)
  os_walk : string -> list (string * list string * list string)
}.

(** ** Name and path derivation *)

(** [ModuleComponent._get_name_from_path] *)
Definition _get_name_from_path (path : Path) : string :=
  let parent_name := PyStr.replace "/" "." (PyPath.to_string (PyPath.parent path)) in
  if String.eqb "__init__.py" (PyPath.name path) then parent_name
  else parent_name ++ "." ++ PyPath.stem path.

(** [ModuleComponent._get_path_from_name] *)
Definition _get_path_from_name (E : Env) (name : string) : result Path :=
  match import_module E name with
  | Raise e => Raise e
  | Ok obj =>
      let module_path := PyStr.replace "." "/" name in
      let path := if ismodule obj then module_path ++ ".py"
                  else module_path ++ "/__init__.py" in
      Ok (PyPath.of_string path)
  end.

(** ** The object store *)

(** A Python [str] or [None]. *)
Abbreviation pyname := (option string).

(** Truth value of a name in a condition: [None] and [""] are false. *)
Definition name_truthy (n : pyname) : bool :=
  match n with Some s => PyStr.truthy s | None => false end.

(** [f"{n}"] *)
Definition py_str (n : pyname) : string :=
  match n with Some s => s | None => "None" end.

(** Components are objects: they are referred to by their address in the
    heap, and two components with the same name are still two objects. *)
Abbreviation loc := nat.

(** Modelled from the spec: the attributes of the base class [Component]
    of [src/icomponents.py], which is not part of the sources at hand.
    Section 3 of the specification gives a unit its name and path, the set
    of units it imports, the set of units that import it, its declared
    types tagged abstract or concrete (the two lists [abstract_classes] and
    [no_abstract_classes] that [load_classes] reads), and the three metric
    values, each cached once computed. *)
Record Component := mkComponent {
  comp_name : pyname;
  comp_path : option Path;
  external_dependencies : gset loc;
  internal_dependents : gset loc;
  abstract_classes : list member;
  no_abstract_classes : list member;
  instability : option Q;
  abstraction : option Q;
  distance : option Q
}.

(** A Python [dict]: the keys in insertion order, and the binding of each. *)
Record dict (V : Type) := mkDict {
  dkeys : list pyname;
  dstore : gmap pyname V
}.
Arguments mkDict {V} _ _.
Arguments dkeys {V} _.
Arguments dstore {V} _.

Module Dict.
Definition empty {V} : dict V := mkDict [] ∅.

(** [d.get(k)] *)
Definition get {V} (d : dict V) (k : pyname) : option V := dstore d !! k.

(** [k in d] *)
Definition mem {V} (d : dict V) (k : pyname) : bool :=
  bool_decide (is_Some (dstore d !! k)).

(** [d[k] = v]: a new key goes last, an old key keeps its place. *)
Definition set {V} (k : pyname) (v : V) (d : dict V) : dict V :=
  mkDict (if mem d k then dkeys d else dkeys d ++ [k]) (<[k := v]> (dstore d)).

(** [d.items()] *)
Definition items {V} (d : dict V) : list (pyname * V) :=
  omap (λ k, (λ v, (k, v)) <$> dstore d !! k) (dkeys d).

(** [d.values()] *)
Definition values {V} (d : dict V) : list V := snd <$> items d.
End Dict.

(** The graph under analysis: the component objects, and the attributes of
    the loader.

    Modelled from the spec: [components], [ignore_dependencies] and
    [root_path] are set up by the base class [ComponentLoader] of
    [src/icomponents.py]; section 3 of the specification describes them as
    the mapping from name to unit and the built-in ignore list. *)
Record Graph := mkGraph {
  heap : list Component;
  components : dict loc;
  ignore_dependencies : list string;
  root_path : option string
}.

(** ** Computations that mutate the graph and may raise *)

Definition M (A : Type) : Type := Graph -> result A * Graph.

Definition ret {A} (a : A) : M A := fun g => (Ok a, g).

Definition raise {A} (e : exn) : M A := fun g => (Raise e, g).

Definition bind {A B} (m : M A) (k : A -> M B) : M B :=
  fun g => match m g with
           | (Ok a, g') => k a g'
           | (Raise e, g') => (Raise e, g')
           end.

Notation "'let!' x ':=' m 'in' k" := (bind m (fun x => k))
  (at level 10, x pattern, m at level 100, k at level 200).
Notation "m '>>' k" := (bind m (fun _ => k))
  (at level 100, k at level 200, right associativity).

Definition lift {A} (r : result A) : M A := fun g => (r, g).

(** [for x in l: body(x)] *)
Fixpoint for_each {A} (l : list A) (body : A -> M unit) : M unit :=
  match l with
  | [] => ret tt
  | x :: r => body x >> for_each r body
  end.

Definition read_heap : M (list Component) := fun g => (Ok (heap g), g).

Definition read_components : M (dict loc) := fun g => (Ok (components g), g).

Definition set_heap (h : list Component) (g : Graph) : Graph :=
  mkGraph h (components g) (ignore_dependencies g) (root_path g).

Definition set_components (d : dict loc) (g : Graph) : Graph :=
  mkGraph (heap g) d (ignore_dependencies g) (root_path g).

(** Attribute update on the object at [self].  An address always holds an
    object in a run of the program; on an address that holds none, updates
    do nothing and reads give the default. *)
Definition update (self : loc) (f : Component -> Component) : M unit :=
  fun g => (Ok tt, set_heap (alter f self (heap g)) g).

(** Attribute read on the object at [self]. *)
Definition read {A} (self : loc) (f : Component -> A) (dflt : A) : M A :=
  fun g => (Ok (from_option f dflt (heap g !! self)), g).

(** A new object: it gets the next free address. *)
Definition alloc (c : Component) : M loc :=
  fun g => (Ok (length (heap g)), set_heap (heap g ++ [c]) g).

(** ** [Component] (base class) *)

(** Modelled from the spec: [Component.__init__] of [src/icomponents.py],
    absent from the sources.  Units are created with empty dependency sets,
    no declared type and no metric computed yet (section 3, lifecycle). *)
Definition Component_init (path : option Path) (name : pyname) : Component :=
  mkComponent name path ∅ ∅ [] [] None None None.

(** Modelled from the spec: [Component.add_dependency] of
    [src/icomponents.py], absent from the sources.  The specification keeps
    outgoing and incoming edges as sets of units; [is_internal] selects the
    incoming one, as the call in [_load_dependencies] shows. *)
Definition add_dependency (self component : loc) (is_internal : bool) : M unit :=
  update self (fun c =>
    if is_internal
    then mkComponent (comp_name c) (comp_path c) (external_dependencies c)
           ({[component]} ∪ internal_dependents c)
           (abstract_classes c) (no_abstract_classes c)
           (instability c) (abstraction c) (distance c)
    else mkComponent (comp_name c) (comp_path c)
           ({[component]} ∪ external_dependencies c) (internal_dependents c)
           (abstract_classes c) (no_abstract_classes c)
           (instability c) (abstraction c) (distance c)).

(** Modelled from the spec: [Component.add_class] of [src/icomponents.py],
    absent from the sources.  Declared types form an ordered sequence, each
    tagged abstract or concrete. *)
Definition add_class (self : loc) (_class : member) (is_abstract : bool) : M unit :=
  update self (fun c =>
    if is_abstract
    then mkComponent (comp_name c) (comp_path c) (external_dependencies c)
           (internal_dependents c)
           (abstract_classes c ++ [_class]) (no_abstract_classes c)
           (instability c) (abstraction c) (distance c)
    else mkComponent (comp_name c) (comp_path c) (external_dependencies c)
           (internal_dependents c)
           (abstract_classes c) (no_abstract_classes c ++ [_class])
           (instability c) (abstraction c) (distance c)).

(** Python's [a / b] on integers: a [ZeroDivisionError] for [b = 0].
    The metrics of a unit are the fractions the specification gives;
    the rounding of binary floating point is modelled where the source
    computes with them, in [calculate_main_distance]. *)
Definition py_div (a b : Z) : result Q :=
  if b =? 0 then Raise ZeroDivisionError else Ok (inject_Z a / inject_Z b)%Q.

Definition Ce (c : Component) : Z := Z.of_nat (size (external_dependencies c)).
Definition Ca (c : Component) : Z := Z.of_nat (size (internal_dependents c)).

Definition set_instability (v : Q) (c : Component) : Component :=
  mkComponent (comp_name c) (comp_path c) (external_dependencies c)
    (internal_dependents c) (abstract_classes c) (no_abstract_classes c)
    (Some v) (abstraction c) (distance c).

Definition set_abstraction (v : Q) (c : Component) : Component :=
  mkComponent (comp_name c) (comp_path c) (external_dependencies c)
    (internal_dependents c) (abstract_classes c) (no_abstract_classes c)
    (instability c) (Some v) (distance c).

Definition set_distance (v : Q) (c : Component) : Component :=
  mkComponent (comp_name c) (comp_path c) (external_dependencies c)
    (internal_dependents c) (abstract_classes c) (no_abstract_classes c)
    (instability c) (abstraction c) (Some v).

(** Modelled from the spec: [Component.calculate_instability] of
    [src/icomponents.py], absent from the sources.  Section 4.4:
    I = Ce / (Ce + Ca), defined as 0 when Ce + Ca = 0, computed once and
    cached afterwards. *)
Definition calculate_instability (self : loc) : M unit :=
  let! c := read self Some None in
  match c with
  | None => ret tt
  | Some c =>
      match instability c with
      | Some _ => ret tt
      | None =>
          if Ce c + Ca c =? 0 then update self (set_instability 0%Q)
          else let! v := lift (py_div (Ce c) (Ce c + Ca c)) in
               update self (set_instability v)
      end
  end.

(** Modelled from the spec: [Component.calculate_abstraction] of
    [src/icomponents.py], absent from the sources.  Section 4.2: the ratio
    of abstract types to declared types, 0 for a unit that declares none,
    computed once and cached afterwards. *)
Definition calculate_abstraction (self : loc) : M unit :=
  let! c := read self Some None in
  match c with
  | None => ret tt
  | Some c =>
      match abstraction c with
      | Some _ => ret tt
      | None =>
          let n_abs := Z.of_nat (length (abstract_classes c)) in
          let n_all := n_abs + Z.of_nat (length (no_abstract_classes c)) in
          if n_all =? 0 then update self (set_abstraction 0%Q)
          else let! v := lift (py_div n_abs n_all) in
               update self (set_abstraction v)
      end
  end.

(** ** [ModuleComponent] *)

(** [ModuleComponent.__init__]: a missing name is derived from the path, a
    missing path from the name (which imports the module). *)
Definition ModuleComponent_init (E : Env) (path : option Path) (name : pyname)
  : M loc :=
  let name :=
    match path with
    | Some p => if negb (name_truthy name) then Some (_get_name_from_path p) else name
    | None => name
    end in
  let! path :=
    match path with
    | None =>
        if name_truthy name
        then let! p := lift (_get_path_from_name E (py_str name)) in ret (Some p)
        else ret None
    | Some p => ret (Some p)
    end in
  alloc (Component_init path name).

(** [ModuleComponent.depend_of] *)
Definition depend_of (h : list Component) (self : loc) (component_name : string)
  : bool :=
  match h !! self with
  | None => false
  | Some c =>
      existsb (fun d => bool_decide ((h !! d) ≫= comp_name = Some component_name))
              (elements (external_dependencies c))
  end.

(** [ModuleComponent.load_classes] *)
Definition load_classes (E : Env) (self : loc) : M unit :=
  let! c := read self Some None in
  match c with
  | None => ret tt
  | Some c =>
      if negb (bool_decide (no_abstract_classes c = []))
         || negb (bool_decide (abstract_classes c = []))
      then ret tt
      else
        match comp_name c with
        | None => raise TypeError
        | Some name =>
            let! module := lift (import_module E name) in
            for_each (getmembers E name) (fun obj =>
              let! h := read_heap in
              if m_isclass obj && negb (depend_of h self (m_module obj))
              then add_class self obj (m_isabstract obj)
              else ret tt)
        end
  end.

(** [ModuleComponent.get_abstraction] *)
Definition get_abstraction (E : Env) (self : loc) : M Q :=
  load_classes E self >>
  calculate_abstraction self >>
  let! a := read self abstraction None in
  ret (default 0%Q a).

(** [ModuleComponent._import_module]: an [ImportError] is swallowed and the
    method returns [None]; any other exception propagates. *)
Definition _import_module (E : Env) (module_path : string) : result (option pyobj) :=
  match import_module E module_path with
  | Ok module => Ok (Some module)
  | Raise ImportError => Ok None
  | Raise e => Raise e
  end.

(** Truth value of the result of [_import_module] in [if module:]. *)
Definition module_truthy (m : option pyobj) : bool :=
  match m with Some o => obj_truthy o | None => false end.

(** The loop over [dep.names] in [_eval_dependency]. *)
Fixpoint resolve_names (E : Env) (module : pyname) (names : list string)
  (modules : gset pyname) : result (gset pyname) :=
  match names with
  | [] => Ok modules
  | alias :: rest =>
      let module_path := py_str module ++ "." ++ alias in
      match _import_module E module_path with
      | Raise e => Raise e
      | Ok m =>
          resolve_names E module rest
            (if module_truthy m then {[Some module_path]} ∪ modules else modules)
      end
  end.

(** [ModuleComponent._eval_dependency] *)
Definition _eval_dependency (E : Env) (dep : node) : result (gset pyname) :=
  match dep with
  | Import names => Ok (list_to_set (Some <$> names))
  | ImportFrom module names =>
      match resolve_names E module names ∅ with
      | Raise e => Raise e
      | Ok modules =>
          let _imports : gset pyname := ∅ ∪ modules in
          if bool_decide (size modules ≠ length names)
          then Ok ({[module]} ∪ _imports)
          else Ok _imports
      end
  | Other _ => Ok ∅
  end.

(** [ast.walk]: every node of the tree, the root included.  The library
    leaves the order unspecified; this one is parent first.  The [alias]
    children of an import statement are left out: [_eval_dependency] gives
    the empty set on them. *)
Fixpoint walk (n : node) : list node :=
  n :: match n with
       | Other children => flat_map walk children
       | _ => []
       end.

(** The loop of [get_dependencies] over the walked nodes. *)
Fixpoint eval_nodes (E : Env) (nodes : list node) (_imports : gset pyname)
  : result (gset pyname) :=
  match nodes with
  | [] => Ok _imports
  | n :: rest =>
      match _eval_dependency E n with
      | Raise e => Raise e
      | Ok deps => eval_nodes E rest (_imports ∪ deps)
      end
  end.

(** [ModuleComponent.get_dependencies]; [open(None)] is a [TypeError]. *)
Definition get_dependencies (E : Env) (path : option Path) : result (gset pyname) :=
  match path with
  | None => Raise TypeError
  | Some p =>
      match parse_file E p with
      | Raise e => Raise e
      | Ok tree_imports => eval_nodes E (walk tree_imports) ∅
      end
  end.

(** [module in ignore_dependencies], guarded by the truth value of the
    list ([None] and the empty list filter nothing). *)
Definition is_ignored (ignore : option (list string)) (module : pyname) : bool :=
  match ignore with
  | None => false
  | Some l =>
      negb (bool_decide (l = []))
      && match module with
         | Some s => bool_decide (s ∈ l)
         | None => false
         end
  end.

(** [ModuleComponent.load_dependencies] *)
Definition load_dependencies (E : Env) (self : loc) (ignore : option (list string))
  : M unit :=
  let! c := read self Some None in
  match c with
  | None => ret tt
  | Some c =>
      if negb (bool_decide (external_dependencies c = ∅)) then ret tt
      else
        let! dependencies := lift (get_dependencies E (comp_path c)) in
        for_each (elements dependencies) (fun module =>
          if is_ignored ignore module then ret tt
          else
            let! dep_comp := ModuleComponent_init E None module in
            add_dependency self dep_comp false)
  end.

(** [ModuleComponent.get_instability] *)
Definition get_instability (self : loc) : M Q :=
  calculate_instability self >>
  let! i := read self instability None in
  ret (default 0%Q i).

(** Modelled from the spec: [Component.get_distance] of
    [src/icomponents.py], absent from the sources.  Section 4.4:
    D = |A + I - 1| from the unit's abstraction and instability, computed
    once and cached afterwards. *)
Definition get_distance (E : Env) (self : loc) : M Q :=
  let! d := read self distance None in
  match d with
  | Some d => ret d
  | None =>
      let! a := get_abstraction E self in
      let! i := get_instability self in
      let d := Qabs (a + i - 1)%Q in
      update self (set_distance d) >>
      ret d
  end.

(** ** [ModuleComponentLoader] *)

(** The point of the instability/abstraction plane of one unit
    ([ASPoint] of [dtos.py]). *)
Module ASPoint.
Record t := mk { x : Q; y : Q; d : Q }.
End ASPoint.

Definition set_ignore (l : list string) (g : Graph) : Graph :=
  mkGraph (heap g) (components g) l (root_path g).

(** Modelled from the spec: [ComponentLoader.ignore_deps] of
    [src/icomponents.py], absent from the sources.  The names are merged
    into the loader's ignore list (section 6, configuration). *)
Definition ignore_deps (deps : list string) : M unit :=
  fun g => (Ok tt, set_ignore (ignore_dependencies g ++ deps)%list g).

(** [ModuleComponentLoader._ignore_native_library] *)
Definition _ignore_native_library : M unit :=
  ignore_deps ["abc"; "typing"].

(** [ModuleComponentLoader.__init__] on the attributes the base class sets
    up: no component, nothing ignored. *)
Definition ModuleComponentLoader_init (root : option string) : Graph :=
  snd (_ignore_native_library (mkGraph [] Dict.empty [] root)).

(** [ModuleComponentLoader._find_py_modules] *)
Definition _find_py_modules (root : string) (modules : list string) : list Path :=
  flat_map (fun module =>
              if negb (PyStr.endswith ".py" module) then []
              else [PyPath.of_string (PyPath.os_path_join root module)])
           modules.

(** [ModuleComponentLoader.get_py_modules] *)
Definition get_py_modules (E : Env) (root : string) : list Path :=
  flat_map (fun '(root, packages, modules) =>
              if negb (bool_decide ("__init__.py" ∈ modules)) then []
              else _find_py_modules root modules)
           (os_walk E root).

(** [ModuleComponentLoader._load_components] *)
Definition _load_components (E : Env) (root : string) : M unit :=
  for_each (get_py_modules E root) (fun module =>
    let! component := ModuleComponent_init E (Some module) None in
    let! name := read component comp_name None in
    fun g => (Ok tt, set_components (Dict.set name component (components g)) g)).

(** [ModuleComponentLoader._load_classes] *)
Definition _load_classes (E : Env) : M unit :=
  let! comps := read_components in
  for_each (Dict.values comps) (fun component => load_classes E component).

(** The name of the object at [d], as [comp_ext_deps.name] reads it. *)
Definition name_of (h : list Component) (d : loc) : pyname :=
  (h !! d) ≫= comp_name.

(** The body of the inner loop of [_load_dependencies], for one outgoing
    edge of [component]: when the edge points to a unit of that name among
    the discovered ones, [component] is added to that unit's incoming set. *)
Definition mirror_body (component comp_ext_deps : loc) : M unit :=
  let! h := read_heap in
  let! comps := read_components in
  if Dict.mem comps (name_of h comp_ext_deps)
  then match Dict.get comps (name_of h comp_ext_deps) with
       | Some comp_deps => add_dependency comp_deps component true
       | None => ret tt
       end
  else ret tt.

(** The inner loop of [_load_dependencies]. *)
Definition mirror_edges (component : loc) : M unit :=
  let! ext := read component external_dependencies ∅ in
  for_each (elements ext) (mirror_body component).

(** The body of the outer loop of [_load_dependencies], for one item of
    [self.components.items()]. *)
Definition resolve_one (E : Env) (ignore : list string) (item : pyname * loc)
  : M unit :=
  let '(component_name, component) := item in
  load_dependencies E component (Some ignore) >>
  (fun g => (Ok tt, set_components (Dict.set component_name component (components g)) g)) >>
  mirror_edges component.

(** The outer loop of [_load_dependencies], with the list that
    [ignore_dependencies] is bound to at that point. *)
Definition resolve_all (E : Env) (ignore : list string) : M unit :=
  let! comps := read_components in
  for_each (Dict.items comps) (resolve_one E ignore).

(** The world of a caller: the graph, and the list objects the caller
    owns, by address. *)
Record World := mkWorld {
  graph : Graph;
  lists : list (list string)
}.

(** [ModuleComponentLoader._load_dependencies].  The argument is [None] or
    the address of a list.  [if not ignore_dependencies] rebinds the local
    name to a new list when the argument is [None] or an empty list;
    [+=] then extends in place whichever list the name is bound to.  The
    loader's own list is an object of its own, not one of the caller's. *)
Definition _load_dependencies (E : Env) (ignore_arg : option nat) (w : World)
  : result unit * World :=
  let builtin := ignore_dependencies (graph w) in
  let '(ignore, lists') :=
    match ignore_arg with
    | None => (([] ++ builtin)%list, lists w)
    | Some r =>
        match lists w !! r with
        | Some (a :: l) =>
            (((a :: l) ++ builtin)%list, <[r := ((a :: l) ++ builtin)%list]> (lists w))
        | _ => (([] ++ builtin)%list, lists w)
        end
    end in
  let '(res, g') := resolve_all E ignore (graph w) in
  (res, mkWorld g' lists').

(** The loop of [get_as_plane] over [self.components.items()]. *)
Fixpoint as_plane_loop (E : Env) (items : list (pyname * loc))
  (as_plane : dict ASPoint.t) : M (dict ASPoint.t) :=
  match items with
  | [] => ret as_plane
  | (component_name, component) :: rest =>
      let! instability := get_instability component in
      let! abstraction := get_abstraction E component in
      let! distance := get_distance E component in
      let as_point := ASPoint.mk instability abstraction distance in
      as_plane_loop E rest (Dict.set component_name as_point as_plane)
  end.

(** [ModuleComponentLoader.get_as_plane] *)
Definition get_as_plane (E : Env) : M (dict ASPoint.t) :=
  let! comps := read_components in
  as_plane_loop E (Dict.items comps) Dict.empty.

(** ** Floats

    A Python [float] is a binary64 number.  It is modelled by the
    rational it stands for, and an operation on floats returns the float
    nearest to the exact result, the one with the even significand when
    two are as near ([to_float]).  Integers are exact.  The largest float
    is not modelled: the numbers of this program stay far below it. *)

(** The integer nearest to [q], the even one of two. *)
Definition round_half_even (q : Q) : Z :=
  let f := Qfloor q in
  let r := (q - inject_Z f)%Q in
  match (r ?= 1 # 2)%Q with
  | Lt => f
  | Gt => f + 1
  | Eq => if Z.even f then f else f + 1
  end.

(** The exponent [e] with [2^e <= q < 2^(e+1)], for a positive [q]. *)
Definition binade (q : Q) : Z :=
  let e := Z.log2 (Qnum q) - Z.log2 (Zpos (Qden q)) in
  if Qle_bool (2 ^ e) q then e else e - 1.

(** The gap between the floats around [q]: a float has 53 significant
    bits, and below [2^-1022] the gap stays [2^-1074]. *)
Definition ulp (q : Q) : Q := (2 ^ Z.max (binade (Qabs q) - 52) (-1074))%Q.

(** The float nearest to [q]. *)
Definition to_float (q : Q) : Q :=
  Qred (inject_Z (round_half_even (q / ulp q)) * ulp q).

(** The decimal with [ndigits] digits nearest to [v], the one with the
    even last digit of two. *)
Definition round_decimal (v : Q) (ndigits : Z) : Q :=
  let scale := (10 ^ ndigits)%Q in
  (inject_Z (round_half_even (v * scale)) / scale)%Q.

(** [round(v, ndigits)]: CPython rounds the exact value of the float [v]
    to a decimal, and returns the float nearest to that decimal. *)
Definition py_round (v : Q) (ndigits : Z) : Q := to_float (round_decimal v ndigits).

(** One addition of [sum].  The metrics of [icomponents.py] are modelled
    as the fractions the specification gives; an item is made a float as
    it is added, and so is the result. *)
Definition add_float (acc d : Q) : Q := to_float (acc + to_float d).

(** [sum(l)], the items added one after the other from the left, as
    CPython before 3.12 does it; from 3.12 on it carries a correction
    term, which can change the last bits of the result. *)
Definition py_sum (l : list Q) : Q := fold_left add_float l 0%Q.

(** [v / n] on a float [v] and an integer [n], which is made a float
    first. *)
Definition float_div (v : Q) (n : Z) : Q := to_float (v / to_float (inject_Z n)).

(** [v / n] with an integer divisor. *)
Definition py_divq (v : Q) (n : Z) : result Q :=
  if n =? 0 then Raise ZeroDivisionError else Ok (float_div v n).

Arguments to_float : simpl never.
Arguments py_round : simpl never.
Arguments py_sum : simpl never.
Arguments float_div : simpl never.

(** The first loop of [calculate_main_distance]. *)
Fixpoint collect_distances (E : Env) (items : list (pyname * loc)) (distances : list Q)
  : M (list Q) :=
  match items with
  | [] => ret distances
  | (component_name, component) :: rest =>
      let! comp_distance := get_distance E component in
      collect_distances E rest (distances ++ [comp_distance])
  end.

Definition default_decimals : Z := 2.

(** [ModuleComponentLoader.calculate_main_distance]; [None] for
    [decimals] is the argument left out. *)
Definition calculate_main_distance (E : Env) (decimals : option Z) : M Q :=
  let decimals := default default_decimals decimals in
  let! comps := read_components in
  let! distances := collect_distances E (Dict.items comps) [] in
  let! main_distance :=
    match distances with
    | [] => ret 0%Q
    | _ => lift (py_divq (py_sum distances) (Z.of_nat (length distances)))
    end in
  ret (py_round main_distance decimals).

(** [ModuleComponentLoader.load_components].  The root is given as the
    string [os.walk] receives; [os.walk(None)] is a [TypeError]. *)
Definition load_components (E : Env) (root_arg : option string)
  (ignore_arg : option nat) (w : World) : result unit * World :=
  let root := if negb (name_truthy root_arg) then root_path (graph w) else root_arg in
  match root with
  | None => (Raise TypeError, w)
  | Some root =>
      match _load_components E root (graph w) with
      | (Raise e, g1) => (Raise e, mkWorld g1 (lists w))
      | (Ok _, g1) =>
          match _load_dependencies E ignore_arg (mkWorld g1 (lists w)) with
          | (Raise e, w2) => (Raise e, w2)
          | (Ok _, w2) =>
              let '(res, g3) := _load_classes E (graph w2) in
              (res, mkWorld g3 (lists w2))
          end
      end
  end.

(** [ModuleComponentLoader.get_components] *)
Definition get_components (g : Graph) : list loc := Dict.values (components g).

(** * Specification vocabulary *)

(** [X.Y] resolves: importing it gives an object that counts as true. *)
Definition resolves (E : Env) (module_path : string) : bool :=
  match import_module E module_path with
  | Ok o => obj_truthy o
  | Raise _ => false
  end.

(** The dotted path tried for the name [Y] of [from X import Y]. *)
Definition qualified (X : pyname) (Y : string) : string := py_str X ++ "." ++ Y.

(** Where a recorded name comes from. *)
Definition recorded_by (E : Env) (n : node) (m : pyname) : Prop :=
  match n with
  | Import names => ∃ X, X ∈ names ∧ m = Some X
  | ImportFrom X names =>
      (∃ Y, Y ∈ names ∧ resolves E (qualified X Y) = true ∧ m = Some (qualified X Y))
      ∨ m = X
  | Other _ => False
  end.

(** A metric value in the unit interval. *)
Definition in_unit (q : Q) : Prop := (0 <= q)%Q ∧ (q <= 1)%Q.

(** Cached metrics are consistent: the ratios lie in the unit interval,
    and a cached distance was computed from the cached ratios.  Holds of
    every new unit (nothing is cached) and is kept by every operation. *)
Definition cache_ok (c : Component) : Prop :=
  (∀ i, instability c = Some i -> in_unit i)
  ∧ (∀ a, abstraction c = Some a -> in_unit a)
  ∧ (∀ v, distance c = Some v ->
       ∃ a i, abstraction c = Some a ∧ instability c = Some i
              ∧ v = Qabs (a + i - 1)%Q).

Definition caches_ok (g : Graph) : Prop :=
  ∀ x c, heap g !! x = Some c -> cache_ok c.

(** What a metric request may change in the object it is made on: the
    class lists and the cached metrics, and a cached value never changes. *)
Definition metric_rel (C C' : Component) : Prop :=
  comp_name C' = comp_name C ∧ comp_path C' = comp_path C
  ∧ external_dependencies C' = external_dependencies C
  ∧ internal_dependents C' = internal_dependents C
  ∧ (cache_ok C -> cache_ok C')
  ∧ (∀ v, instability C = Some v -> instability C' = Some v)
  ∧ (∀ v, abstraction C = Some v -> abstraction C' = Some v)
  ∧ (∀ v, distance C = Some v -> distance C' = Some v).

(** The footprint of a metric request on the object at [self]. *)
Definition metric_step (self : loc) (g g' : Graph) : Prop :=
  components g' = components g
  ∧ length (heap g') = length (heap g)
  ∧ (∀ x, x ≠ self -> heap g' !! x = heap g !! x)
  ∧ (∀ C, heap g !! self = Some C ->
       ∃ C', heap g' !! self = Some C' ∧ metric_rel C C').

(** A point of the plane is well formed. *)
Definition point_ok (pt : ASPoint.t) : Prop :=
  ASPoint.d pt = Qabs (ASPoint.y pt + ASPoint.x pt - 1)%Q
  ∧ in_unit (ASPoint.x pt) ∧ in_unit (ASPoint.y pt) ∧ in_unit (ASPoint.d pt).

(** The value [calculate_instability] computes for a unit. *)
Definition instability_formula (c : Component) : Q :=
  if Ce c + Ca c =? 0 then 0%Q
  else (inject_Z (Ce c) / inject_Z (Ce c + Ca c))%Q.

(** The value [calculate_abstraction] computes for a unit. *)
Definition abstraction_formula (c : Component) : Q :=
  let n_abs := Z.of_nat (length (abstract_classes c)) in
  let n_all := n_abs + Z.of_nat (length (no_abstract_classes c)) in
  if n_all =? 0 then 0%Q else (inject_Z n_abs / inject_Z n_all)%Q.

(** The effect of [calculate_instability] on the object it is called on. *)
Definition fill_instability (c : Component) : Component :=
  match instability c with
  | Some _ => c
  | None => set_instability (instability_formula c) c
  end.

(** The effect of [calculate_abstraction] on the object it is called on. *)
Definition fill_abstraction (c : Component) : Component :=
  match abstraction c with
  | Some _ => c
  | None => set_abstraction (abstraction_formula c) c
  end.

(** What a request returns is what is cached afterwards. *)
Definition returns_cached (field : Component -> option Q) (dflt : Q)
  (self : loc) (v : Q) (g' : Graph) : Prop :=
  match heap g' !! self with
  | Some C' => field C' = Some v
  | None => v = dflt
  end.


(** The arithmetic mean, in exact arithmetic. *)
Definition exact_sum (ds : list Q) : Q := foldr Qplus 0%Q ds.

Definition mean (ds : list Q) : Q :=
  match ds with
  | [] => 0%Q
  | _ => (exact_sum ds / inject_Z (Z.of_nat (length ds)))%Q
  end.

(** The mean as [calculate_main_distance] computes it, in floats. *)
Definition float_mean (ds : list Q) : Q :=
  match ds with
  | [] => 0%Q
  | _ => float_div (py_sum ds) (Z.of_nat (length ds))
  end.

(** ** Example data *)

Module Examples.

(** An interpreter in which the packages [pkg], [pkg.sub] and the modules
    [pkg.a], [pkg.b], [pkg.sub.mod] and [os] can be imported, and nothing
    else. *)
Definition import_table (name : string) : result pyobj :=
  if String.eqb name "pkg" then Ok (PyModule true)
  else if String.eqb name "pkg.sub" then Ok (PyModule true)
  else if String.eqb name "pkg.a" then Ok (PyModule false)
  else if String.eqb name "pkg.b" then Ok (PyModule false)
  else if String.eqb name "pkg.sub.mod" then Ok (PyModule false)
  else if String.eqb name "os" then Ok (PyModule false)
  else Raise ImportError.

(** [pkg/a.py]: [import os] and [from pkg import b, zz]. *)
Definition src_a : node :=
  Other [Import ["os"]; ImportFrom (Some "pkg") ["b"; "zz"]].

(** [pkg/c.py]: [import requests], which is not installed. *)
Definition src_c : node := Other [Import ["requests"]].

Definition sources (p : Path) : result node :=
  if bool_decide (p = PyPath.of_string "pkg/a.py") then Ok src_a
  else if bool_decide (p = PyPath.of_string "pkg/c.py") then Ok src_c
  else Ok (Other []).

Definition members (name : string) : list member :=
  if String.eqb name "pkg.b" then [mkMember "Base" true "pkg.b" true]
  else if String.eqb name "pkg.a"
       then [mkMember "Base" true "pkg.b" true; mkMember "Impl" true "pkg.a" false;
             mkMember "os" false "" false]
       else [].

(** The project [pkg/__init__.py], [pkg/a.py], [pkg/b.py]. *)
Definition env : Env :=
  mkEnv import_table members sources
    (fun _ => [("pkg", [], ["__init__.py"; "a.py"; "b.py"; "README"])]).

(** The same with [pkg/c.py] added. *)
Definition env_c : Env :=
  mkEnv import_table members sources
    (fun _ => [("pkg", [], ["__init__.py"; "a.py"; "b.py"; "c.py"])]).

(** A caller that owns the list [["os"]] at address 0 and an empty list at
    address 1, and a new loader. *)
Definition world0 : World :=
  mkWorld (ModuleComponentLoader_init (Some "pkg")) [["os"]; []].

(** The graph after discovery. *)
Definition discovered : Graph := (_load_components env "pkg" (graph world0)).2.

(** The world after [load_components(ignore_dependencies=["os"])]. *)
Definition loaded : World := (load_components env None (Some 0%nat) world0).2.

(** The caller's world once discovery is done. *)
Definition world_discovered : World := mkWorld discovered [["os"]; []].

(** The world of a caller who ignores [pkg.a], a unit of the project
    itself, once discovery is done. *)
Definition world_discovered_ignoring_a : World :=
  mkWorld discovered [["pkg.a"; "os"]].

(** The caller's world after the dependency pass alone. *)
Definition resolved : World :=
  (_load_dependencies env (Some 0%nat) world_discovered).2.

(** Discovery of the project with [pkg/c.py]. *)
Definition world_discovered_c : World :=
  mkWorld (_load_components env_c "pkg" (graph world0)).2 [["os"]; []].

(** A unit whose metrics have been requested: nothing depends on it, so
    its instability is 1, and its distance is its abstraction. *)
Definition measured (name : string) (a : Q) : Component :=
  mkComponent (Some name) None ∅ ∅ [] [] (Some 1%Q) (Some a)
    (Some (Qabs (a + 1 - 1)%Q)).

(** Five units with the distances 1/8, 0, 0, 0 and 0. *)
Definition near_tie : Graph :=
  mkGraph [measured "u0" (1 # 8); measured "u1" 0%Q; measured "u2" 0%Q;
           measured "u3" 0%Q; measured "u4" 0%Q]
    (Dict.set (Some "u4") 4%nat
       (Dict.set (Some "u3") 3%nat
          (Dict.set (Some "u2") 2%nat
             (Dict.set (Some "u1") 1%nat
                (Dict.set (Some "u0") 0%nat Dict.empty)))))
    [] None.

End Examples.

(** ** Vocabulary for the dependency pass *)

(** The object [C] with other dependency sets. *)
Definition with_sets (S T : gset loc) (C : Component) : Component :=
  mkComponent (comp_name C) (comp_path C) S T
    (abstract_classes C) (no_abstract_classes C)
    (instability C) (abstraction C) (distance C).

(** Every reference held by the graph points to an object. *)
Record wf (g : Graph) : Prop := mkWf {
  wf_ext : ∀ x C d, heap g !! x = Some C -> d ∈ external_dependencies C ->
                    (d < length (heap g))%nat;
  wf_int : ∀ x C d, heap g !! x = Some C -> d ∈ internal_dependents C ->
                    (d < length (heap g))%nat;
  wf_comps : ∀ k a, dstore (components g) !! k = Some a -> (a < length (heap g))%nat
}.

Definition same_loader (g g' : Graph) : Prop :=
  components g' = components g
  ∧ ignore_dependencies g' = ignore_dependencies g
  ∧ root_path g' = root_path g.

(** What mirroring the edges of [c] may change: incoming sets, and only
    by adding [c]. *)
Definition int_step (c : loc) (g g' : Graph) : Prop :=
  same_loader g g'
  ∧ length (heap g') = length (heap g)
  ∧ ∀ x C, heap g !! x = Some C ->
      ∃ T, heap g' !! x
           = Some (with_sets (external_dependencies C) (T ∪ internal_dependents C) C)
           ∧ T ⊆ {[c]}.

(** What one iteration of the pass, the one for the unit at [c], may
    change: new objects appear, none of them with an ignored name; [c]
    gets outgoing edges to new objects; incoming sets may gain [c]. *)
Definition pass_step (ignore : option (list string)) (c : loc) (g g' : Graph) : Prop :=
  (c < length (heap g))%nat
  ∧ same_loader g g'
  ∧ (length (heap g) <= length (heap g'))%nat
  ∧ (∀ x C, heap g !! x = Some C ->
       ∃ S T, heap g' !! x
              = Some (with_sets (S ∪ external_dependencies C)
                                (T ∪ internal_dependents C) C)
              ∧ (x ≠ c -> S = ∅)
              ∧ (∀ d, d ∈ S -> (length (heap g) <= d < length (heap g'))%nat)
              ∧ T ⊆ {[c]})
  ∧ (∀ x C, (length (heap g) <= x)%nat -> heap g' !! x = Some C ->
       is_ignored ignore (comp_name C) = false
       ∧ external_dependencies C = ∅
       ∧ internal_dependents C ⊆ {[c]}).

(** The outgoing edges of the unit at [a] to discovered units are
    mirrored: the target has [a] in its incoming set.  The target of an
    edge is found by name, as [_load_dependencies] finds it: the object an
    edge points to is a placeholder of its own, never the discovered unit
    itself. *)
Definition mirrored (g : Graph) (a : loc) : Prop :=
  ∀ A d b B,
    heap g !! a = Some A -> d ∈ external_dependencies A ->
    Dict.get (components g) (name_of (heap g) d) = Some b ->
    heap g !! b = Some B ->
    a ∈ internal_dependents B.

(** Nothing is left to resolve for the unit at [a]: its edges are
    mirrored, and if it has no outgoing edge, every name its source
    imports is ignored. *)
Definition settled (E : Env) (ignore : option (list string)) (g : Graph) (a : loc)
  : Prop :=
  mirrored g a
  ∧ ∀ A, heap g !! a = Some A -> external_dependencies A = ∅ ->
      ∃ deps, get_dependencies E (comp_path A) = Ok deps
              ∧ ∀ m, m ∈ deps -> is_ignored ignore m = true.

(** The list [ignore_dependencies] is bound to when the loop of
    [_load_dependencies] starts. *)
Definition effective_ignore (ignore_arg : option nat) (w : World) : list string :=
  match ignore_arg with
  | None => ignore_dependencies (graph w)
  | Some r =>
      match lists w !! r with
      | Some (a :: l) => ((a :: l) ++ ignore_dependencies (graph w))%list
      | _ => ignore_dependencies (graph w)
      end
  end.

(** The member [obj] of its module is a class that [load_classes] adds to
    the unit at [c]. *)
Definition qualifies (h : list Component) (c : loc) (obj : member) : bool :=
  m_isclass obj && negb (depend_of h c (m_module obj)).

(** Nothing is left to classify for the unit at [c]: it has classes, or
    its module imports and none of its members qualifies. *)
Definition classes_done (E : Env) (g : Graph) (c : loc) : Prop :=
  ∀ C, heap g !! c = Some C ->
    abstract_classes C = [] -> no_abstract_classes C = [] ->
    ∃ name, comp_name C = Some name
            ∧ (∃ o, import_module E name = Ok o)
            ∧ ∀ obj, obj ∈ getmembers E name -> qualifies (heap g) c obj = false.

(** No unit has an outgoing edge to an object named [n]: the name does
    not count in any Ce. *)
Definition no_ext_named (n : string) (g : Graph) : Prop :=
  ∀ x C d, heap g !! x = Some C -> d ∈ external_dependencies C ->
           name_of (heap g) d ≠ Some n.

(** No unit has an incoming edge from an object named [n]: the name does
    not count in any Ca. *)
Definition no_int_named (n : string) (g : Graph) : Prop :=
  ∀ x C d, heap g !! x = Some C -> d ∈ internal_dependents C ->
           name_of (heap g) d ≠ Some n.

(** A graph as discovery leaves it: no edge yet. *)
Definition unresolved (g : Graph) : Prop :=
  Forall (fun C => external_dependencies C = ∅ ∧ internal_dependents C = ∅) (heap g).

(** The registered units are objects of the heap. *)
Definition registered (g : Graph) : Prop :=
  map_Forall (fun _ a => (a < length (heap g))%nat) (dstore (components g)).

(** No metric of the unit has been computed yet. *)
Definition uncached (c : Component) : bool :=
  match instability c, abstraction c, distance c with
  | None, None, None => true
  | _, _, _ => false
  end.

(** A graph on which no metric has been requested yet. *)
Definition unmeasured (g : Graph) : Prop :=
  Forall (fun C => uncached C = true) (heap g).

(** The value of a computation that ended normally. *)
Definition value_of {A} (dflt : A) (r : result A) : A :=
  match r with Ok a => a | Raise _ => dflt end.

(** Every import that extraction tries on the tree either succeeds or
    fails with an [ImportError], the one exception [_import_module]
    absorbs. *)
Definition import_guarded (E : Env) (tree : node) : Prop :=
  ∀ X names Y e,
    ImportFrom X names ∈ walk tree -> Y ∈ names ->
    import_module E (qualified X Y) = Raise e -> e = ImportError.

(** The source of every discovered unit can be imported. *)
Definition importable_at (E : Env) (g : Graph) (c : loc) : Prop :=
  ∀ C, heap g !! c = Some C ->
    ∃ name o, comp_name C = Some name ∧ import_module E name = Ok o.

Definition importable_units (E : Env) (g : Graph) : Prop :=
  ∀ k c, (k, c) ∈ Dict.items (components g) -> importable_at E g c.

(** ** Vocabulary for discovery *)

(** The unit that [ModuleComponent(path=p)] creates. *)
Definition unit_of_path (p : Path) : Component :=
  Component_init (Some p) (Some (_get_name_from_path p)).

(** A dictionary as the operations of [Dict] keep it: every key is listed
    once, and the listed keys are the bound ones. *)
Definition dict_ok {V} (d : dict V) : Prop :=
  NoDup (dkeys d) ∧ ∀ k, k ∈ dkeys d <-> is_Some (dstore d !! k).

(** A project in which a module and a package derive the same name:
    [pkg/a.py] and [pkg/a/__init__.py] both give [pkg.a]. *)
Module Clash.
Definition env : Env :=
  mkEnv Examples.import_table Examples.members Examples.sources
    (fun _ => [("pkg", ["a"], ["__init__.py"; "a.py"]);
               ("pkg/a", [], ["__init__.py"])]).
End Clash.

(** ** Vocabulary for names *)

(** A component of a dotted module name: not empty, and without a dot or
    a slash. *)
Definition name_part (s : string) : Prop :=
  s ≠ "" ∧ PyStr.contains "." s = false ∧ PyStr.contains "/" s = false.

(** A component of a path: not empty, not [.], and without a slash. *)
Definition path_part (s : string) : Prop :=
  s ≠ "" ∧ s ≠ "." ∧ PyStr.contains "/" s = false.

(** ** Vocabulary for single units *)

(** The unit [C] with other class lists. *)
Definition with_classes (abs conc : list member) (C : Component) : Component :=
  mkComponent (comp_name C) (comp_path C)
    (external_dependencies C) (internal_dependents C) abs conc
    (instability C) (abstraction C) (distance C).

(** The unit that [ModuleComponent(name=m)] creates: the path is derived
    from the name, which imports the module, unless the name counts as
    false. *)
Definition unit_of_name (E : Env) (m : pyname) : result Component :=
  if name_truthy m
  then match _get_path_from_name E (py_str m) with
       | Ok p => Ok (Component_init (Some p) m)
       | Raise e => Raise e
       end
  else Ok (Component_init None m).

(** The names among the extracted ones that [load_dependencies] does not
    skip, in the order of its loop. *)
Definition kept (ignore : option (list string)) (deps : gset pyname) : list pyname :=
  List.filter (fun m => negb (is_ignored ignore m)) (elements deps).

(** The addresses of [n] objects created in a row on a heap of length [a]. *)
Definition fresh (a n : nat) : gset loc := list_to_set (seq a n).

(** ** Vocabulary for incoming edges *)

(** The object at [x] is registered under some name. *)
Definition is_registered (g : Graph) (x : loc) : Prop :=
  ∃ k, Dict.get (components g) k = Some x.

(** The incoming edge of the unit at [b] from [a] mirrors an outgoing
    edge: [a] is one of the registered units, and it has an outgoing edge
    to an object whose name is bound to [b]. *)
Definition mirrors (g : Graph) (a b : loc) : Prop :=
  (∃ k, (k, a) ∈ Dict.items (components g))
  ∧ ∃ A d, heap g !! a = Some A ∧ d ∈ external_dependencies A
           ∧ Dict.get (components g) (name_of (heap g) d) = Some b.

(** A unit as its constructor leaves it: no edge, no class, no metric. *)
Definition pristine (C : Component) : Prop :=
  C = Component_init (comp_path C) (comp_name C).

(** What the dependency pass keeps true of the graph, from the graph [g0]
    it starts on: references point to objects; the loader stays as it is;
    an incoming edge was there at the start or mirrors an outgoing edge;
    the objects created since are pristine; and the objects of [g0] that
    are not registered are as they were. *)
Record pass_inv (g0 g : Graph) : Prop := mkPassInv {
  pi_wf : wf g;
  pi_loader : same_loader g0 g;
  pi_len : (length (heap g0) <= length (heap g))%nat;
  pi_in : ∀ b B a, heap g !! b = Some B -> a ∈ internal_dependents B ->
            (∃ B0, heap g0 !! b = Some B0 ∧ a ∈ internal_dependents B0)
            ∨ mirrors g a b;
  pi_new : ∀ x C, (length (heap g0) <= x)%nat -> heap g !! x = Some C -> pristine C;
  pi_old : ∀ x, ¬ is_registered g0 x -> (x < length (heap g0))%nat ->
             heap g !! x = heap g0 !! x
}.

(** ** Vocabulary for what requests leave alone *)

(** From [g] to [g'] nothing changed but class lists and cached metrics:
    the same objects with the same names, paths and edges, registered
    under the same names, and no cached value replaced. *)
Definition only_metrics (g g' : Graph) : Prop :=
  components g' = components g
  ∧ length (heap g') = length (heap g)
  ∧ ∀ x C, heap g !! x = Some C ->
      ∃ C', heap g' !! x = Some C' ∧ metric_rel C C'.

(** * Properties *)

(** ** Import extraction *)

Lemma import_truthy_resolves E m o :
  _import_module E m = Ok o -> module_truthy o = resolves E m.
Proof.
  unfold _import_module, resolves.
  destruct (import_module E m) as [obj|e]; [intros [= <-]; done|].
  destruct e; intros [= <-]; done.
Qed.

Section ResolveNames.
Variable E : Env.
Variable X : pyname.

Lemma resolve_names_mono names acc ms :
  resolve_names E X names acc = Ok ms -> acc ⊆ ms.
Proof.
  revert acc. induction names as [|Y names IH]; simpl; intros acc.
  - intros [= <-]. done.
  - destruct (_import_module E (py_str X ++ "." ++ Y)) as [o|e]; [|done].
    intros H. apply IH in H. destruct (module_truthy o); set_solver.
Qed.

Lemma resolve_names_complete names acc ms Y :
  resolve_names E X names acc = Ok ms ->
  Y ∈ names -> resolves E (qualified X Y) = true ->
  Some (qualified X Y) ∈ ms.
Proof.
  revert acc. induction names as [|Z names IH]; simpl; intros acc Hr Hin Hy.
  - by apply elem_of_nil in Hin.
  - destruct (_import_module E (py_str X ++ "." ++ Z)) as [o|e] eqn:Ho; [|done].
    apply elem_of_cons in Hin as [->|Hin]; [|by eapply IH].
    apply import_truthy_resolves in Ho. unfold qualified in Hy.
    rewrite Hy in Ho. rewrite Ho in Hr.
    apply resolve_names_mono in Hr. set_solver.
Qed.

Lemma resolve_names_sound names acc ms n :
  resolve_names E X names acc = Ok ms -> n ∈ ms ->
  n ∈ acc ∨ ∃ Y, Y ∈ names ∧ resolves E (qualified X Y) = true
                 ∧ n = Some (qualified X Y).
Proof.
  revert acc. induction names as [|Z names IH]; simpl; intros acc Hr Hn.
  - injection Hr as <-. by left.
  - destruct (_import_module E (py_str X ++ "." ++ Z)) as [o|e] eqn:Ho; [|done].
    apply import_truthy_resolves in Ho.
    destruct (IH _ Hr Hn) as [Hacc|(Y & HY & Hres & ->)].
    + destruct (module_truthy o) eqn:Ht; [|by left].
      apply elem_of_union in Hacc as [Hs|Hacc]; [|by left].
      apply elem_of_singleton in Hs as ->.
      right. exists Z. split; [left|]. done.
    + right. exists Y. split; [by right|done].
Qed.

(** Every name that does not resolve leaves the set one short. *)
Lemma resolve_names_size names acc ms :
  resolve_names E X names acc = Ok ms ->
  (size ms + length (List.filter (fun Y => negb (resolves E (qualified X Y))) names)
   <= size acc + length names)%nat.
Proof.
  revert acc. induction names as [|Z names IH]; simpl; intros acc Hr.
  - injection Hr as <-. lia.
  - destruct (_import_module E (py_str X ++ "." ++ Z)) as [o|e] eqn:Ho; [|done].
    apply import_truthy_resolves in Ho. apply IH in Hr.
    unfold qualified at 1. rewrite <- Ho.
    destruct (module_truthy o); simpl in *; [|lia].
    assert (size ({[Some (py_str X ++ "." ++ Z)]} ∪ acc) <= S (size acc))%nat; [|lia].
    rewrite size_union_alt, size_singleton.
    assert (size (acc ∖ {[Some (py_str X ++ "." ++ Z)]}) <= size acc)%nat; [|lia].
    apply subseteq_size. set_solver.
Qed.

Lemma resolve_names_short names ms Y :
  resolve_names E X names ∅ = Ok ms ->
  Y ∈ names -> resolves E (qualified X Y) = false ->
  size ms ≠ length names.
Proof.
  intros Hr Hin Hy. apply resolve_names_size in Hr.
  rewrite size_empty in Hr.
  assert (0 < length (List.filter (fun Y => negb (resolves E (qualified X Y))) names))%nat;
    [|lia].
  assert (Y ∈ List.filter (fun Y => negb (resolves E (qualified X Y))) names) as Hf.
  { apply list_elem_of_In, filter_In. split; [by apply list_elem_of_In|].
    by rewrite Hy. }
  destruct (List.filter _ names); [by apply elem_of_nil in Hf|simpl; lia].
Qed.
End ResolveNames.


Lemma eval_dependency_sound E n s m :
  _eval_dependency E n = Ok s -> m ∈ s -> recorded_by E n m.
Proof.
  destruct n as [names|X names|children]; simpl.
  - intros [= <-] Hm. apply elem_of_list_to_set, list_elem_of_fmap in Hm.
    destruct Hm as (Y & -> & HY). eauto.
  - destruct (resolve_names E X names ∅) as [ms|e] eqn:Hr; [|done].
    intros Hs Hm.
    assert (m ∈ ms ∨ m = X) as [Hms| ->]; [|  |by right].
    { case_bool_decide; injection Hs as <-; set_solver. }
    destruct (resolve_names_sound _ _ _ _ _ _ Hr Hms) as [Hin|H]; [set_solver|by left].
  - intros [= <-] Hm. set_solver.
Qed.

Lemma eval_nodes_mono E nodes acc deps :
  eval_nodes E nodes acc = Ok deps -> acc ⊆ deps.
Proof.
  revert acc. induction nodes as [|n nodes IH]; simpl; intros acc.
  - by intros [= <-].
  - destruct (_eval_dependency E n) as [s|e]; [|done].
    intros H. apply IH in H. set_solver.
Qed.

Lemma eval_nodes_complete E nodes acc deps n :
  eval_nodes E nodes acc = Ok deps -> n ∈ nodes ->
  ∃ s, _eval_dependency E n = Ok s ∧ s ⊆ deps.
Proof.
  revert acc. induction nodes as [|n' nodes IH]; simpl; intros acc Hr Hin.
  - by apply elem_of_nil in Hin.
  - destruct (_eval_dependency E n') as [s|e] eqn:He; [|done].
    apply elem_of_cons in Hin as [->|Hin]; [|by eapply IH].
    exists s. split; [done|]. apply eval_nodes_mono in Hr. set_solver.
Qed.

Lemma eval_nodes_sound E nodes acc deps m :
  eval_nodes E nodes acc = Ok deps -> m ∈ deps ->
  m ∈ acc ∨ ∃ n, n ∈ nodes ∧ recorded_by E n m.
Proof.
  revert acc. induction nodes as [|n' nodes IH]; simpl; intros acc Hr Hm.
  - injection Hr as <-. by left.
  - destruct (_eval_dependency E n') as [s|e] eqn:He; [|done].
    destruct (IH _ Hr Hm) as [Hacc|(n & Hn & Hrec)].
    + apply elem_of_union in Hacc as [Hacc|Hs]; [by left|].
      right. exists n'. split; [left|]. by eapply eval_dependency_sound.
    + right. exists n. split; [by right|done].
Qed.

Lemma resolve_names_total E X names acc :
  (∀ Y e, Y ∈ names -> import_module E (qualified X Y) = Raise e -> e = ImportError) ->
  ∃ ms, resolve_names E X names acc = Ok ms.
Proof.
  revert acc. induction names as [|Y names IH]; simpl; intros acc Hg; [by eexists|].
  assert (∃ m, _import_module E (py_str X ++ "." ++ Y) = Ok m) as [m ->].
  { unfold _import_module.
    destruct (import_module E (py_str X ++ "." ++ Y)) as [o|e] eqn:Hi; [by eexists|].
    rewrite (Hg Y e); [by eexists|by left|done]. }
  apply IH. intros Z e HZ. apply Hg. by right.
Qed.

Lemma eval_nodes_total E nodes acc :
  (∀ X names Y e, ImportFrom X names ∈ nodes -> Y ∈ names ->
     import_module E (qualified X Y) = Raise e -> e = ImportError) ->
  ∃ deps, eval_nodes E nodes acc = Ok deps.
Proof.
  revert acc. induction nodes as [|n nodes IH]; simpl; intros acc Hg; [by eexists|].
  assert (∃ s, _eval_dependency E n = Ok s) as [s ->].
  { destruct n as [names|X names|children]; simpl; [by eexists| |by eexists].
    destruct (resolve_names_total E X names ∅) as [ms ->].
    - intros Y e HY. apply (Hg X names); [by left|done].
    - case_bool_decide; by eexists. }
  apply IH. intros X names Y e Hn. apply Hg. by right.
Qed.

(** C1. For every [from X import Y] in the source of a unit, the extractor
    records [X.Y] when [X.Y] resolves as an importable module and records
    the parent [X] otherwise, so one of the two is in the returned set for
    every imported name; [import X] contributes [X]; the result is a set
    (no duplicates), and nothing is in it but names recorded for these
    statements.  A set is returned whenever the imports tried fail with
    nothing but an [ImportError]. *)
Theorem get_dependencies_records (E : Env) (p : Path) (tree : node) :
  parse_file E p = Ok tree ->
  (import_guarded E tree -> ∃ deps, get_dependencies E (Some p) = Ok deps)
  ∧ ∀ deps, get_dependencies E (Some p) = Ok deps ->
      (∀ names X, Import names ∈ walk tree -> X ∈ names -> Some X ∈ deps)
      ∧ (∀ X names Y, ImportFrom X names ∈ walk tree -> Y ∈ names ->
           (if resolves E (qualified X Y)
            then Some (qualified X Y) ∈ deps else X ∈ deps)
           ∧ (Some (qualified X Y) ∈ deps ∨ X ∈ deps))
      ∧ NoDup (elements deps)
      ∧ (∀ m, m ∈ deps -> ∃ n, n ∈ walk tree ∧ recorded_by E n m).
Proof.
  intros Hp. unfold get_dependencies. rewrite Hp. split.
  { intros Hg. apply eval_nodes_total. intros X names Y e. apply Hg. }
  intros deps Hev.
  assert (∀ X names Y, ImportFrom X names ∈ walk tree -> Y ∈ names ->
            if resolves E (qualified X Y)
            then Some (qualified X Y) ∈ deps else X ∈ deps) as Hfrom.
  { intros X names Y Hn HY.
    destruct (eval_nodes_complete _ _ _ _ _ Hev Hn) as (s & Hs & Hsub).
    simpl in Hs.
    destruct (resolve_names E X names ∅) as [ms|e] eqn:Hr; [|done].
    destruct (resolves E (qualified X Y)) eqn:Hres.
    - apply Hsub. pose proof (resolve_names_complete _ _ _ _ _ _ Hr HY Hres).
      case_bool_decide; injection Hs as <-; set_solver.
    - pose proof (resolve_names_short _ _ _ _ _ Hr HY Hres).
      rewrite bool_decide_eq_true_2 in Hs by done.
      injection Hs as <-. set_solver. }
  split_and!.
  - intros names X Hn HX.
    destruct (eval_nodes_complete _ _ _ _ _ Hev Hn) as (s & Hs & Hsub).
    simpl in Hs. injection Hs as <-. apply Hsub.
    apply elem_of_list_to_set, list_elem_of_fmap. eauto.
  - intros X names Y Hn HY. specialize (Hfrom X names Y Hn HY).
    split; [exact Hfrom|].
    destruct (resolves E (qualified X Y)); [by left|by right].
  - apply NoDup_elements.
  - intros m Hm.
    destruct (eval_nodes_sound _ _ _ _ _ Hev Hm) as [?|?]; [set_solver|done].
Qed.

(** ** Reasoning about computations *)

Lemma set_heap_id g : set_heap (heap g) g = g.
Proof. by destruct g. Qed.

Lemma set_components_id g : set_components (components g) g = g.
Proof. by destruct g. Qed.

Lemma bind_inv {A B} (m : M A) (k : A -> M B) g r g' :
  bind m k g = (r, g') ->
  (∃ a g1, m g = (Ok a, g1) ∧ k a g1 = (r, g'))
  ∨ (∃ e, m g = (Raise e, g') ∧ r = Raise e).
Proof.
  unfold bind. destruct (m g) as [[a|e] g1]; intros H; [left|right]; [eauto|].
  injection H as <- <-. eauto.
Qed.

Lemma bind_ok {A B} (m : M A) (k : A -> M B) g a g1 :
  m g = (Ok a, g1) -> bind m k g = k a g1.
Proof. unfold bind. by intros ->. Qed.

Lemma bind_raise {A B} (m : M A) (k : A -> M B) g e g1 :
  m g = (Raise e, g1) -> bind m k g = (Raise e, g1).
Proof. unfold bind. by intros ->. Qed.

Section ForEach.
Context {A : Type}.
Implicit Types (l : list A) (body : A -> M unit).

  (** An invariant of every iteration is an invariant of the loop, however
      the loop ends. *)
Lemma for_each_inv (I : Graph -> Prop) l body :
    (∀ a g r g', a ∈ l -> I g -> body a g = (r, g') -> I g') ->
    ∀ g r g', I g -> for_each l body g = (r, g') -> I g'.
  Proof.
    induction l as [|a l IH]; simpl; intros Hstep g r g' HI Hrun.
    - injection Hrun as <- <-. done.
    - apply bind_inv in Hrun as [(u & g1 & Ha & Hrest)|(e & Ha & ->)].
      + eapply IH; [..|exact Hrest].
        * intros. eapply Hstep; [by right|done..].
        * eapply Hstep; [by left|done..].
      + eapply Hstep; [by left|done..].
  Qed.

Lemma for_each_post_from (I : Graph -> Prop) (Post : A -> Graph -> Prop) l body :
    (∀ a g g', a ∈ l -> I g -> body a g = (Ok tt, g') ->
       I g' ∧ Post a g' ∧ ∀ b, Post b g -> Post b g') ->
    ∀ (seen : list A) g g',
      I g -> (∀ a, a ∈ seen -> Post a g) -> for_each l body g = (Ok tt, g') ->
      I g' ∧ ∀ a, a ∈ (seen ++ l)%list -> Post a g'.
  Proof.
    induction l as [|a l IH]; simpl; intros Hstep seen g g' HI Hseen Hrun.
    - injection Hrun as <-. rewrite app_nil_r. done.
    - apply bind_inv in Hrun as [(u & g1 & Ha & Hrest)|(e & Ha & ?)]; [|done].
      destruct u.
      destruct (Hstep a g g1) as (HI1 & Hpa & Hkeep); [by left|done..|].
      destruct (IH ltac:(intros; eapply Hstep; [by right|done..])
                  (seen ++ [a])%list g1 g' HI1) as [? Hall]; [|done|].
      + intros b Hb. apply elem_of_app in Hb as [Hb|Hb]; [by auto|].
        apply list_elem_of_singleton in Hb as ->. done.
      + split; [done|]. intros b Hb. apply Hall.
        rewrite <- app_assoc. done.
  Qed.

  (** A loop that ends normally leaves behind what each iteration
      establishes, as long as later iterations keep it. *)
Lemma for_each_post (I : Graph -> Prop) (Post : A -> Graph -> Prop) l body :
    (∀ a g g', a ∈ l -> I g -> body a g = (Ok tt, g') ->
       I g' ∧ Post a g' ∧ ∀ b, Post b g -> Post b g') ->
    ∀ g g', I g -> for_each l body g = (Ok tt, g') ->
    I g' ∧ ∀ a, a ∈ l -> Post a g'.
  Proof.
    intros Hstep g g' HI Hrun.
    apply (for_each_post_from I Post l body Hstep [] g g' HI); [|done].
    intros a Ha. by apply elem_of_nil in Ha.
  Qed.

  (** A loop whose iterations all do nothing does nothing. *)
Lemma for_each_skip l body g :
    (∀ a, a ∈ l -> body a g = (Ok tt, g)) -> for_each l body g = (Ok tt, g).
  Proof.
    induction l as [|a l IH]; simpl; intros Hall; [done|].
    erewrite bind_ok; [|apply Hall; by left].
    apply IH. intros. apply Hall. by right.
  Qed.

  (** A loop raises when one of its iterations would, in every state the
      loop can be in when it gets there. *)
Lemma for_each_raises (P : Graph -> Prop) l body a :
    a ∈ l ->
    (∀ g, P g -> is_raise (body a g).1) ->
    (∀ b g g', b ∈ l -> P g -> body b g = (Ok tt, g') -> P g') ->
    ∀ g, P g -> is_raise (for_each l body g).1.
  Proof.
    induction l as [|b l IH]; simpl; intros Ha Hbad Hkeep g HP.
    - by apply elem_of_nil in Ha.
    - unfold bind. destruct (body b g) as [[[]|e] g1] eqn:Hb; [|done].
      apply elem_of_cons in Ha as [->|Ha].
      + specialize (Hbad g HP). by rewrite Hb in Hbad.
      + apply IH; [done|done| |].
        * intros. eapply Hkeep; [by right|done..].
        * eapply Hkeep; [by left|done..].
  Qed.
(** A loop whose iterations never raise does not raise. *)
Lemma for_each_never_raises l body :
  (∀ a g r g', body a g = (r, g') -> r = Ok tt) ->
  ∀ g r g', for_each l body g = (r, g') -> r = Ok tt.
Proof.
  intros Hb. induction l as [|a l IH]; simpl; intros g r g' H.
  - by injection H as <- _.
  - apply bind_inv in H as [(u & g1 & Ha & H)|(e & Ha & _)]; [by eapply IH|].
    by apply Hb in Ha.
Qed.
End ForEach.

(** ** Metrics *)

Lemma alter_fixed {A} (f : A -> A) (l : list A) (i : nat) :
  (∀ a, l !! i = Some a -> f a = a) -> alter f i l = l.
Proof.
  intros Hf. apply list_eq. intros j.
  destruct (decide (i = j)) as [<-|Hne].
  - rewrite list_lookup_alter_eq. destruct (l !! i) as [a|] eqn:Ha; simpl; [|done].
    by rewrite Hf.
  - by rewrite list_lookup_alter_ne.
Qed.

Lemma ratio_in_unit (a b : Z) :
  0 <= a <= b -> b ≠ 0 -> in_unit (inject_Z a / inject_Z b)%Q.
Proof.
  intros Hab Hb. destruct b as [|p|p]; [done| |lia].
  unfold in_unit, Qle, Qdiv, Qmult, Qinv, inject_Z. simpl. split; lia.
Qed.

Lemma zero_in_unit : in_unit 0%Q.
Proof. split; done. Qed.

Lemma instability_formula_in_unit c : in_unit (instability_formula c).
Proof.
  unfold instability_formula. destruct (Ce c + Ca c =? 0) eqn:Hz.
  - apply zero_in_unit.
  - apply ratio_in_unit; unfold Ce, Ca in *; lia.
Qed.

Lemma abstraction_formula_in_unit c : in_unit (abstraction_formula c).
Proof.
  unfold abstraction_formula. simpl.
  destruct (_ + _ =? 0) eqn:Hz.
  - apply zero_in_unit.
  - apply ratio_in_unit; lia.
Qed.

Lemma distance_in_unit (a i : Q) :
  in_unit a -> in_unit i -> in_unit (Qabs (a + i - 1)%Q).
Proof.
  intros [Ha0 Ha1] [Hi0 Hi1]. split; [apply Qabs_nonneg|].
  apply Qabs_Qle_condition. split; lra.
Qed.

Lemma calculate_instability_spec self g :
  calculate_instability self g
  = (Ok tt, set_heap (alter fill_instability self (heap g)) g).
Proof.
  unfold calculate_instability, bind, read. simpl.
  destruct (heap g !! self) as [c|] eqn:Hc; simpl.
  - destruct (instability c) eqn:Hi.
    + rewrite alter_fixed, set_heap_id; [done|].
      intros a Ha. unfold fill_instability. rewrite Hc in Ha. injection Ha as <-.
      by rewrite Hi.
    + assert (alter fill_instability self (heap g)
              = alter (set_instability (instability_formula c)) self (heap g)) as ->.
      { apply list_alter_ext; [|done]. intros a Ha. rewrite Hc in Ha.
        injection Ha as <-. unfold fill_instability. by rewrite Hi. }
      unfold instability_formula, lift, py_div.
      destruct (Ce c + Ca c =? 0); done.
  - rewrite alter_fixed, set_heap_id; [done|]. intros a Ha. by rewrite Hc in Ha.
Qed.

Lemma calculate_abstraction_spec self g :
  calculate_abstraction self g
  = (Ok tt, set_heap (alter fill_abstraction self (heap g)) g).
Proof.
  unfold calculate_abstraction, bind, read. simpl.
  destruct (heap g !! self) as [c|] eqn:Hc; simpl.
  - destruct (abstraction c) eqn:Hi.
    + rewrite alter_fixed, set_heap_id; [done|].
      intros a Ha. unfold fill_abstraction. rewrite Hc in Ha. injection Ha as <-.
      by rewrite Hi.
    + assert (alter fill_abstraction self (heap g)
              = alter (set_abstraction (abstraction_formula c)) self (heap g)) as ->.
      { apply list_alter_ext; [|done]. intros a Ha. rewrite Hc in Ha.
        injection Ha as <-. unfold fill_abstraction. by rewrite Hi. }
      unfold abstraction_formula, lift, py_div. simpl.
      destruct (_ + _ =? 0); done.
  - rewrite alter_fixed, set_heap_id; [done|]. intros a Ha. by rewrite Hc in Ha.
Qed.
Lemma metric_rel_refl C : metric_rel C C.
Proof. unfold metric_rel. repeat apply conj; auto. Qed.

Lemma metric_rel_trans C1 C2 C3 :
  metric_rel C1 C2 -> metric_rel C2 C3 -> metric_rel C1 C3.
Proof.
  intros (?&?&?&?&?&?&?&?) (?&?&?&?&?&?&?&?).
  unfold metric_rel. repeat apply conj; try congruence; auto.
Qed.

Lemma metric_step_refl self g : metric_step self g g.
Proof. repeat split; try done. intros C HC. exists C. split; [done|apply metric_rel_refl]. Qed.

Lemma metric_step_trans self g1 g2 g3 :
  metric_step self g1 g2 -> metric_step self g2 g3 -> metric_step self g1 g3.
Proof.
  intros (Hc1 & Hl1 & Ho1 & Hs1) (Hc2 & Hl2 & Ho2 & Hs2).
  repeat split; try congruence.
  - intros x Hx. rewrite Ho2, Ho1; done.
  - intros C HC. destruct (Hs1 _ HC) as (C' & HC' & Hr1).
    destruct (Hs2 _ HC') as (C'' & HC'' & Hr2).
    exists C''. split; [done|by eapply metric_rel_trans].
Qed.

Lemma metric_step_caches_ok self g g' :
  metric_step self g g' -> caches_ok g -> caches_ok g'.
Proof.
  intros (Hc & Hl & Ho & Hs) Hok x C' HC'.
  destruct (decide (x = self)) as [->|Hne].
  - destruct (heap g !! self) as [C|] eqn:HC.
    + destruct (Hs _ eq_refl) as (C2 & HC2 & Hr). rewrite HC' in HC2. injection HC2 as <-.
      destruct Hr as (_&_&_&_&Hk&_). apply Hk. by eapply Hok.
    + apply lookup_ge_None in HC. apply lookup_lt_Some in HC'. lia.
  - rewrite Ho in HC' by done. by eapply Hok.
Qed.

(** An attribute update that respects [metric_rel]. *)
Lemma metric_step_update self f g :
  (∀ C, heap g !! self = Some C -> metric_rel C (f C)) ->
  metric_step self g (set_heap (alter f self (heap g)) g).
Proof.
  intros Hf. repeat split; simpl.
  - apply length_alter.
  - intros x Hx. by apply list_lookup_alter_ne.
  - intros C HC. exists (f C). rewrite list_lookup_alter_eq, HC. split; [done|by apply Hf].
Qed.

Lemma metric_rel_fill_instability C : metric_rel C (fill_instability C).
Proof.
  unfold fill_instability. destruct (instability C) eqn:Hi; [apply metric_rel_refl|].
  unfold metric_rel. simpl. repeat apply conj; try done; try congruence.
  intros (Hi' & Ha & Hd). unfold cache_ok. simpl. repeat apply conj; [|done|].
  - intros v [= <-]. apply instability_formula_in_unit.
  - intros v Hv. destruct (Hd _ Hv) as (a & i & _ & Hi'' & _). congruence.
Qed.

Lemma metric_rel_fill_abstraction C : metric_rel C (fill_abstraction C).
Proof.
  unfold fill_abstraction. destruct (abstraction C) eqn:Hi; [apply metric_rel_refl|].
  unfold metric_rel. simpl. repeat apply conj; try done; try congruence.
  intros (Hi' & Ha & Hd). unfold cache_ok. simpl. repeat apply conj; [done| |].
  - intros v [= <-]. apply abstraction_formula_in_unit.
  - intros v Hv. destruct (Hd _ Hv) as (a & i & Ha' & _ & _). congruence.
Qed.

Lemma add_class_metric_step self cls b g r g' :
  add_class self cls b g = (r, g') -> metric_step self g g'.
Proof.
  unfold add_class, update. intros [= <- <-].
  apply metric_step_update. intros C _.
  destruct b; unfold metric_rel, cache_ok; simpl; repeat apply conj; done.
Qed.

Lemma load_classes_metric_step E self g r g' :
  load_classes E self g = (r, g') -> metric_step self g g'.
Proof.
  unfold load_classes. intros H.
  apply bind_inv in H as [(c & g1 & Hread & H)|(e & Hread & _)]; [|done].
  unfold read in Hread. injection Hread as <- <-.
  destruct (heap g !! self) as [C|] eqn:HC; simpl in H;
    [|injection H as <- <-; apply metric_step_refl].
  destruct (_ || _); [injection H as <- <-; apply metric_step_refl|].
  destruct (comp_name C) as [name|]; [|injection H as <- <-; apply metric_step_refl].
  apply bind_inv in H as [(m & g1 & Himp & H)|(e & Himp & _)].
  - unfold lift in Himp. injection Himp as _ <-.
    eapply (for_each_inv (metric_step self g)); [|apply metric_step_refl|exact H].
    intros obj g2 r2 g3 _ Hstep Hbody.
    apply bind_inv in Hbody as [(h & g4 & Hh & Hbody)|(e & Hh & _)]; [|done].
    injection Hh as <- <-.
    destruct (_ && _).
    + eapply metric_step_trans; [done|]. by eapply add_class_metric_step.
    + by injection Hbody as <- <-.
  - unfold lift in Himp. destruct (import_module E name); [done|].
    injection Himp as <- <-. apply metric_step_refl.
Qed.

Lemma fill_instability_cached C : is_Some (instability (fill_instability C)).
Proof. unfold fill_instability. destruct (instability C) eqn:H; [rewrite H|]; eauto. Qed.

Lemma fill_abstraction_cached C : is_Some (abstraction (fill_abstraction C)).
Proof. unfold fill_abstraction. destruct (abstraction C) eqn:H; [rewrite H|]; eauto. Qed.

Lemma get_instability_spec self g :
  ∃ v g', get_instability self g = (Ok v, g')
          ∧ metric_step self g g'
          ∧ returns_cached instability 0%Q self v g'.
Proof.
  unfold get_instability.
  erewrite bind_ok by apply calculate_instability_spec.
  unfold bind, read, ret. simpl. eexists _, _. split; [done|]. split.
  - apply metric_step_update. intros. apply metric_rel_fill_instability.
  - unfold returns_cached. simpl. rewrite list_lookup_alter_eq.
    destruct (heap g !! self) as [C|]; simpl; [|done].
    by destruct (fill_instability_cached C) as [v ->].
Qed.

Lemma get_abstraction_spec E self g r g' :
  get_abstraction E self g = (r, g') ->
  metric_step self g g'
  ∧ ∀ v, r = Ok v -> returns_cached abstraction 0%Q self v g'.
Proof.
  unfold get_abstraction. intros H.
  apply bind_inv in H as [([] & g1 & Hload & H)|(e & Hload & ->)].
  - apply load_classes_metric_step in Hload.
    erewrite bind_ok in H by apply calculate_abstraction_spec.
    unfold bind, read, ret in H. simpl in H. injection H as <- <-. split.
    + eapply metric_step_trans; [done|].
      apply metric_step_update. intros. apply metric_rel_fill_abstraction.
    + intros v [= <-]. unfold returns_cached. simpl. rewrite list_lookup_alter_eq.
      destruct (heap g1 !! self) as [C|]; simpl; [|done].
      by destruct (fill_abstraction_cached C) as [v ->].
  - split; [by eapply load_classes_metric_step|done].
Qed.

Lemma returns_cached_keep field dflt self v g g' :
  (∀ C C', heap g !! self = Some C -> heap g' !! self = Some C' ->
           field C = Some v -> field C' = Some v) ->
  length (heap g') = length (heap g) ->
  returns_cached field dflt self v g -> returns_cached field dflt self v g'.
Proof.
  unfold returns_cached. intros Hk Hl.
  destruct (heap g !! self) as [C|] eqn:HC, (heap g' !! self) as [C'|] eqn:HC';
    try done; [by eauto|..].
  - apply lookup_lt_Some in HC. apply lookup_ge_None in HC'. lia.
  - apply lookup_lt_Some in HC'. apply lookup_ge_None in HC. lia.
Qed.

Lemma get_distance_spec E self g r g' :
  get_distance E self g = (r, g') ->
  metric_step self g g'
  ∧ ∀ v, r = Ok v -> returns_cached distance (Qabs (0 + 0 - 1)%Q) self v g'.
Proof.
  unfold get_distance. intros H.
  apply bind_inv in H as [(dc & g0 & Hread & H)|(e & Hread & _)]; [|done].
  unfold read in Hread. injection Hread as <- <-.
  destruct (heap g !! self) as [C|] eqn:HC; simpl in H.
  - destruct (distance C) as [v0|] eqn:Hd.
    + injection H as <- <-. split; [apply metric_step_refl|].
      intros v [= <-]. unfold returns_cached. by rewrite HC.
    + apply bind_inv in H as [(a & g1 & Ha & H)|(e & Ha & ->)].
      2:{ apply get_abstraction_spec in Ha as [? _]. done. }
      apply get_abstraction_spec in Ha as [Hs1 Hca]. specialize (Hca _ eq_refl).
      destruct (get_instability_spec self g1) as (i & g2 & Hi & Hs2 & Hci).
      erewrite bind_ok in H by exact Hi.
      unfold bind, update, ret in H. simpl in H. injection H as <- <-.
      pose proof (metric_step_trans _ _ _ _ Hs1 Hs2) as Hs.
      destruct Hs as (Hc & Hl & Ho & Hself).
      destruct (Hself _ HC) as (C2 & HC2 & Hrel).
      assert (abstraction C2 = Some a) as Ha2.
      { destruct Hs2 as (_ & Hl2 & _ & Hself2).
        unfold returns_cached in Hca.
        destruct (heap g1 !! self) as [C1|] eqn:HC1.
        - destruct (Hself2 _ eq_refl) as (C2' & HC2' & Hr2).
          rewrite HC2 in HC2'. injection HC2' as <-.
          destruct Hr2 as (_&_&_&_&_&_&Hk&_). by apply Hk.
        - apply lookup_ge_None in HC1. apply lookup_lt_Some in HC2.
          lia. }
      assert (instability C2 = Some i) as Hi2.
      { unfold returns_cached in Hci. by rewrite HC2 in Hci. }
      split.
      * repeat split; simpl; [done|by rewrite length_alter| |].
        -- intros x Hx. rewrite list_lookup_alter_ne by done. by apply Ho.
        -- intros C0 HC0. rewrite HC in HC0. injection HC0 as <-.
           exists (set_distance (Qabs (a + i - 1)) C2).
           rewrite list_lookup_alter_eq, HC2. split; [done|].
           destruct Hrel as (?&?&?&?&Hk&?&?&?).
           unfold metric_rel. simpl. repeat apply conj; try done; try congruence.
           intros Hok. destruct (Hk Hok) as (Hi' & Ha' & _).
           unfold cache_ok. simpl. repeat apply conj; [done..|].
           intros v [= <-]. eauto.
      * intros v [= <-]. unfold returns_cached. simpl.
        rewrite list_lookup_alter_eq, HC2. done.
  - (* no object at [self]: every request answers with its default *)
    unfold get_abstraction, load_classes, calculate_abstraction, get_instability,
      calculate_instability, bind, read, ret, update in H. simpl in H.
    rewrite HC in H. simpl in H. rewrite HC in H. simpl in H.
    rewrite HC in H. simpl in H. rewrite HC in H. simpl in H.
    injection H as <- <-. split.
    + rewrite alter_fixed, set_heap_id; [apply metric_step_refl|].
      intros c Hc. by rewrite HC in Hc.
    + intros v [= <-]. unfold returns_cached. simpl.
      rewrite alter_fixed by (intros c Hc; by rewrite HC in Hc). by rewrite HC.
Qed.
Lemma get_instability_cached self g C v :
  heap g !! self = Some C -> instability C = Some v ->
  get_instability self g = (Ok v, g).
Proof.
  intros HC Hv. unfold get_instability.
  erewrite bind_ok by apply calculate_instability_spec.
  rewrite alter_fixed, set_heap_id.
  - unfold bind, read, ret. simpl. by rewrite HC; simpl; rewrite Hv.
  - intros a Ha. rewrite HC in Ha. injection Ha as <-.
    unfold fill_instability. by rewrite Hv.
Qed.

(** C5. The instability of a unit is Ce / (Ce + Ca), with Ce the size of
    its outgoing set and Ca the size of its incoming set, and it is 0 when
    Ce + Ca = 0: the request answers, it does not fail on the division.
    The value is the one computed at the first request; later requests
    answer the same. *)
Theorem get_instability_value (self : loc) (g : Graph) (c : Component) :
  heap g !! self = Some c -> instability c = None ->
  ∃ v g', get_instability self g = (Ok v, g')
    ∧ (Ce c + Ca c ≠ 0 -> v = (inject_Z (Ce c) / inject_Z (Ce c + Ca c))%Q)
    ∧ (Ce c + Ca c = 0 -> v = 0%Q)
    ∧ get_instability self g' = (Ok v, g').
Proof.
  intros Hc Hi.
  assert (fill_instability c = set_instability (instability_formula c) c) as Hfill.
  { unfold fill_instability. by rewrite Hi. }
  exists (instability_formula c),
         (set_heap (alter fill_instability self (heap g)) g).
  repeat apply conj.
  - unfold get_instability.
    erewrite bind_ok by apply calculate_instability_spec.
    unfold bind, read, ret. simpl.
    by rewrite list_lookup_alter_eq, Hc; simpl; rewrite Hfill.
  - intros Hnz. unfold instability_formula.
    by destruct (Z.eqb_spec (Ce c + Ca c) 0).
  - intros Hz. unfold instability_formula. by rewrite Hz.
  - eapply get_instability_cached.
    + simpl. by rewrite list_lookup_alter_eq, Hc.
    + by rewrite Hfill.
Qed.

Lemma dict_get_set {V} (d : dict V) k v k' :
  Dict.get (Dict.set k v d) k' = if decide (k = k') then Some v else Dict.get d k'.
Proof. unfold Dict.get, Dict.set. simpl. apply lookup_insert. Qed.

Lemma plane_step_ok E c g x g1 y g2 v g3 :
  caches_ok g ->
  get_instability c g = (Ok x, g1) ->
  get_abstraction E c g1 = (Ok y, g2) ->
  get_distance E c g2 = (Ok v, g3) ->
  caches_ok g3 ∧ point_ok (ASPoint.mk x y v).
Proof.
  intros Hok Hx Hy Hv.
  destruct (get_instability_spec c g) as (x' & g1' & Hx' & Hs1 & Hcx).
  rewrite Hx in Hx'. injection Hx' as <- <-.
  apply get_abstraction_spec in Hy as [Hs2 Hcy]. specialize (Hcy _ eq_refl).
  apply get_distance_spec in Hv as [Hs3 Hcv]. specialize (Hcv _ eq_refl).
  assert (caches_ok g3) as Hok3 by eauto using metric_step_caches_ok.
  split; [done|].
  assert (returns_cached instability 0%Q c x g3) as Hx3.
  { eapply returns_cached_keep; [|apply Hs3|].
    - intros C C' HC HC' Hf. destruct Hs3 as (_&_&_&Hself).
      destruct (Hself _ HC) as (C2 & ? & Hr). simplify_eq.
      destruct Hr as (_&_&_&_&_&Hk&_). by apply Hk.
    - eapply returns_cached_keep; [|apply Hs2|done].
      intros C C' HC HC' Hf. destruct Hs2 as (_&_&_&Hself).
      destruct (Hself _ HC) as (C2 & ? & Hr). simplify_eq.
      destruct Hr as (_&_&_&_&_&Hk&_). by apply Hk. }
  assert (returns_cached abstraction 0%Q c y g3) as Hy3.
  { eapply returns_cached_keep; [|apply Hs3|done].
    intros C C' HC HC' Hf. destruct Hs3 as (_&_&_&Hself).
    destruct (Hself _ HC) as (C2 & ? & Hr). simplify_eq.
    destruct Hr as (_&_&_&_&_&_&Hk&_). by apply Hk. }
  unfold returns_cached in *.
  destruct (heap g3 !! c) as [C3|] eqn:HC3.
  - destruct (Hok3 _ _ HC3) as (Hi & Ha & Hd).
    destruct (Hd _ Hcv) as (a & i & Ha' & Hi' & ->).
    assert (a = y) as -> by congruence. assert (i = x) as -> by congruence.
    unfold point_ok. cbn [ASPoint.x ASPoint.y ASPoint.d].
    split; [done|]. split; [by apply Hi|]. split; [by apply Ha|].
    apply distance_in_unit; eauto.
  - subst. unfold point_ok. cbn [ASPoint.x ASPoint.y ASPoint.d].
    split; [done|]. split; [apply zero_in_unit|]. split; [apply zero_in_unit|].
    apply distance_in_unit; apply zero_in_unit.
Qed.

Lemma as_plane_loop_ok E items :
  ∀ acc g plane g',
    caches_ok g ->
    (∀ k pt, Dict.get acc k = Some pt -> point_ok pt) ->
    as_plane_loop E items acc g = (Ok plane, g') ->
    caches_ok g'
    ∧ (∀ k pt, Dict.get plane k = Some pt -> point_ok pt)
    ∧ (∀ k, is_Some (Dict.get acc k) ∨ k ∈ items.*1 -> is_Some (Dict.get plane k)).
Proof.
  induction items as [|[k c] items IH]; simpl; intros acc g plane g' Hok Hacc Hrun.
  - injection Hrun as <- <-. repeat apply conj; [done..|].
    intros k [?|Hk]; [done|]. by apply elem_of_nil in Hk.
  - apply bind_inv in Hrun as [(x & g1 & Hx & Hrun)|(e & _ & ?)]; [|done].
    apply bind_inv in Hrun as [(y & g2 & Hy & Hrun)|(e & _ & ?)]; [|done].
    apply bind_inv in Hrun as [(v & g3 & Hv & Hrun)|(e & _ & ?)]; [|done].
    destruct (plane_step_ok _ _ _ _ _ _ _ _ _ Hok Hx Hy Hv) as [Hok3 Hpt].
    apply IH in Hrun as (? & ? & Hkeys); [|done|].
    + repeat apply conj; [done..|].
      intros k' Hk'. apply Hkeys. rewrite dict_get_set.
      destruct (decide (k = k')) as [->|Hne]; [left; eauto|].
      destruct Hk' as [?|Hk']; [by left|right].
      apply elem_of_cons in Hk' as [?|?]; [by simplify_eq|done].
    + intros k' pt. rewrite dict_get_set. case_decide; [|by apply Hacc].
      by intros [= <-].
Qed.

Lemma metric_step_importable E c' g g' c :
  metric_step c' g g' -> importable_at E g c -> importable_at E g' c.
Proof.
  intros (_ & Hlen & Ho & Hself) Himp C' HC'.
  destruct (decide (c = c')) as [->|Hne].
  - destruct (heap g !! c') as [C|] eqn:HC.
    + destruct (Hself _ eq_refl) as (C2 & HC2 & Hr). rewrite HC' in HC2.
      injection HC2 as <-. destruct Hr as (-> & _). by apply Himp.
    + apply lookup_ge_None in HC. apply lookup_lt_Some in HC'. lia.
  - rewrite Ho in HC' by done. by apply Himp.
Qed.

Lemma load_classes_ok E c g :
  importable_at E g c -> ∃ g', load_classes E c g = (Ok tt, g').
Proof.
  intros Himp. destruct (load_classes E c g) as [r g'] eqn:Hrun.
  exists g'. f_equal. unfold load_classes in Hrun.
  apply bind_inv in Hrun as [(oc & g0 & Hread & Hrun)|(e & Hread & _)]; [|done].
  injection Hread as <- <-.
  destruct (heap g !! c) as [C|] eqn:HC; simpl in Hrun; [|by injection Hrun as <- _].
  destruct (_ || _); [by injection Hrun as <- _|].
  destruct (Himp _ HC) as (name & o & Hname & Ho). rewrite Hname in Hrun.
  unfold bind at 1, lift in Hrun. rewrite Ho in Hrun.
  eapply for_each_never_raises; [|exact Hrun].
  intros obj g1 r1 g2 Hb. unfold bind, read_heap in Hb. simpl in Hb.
  destruct (_ && _); [|by injection Hb as <- _].
  unfold add_class, update in Hb. by injection Hb as <- _.
Qed.

Lemma get_abstraction_ok E c g :
  importable_at E g c -> ∃ v g', get_abstraction E c g = (Ok v, g').
Proof.
  intros Himp. destruct (load_classes_ok E c g Himp) as [g1 Hload].
  unfold get_abstraction. erewrite bind_ok by exact Hload.
  erewrite bind_ok by apply calculate_abstraction_spec.
  unfold bind, read, ret. simpl. by eexists _, _.
Qed.

Lemma get_distance_ok E c g :
  importable_at E g c -> ∃ v g', get_distance E c g = (Ok v, g').
Proof.
  intros Himp. unfold get_distance, bind at 1, read. simpl.
  destruct (from_option distance None (heap g !! c)) as [v|]; [by eexists _, _|].
  destruct (get_abstraction_ok E c g Himp) as (a & g1 & Ha).
  erewrite bind_ok by exact Ha.
  destruct (get_instability_spec c g1) as (i & g2 & Hi & _).
  erewrite bind_ok by exact Hi.
  unfold bind, update, ret. simpl. by eexists _, _.
Qed.

Lemma as_plane_loop_total E items :
  ∀ acc g,
    (∀ k c, (k, c) ∈ items -> importable_at E g c) ->
    ∃ plane g', as_plane_loop E items acc g = (Ok plane, g').
Proof.
  induction items as [|[k c] items IH]; simpl; intros acc g Himp; [by eexists _, _|].
  destruct (get_instability_spec c g) as (x & g1 & Hx & Hs1 & _).
  erewrite bind_ok by exact Hx.
  assert (importable_at E g1 c) as Hc1.
  { eapply metric_step_importable; [done|]. apply (Himp k). by left. }
  destruct (get_abstraction_ok E c g1 Hc1) as (y & g2 & Hy).
  erewrite bind_ok by exact Hy.
  pose proof (proj1 (get_abstraction_spec _ _ _ _ _ Hy)) as Hs2.
  assert (importable_at E g2 c) as Hc2 by (by eapply metric_step_importable).
  destruct (get_distance_ok E c g2 Hc2) as (v & g3 & Hv).
  erewrite bind_ok by exact Hv.
  pose proof (proj1 (get_distance_spec _ _ _ _ _ Hv)) as Hs3.
  apply IH. intros k' c' Hin.
  eapply metric_step_importable; [exact Hs3|].
  eapply metric_step_importable; [exact Hs2|].
  eapply metric_step_importable; [exact Hs1|].
  apply (Himp k'). by right.
Qed.

Lemma collect_distances_total E items :
  ∀ acc g,
    (∀ k c, (k, c) ∈ items -> importable_at E g c) ->
    ∃ ds g', collect_distances E items acc g = (Ok ds, g').
Proof.
  induction items as [|[k c] items IH]; simpl; intros acc g Himp; [by eexists _, _|].
  destruct (get_distance_ok E c g) as (v & g1 & Hv); [apply (Himp k); by left|].
  erewrite bind_ok by exact Hv.
  pose proof (proj1 (get_distance_spec _ _ _ _ _ Hv)) as Hs.
  apply IH. intros k' c' Hin.
  eapply metric_step_importable; [exact Hs|]. apply (Himp k'). by right.
Qed.

(** C6. Every point of the plane has d = |y + x - 1| exactly, with x the
    unit's instability and y its abstraction, and the three values lie in
    [0, 1]; there is a point for every discovered unit.  The plane is
    returned whenever the module of every discovered unit imports. *)
Theorem plane_points_in_range (E : Env) (g : Graph) :
  caches_ok g ->
  (importable_units E g -> ∃ plane g', get_as_plane E g = (Ok plane, g'))
  ∧ ∀ plane g', get_as_plane E g = (Ok plane, g') ->
      (∀ k c, (k, c) ∈ Dict.items (components g) -> is_Some (Dict.get plane k))
      ∧ ∀ k pt, Dict.get plane k = Some pt ->
          ASPoint.d pt = Qabs (ASPoint.y pt + ASPoint.x pt - 1)%Q
          ∧ (0 <= ASPoint.x pt)%Q ∧ (ASPoint.x pt <= 1)%Q
          ∧ (0 <= ASPoint.y pt)%Q ∧ (ASPoint.y pt <= 1)%Q
          ∧ (0 <= ASPoint.d pt)%Q ∧ (ASPoint.d pt <= 1)%Q.
Proof.
  intros Hok. split.
  { intros Himp. unfold get_as_plane, bind at 1, read_components.
    by apply as_plane_loop_total. }
  intros plane g' Hrun. unfold get_as_plane in Hrun.
  apply bind_inv in Hrun as [(comps & g1 & Hread & Hrun)|(e & Hread & _)]; [|done].
  injection Hread as <- <-.
  apply as_plane_loop_ok in Hrun as (_ & Hpts & Hkeys); [|done|done].
  split.
  - intros k c Hk. apply Hkeys. right.
    apply list_elem_of_fmap. by exists (k, c).
  - intros k pt Hpt. destruct (Hpts _ _ Hpt) as (? & [? ?] & [? ?] & [? ?]). done.
Qed.

(** ** Mean distance *)

Lemma get_distance_again E c v g :
  returns_cached distance (Qabs (0 + 0 - 1)%Q) c v g ->
  get_distance E c g = (Ok v, g).
Proof.
  unfold returns_cached. intros Hv.
  destruct (heap g !! c) as [C|] eqn:HC.
  - unfold get_distance, bind, read, ret. simpl. by rewrite HC; simpl; rewrite Hv.
  - subst v.
    unfold get_distance, get_abstraction, load_classes, calculate_abstraction,
      get_instability, calculate_instability, bind, read, ret, update. simpl.
    repeat (rewrite HC; simpl).
    rewrite alter_fixed, set_heap_id; [done|]. intros a Ha. by rewrite HC in Ha.
Qed.

Lemma returns_cached_distance_step c v c' g g' :
  metric_step c' g g' ->
  returns_cached distance (Qabs (0 + 0 - 1)%Q) c v g ->
  returns_cached distance (Qabs (0 + 0 - 1)%Q) c v g'.
Proof.
  intros Hs. eapply returns_cached_keep; [|apply Hs].
  intros C C' HC HC' Hf. destruct Hs as (_&_&Ho&Hself).
  destruct (decide (c = c')) as [->|Hne].
  - destruct (Hself _ HC) as (C2 & ? & Hr). simplify_eq.
    destruct Hr as (_&_&_&_&_&_&_&Hk). by apply Hk.
  - rewrite Ho in HC' by done. by simplify_eq.
Qed.

Lemma collect_distances_spec E items :
  ∀ acc g ds g',
    collect_distances E items acc g = (Ok ds, g') ->
    ∃ new, ds = (acc ++ new)%list
      ∧ Forall2 (fun kc v => returns_cached distance (Qabs (0 + 0 - 1)%Q) kc.2 v g')
                items new
      ∧ ∀ c v, returns_cached distance (Qabs (0 + 0 - 1)%Q) c v g ->
               returns_cached distance (Qabs (0 + 0 - 1)%Q) c v g'.
Proof.
  induction items as [|[k c] items IH]; simpl; intros acc g ds g' Hrun.
  - injection Hrun as <- <-. exists []. rewrite app_nil_r. repeat split; [constructor|done].
  - apply bind_inv in Hrun as [(v & g1 & Hv & Hrun)|(e & _ & ?)]; [|done].
    apply get_distance_spec in Hv as [Hs Hcv]. specialize (Hcv _ eq_refl).
    apply IH in Hrun as (new & -> & Hall & Hkeep).
    exists (v :: new). rewrite <- app_assoc. repeat split; [|].
    + constructor; [|done]. simpl. by apply Hkeep.
    + intros c' v' Hc'. apply Hkeep. by eapply returns_cached_distance_step.
Qed.

(** ** Floats *)

(** ** Rounding to the nearest integer *)

Section Nearest.
Local Open Scope Q_scope.

Lemma round_half_even_cases q :
  (round_half_even q = Qfloor q ∧ q - inject_Z (Qfloor q) <= 1 # 2)
  ∨ (round_half_even q = (Qfloor q + 1)%Z ∧ 1 # 2 <= q - inject_Z (Qfloor q)).
Proof.
  unfold round_half_even.
  destruct (Qcompare_spec (q - inject_Z (Qfloor q)) (1 # 2)) as [Heq|Hlt|Hgt].
  - destruct (Z.even (Qfloor q)); [left|right]; split; try done; lra.
  - left. split; [done|lra].
  - right. split; [done|lra].
Qed.

Lemma round_half_even_comp p q : p == q -> round_half_even p = round_half_even q.
Proof.
  intros H. unfold round_half_even. rewrite (Qfloor_comp _ _ H).
  assert (p - inject_Z (Qfloor q) == q - inject_Z (Qfloor q)) as Hr by lra.
  by rewrite (Qcompare_comp _ _ Hr _ _ (Qeq_refl (1 # 2))).
Qed.

Lemma round_half_even_int z : round_half_even (inject_Z z) = z.
Proof.
  unfold round_half_even. rewrite Qfloor_Z.
  assert ((inject_Z z - inject_Z z ?= 1 # 2) = Lt) as ->; [|done].
  apply (proj1 (Qlt_alt _ _)). lra.
Qed.

(** The integer chosen is a nearest one. *)
Lemma round_half_even_near q : Qabs (inject_Z (round_half_even q) - q) <= 1 # 2.
Proof.
  pose proof (Qfloor_le q) as Hfl. pose proof (Qlt_floor q) as Hlt.
  rewrite inject_Z_plus in Hlt. change (inject_Z 1) with 1 in Hlt.
  apply Qabs_Qle_condition.
  destruct (round_half_even_cases q) as [[-> H]|[-> H]];
    rewrite ?inject_Z_plus; change (inject_Z 1) with 1; split; lra.
Qed.

(** Of two nearest integers the even one is chosen. *)
Lemma round_half_even_tie q :
  Qabs (inject_Z (round_half_even q) - q) == 1 # 2 ->
  Z.even (round_half_even q) = true.
Proof.
  pose proof (Qfloor_le q) as Hfl. pose proof (Qlt_floor q) as Hlt.
  rewrite inject_Z_plus in Hlt. change (inject_Z 1) with 1 in Hlt.
  unfold round_half_even.
  destruct (Qcompare_spec (q - inject_Z (Qfloor q)) (1 # 2)) as [Heq|Hlt'|Hgt].
  - intros _. destruct (Z.even (Qfloor q)) eqn:He; [done|].
    rewrite Z.even_add, He. done.
  - intros H. rewrite Qabs_neg in H by lra. lra.
  - intros H. rewrite inject_Z_plus in H. change (inject_Z 1) with 1 in H.
    rewrite Qabs_pos in H by lra. lra.
Qed.

Lemma round_half_even_mono p q : p <= q -> (round_half_even p <= round_half_even q)%Z.
Proof.
  intros Hpq. pose proof (Qfloor_resp_le _ _ Hpq) as Hf.
  destruct (Z.eq_dec (Qfloor p) (Qfloor q)) as [Heq|Hne].
  - unfold round_half_even. rewrite Heq.
    destruct (Qcompare_spec (p - inject_Z (Qfloor q)) (1 # 2)) as [H1|H1|H1];
      destruct (Qcompare_spec (q - inject_Z (Qfloor q)) (1 # 2)) as [H2|H2|H2];
      try destruct (Z.even (Qfloor q)); try lia; lra.
  - destruct (round_half_even_cases p) as [[-> _]|[-> _]];
      destruct (round_half_even_cases q) as [[-> _]|[-> _]]; lia.
Qed.

End Nearest.

(** ** Powers of two and binades *)

Section Binades.
Local Open Scope Q_scope.

Lemma pow2_pos e : 0 < 2 ^ e.
Proof. by apply Qpower_0_lt. Qed.

Lemma pow2_add a b : 2 ^ (a + b) == 2 ^ a * 2 ^ b.
Proof. by apply Qpower_plus. Qed.

Lemma pow2_succ a : 2 ^ (a + 1) == 2 * 2 ^ a.
Proof. rewrite pow2_add. change (2 ^ 1) with 2. ring. Qed.

Lemma pow2_le a b : (a <= b)%Z -> 2 ^ a <= 2 ^ b.
Proof. intros H. by apply Qpower_le_compat_l. Qed.

Lemma pow2_lt a b : (a < b)%Z -> 2 ^ a < 2 ^ b.
Proof. intros H. by apply Qpower_lt_compat_l. Qed.

Lemma pow2_Z k : (0 <= k)%Z -> inject_Z (2 ^ k) == 2 ^ k.
Proof. intros H. by rewrite Zpower_Qpower. Qed.

Lemma pow2_div a b : 2 ^ a / 2 ^ b == 2 ^ (a - b).
Proof.
  pose proof (pow2_pos b) as Hb.
  replace a with ((a - b) + b)%Z at 1 by lia. rewrite pow2_add. field. lra.
Qed.

(** [binade q] is the exponent of the power of two at or below [q]. *)
Lemma binade_spec q : 0 < q -> 2 ^ binade q <= q ∧ q < 2 ^ (binade q + 1).
Proof.
  intros Hq. destruct q as [a b]. unfold binade. cbn [Qnum Qden].
  assert (0 < a)%Z as Ha by (unfold Qlt in Hq; simpl in Hq; lia).
  destruct (Z.log2_spec a Ha) as [Ha1 Ha2].
  destruct (Z.log2_spec (Z.pos b) (Pos2Z.is_pos b)) as [Hb1 Hb2].
  pose proof (Z.log2_nonneg a) as Hla. pose proof (Z.log2_nonneg (Z.pos b)) as Hlb.
  set (la := Z.log2 a) in *. set (lb := Z.log2 (Z.pos b)) in *.
  rewrite Zle_Qle, pow2_Z in Ha1, Hb1 by done.
  rewrite Zlt_Qlt, <- Z.add_1_r, pow2_Z in Ha2, Hb2 by lia.
  assert (a # b == inject_Z a / inject_Z (Z.pos b)) as Hab by apply Qmake_Qdiv.
  assert (0 < inject_Z (Z.pos b)) as Hbpos by (rewrite <- (Zlt_Qlt 0); lia).
  pose proof (pow2_pos lb) as Hplb. pose proof (pow2_pos (la - lb)) as Hpe.
  assert (2 ^ la == 2 ^ (la - lb) * 2 ^ lb) as Hsplit
    by (rewrite <- pow2_add; by replace (la - lb + lb)%Z with la by lia).
  assert (a # b < 2 ^ (la - lb + 1)) as Hup.
  { rewrite Hab. apply Qlt_shift_div_r; [done|].
    rewrite pow2_succ. rewrite pow2_succ in Ha2. nra. }
  assert (2 ^ (la - lb - 1) < a # b) as Hlow.
  { rewrite Hab. apply Qlt_shift_div_l; [done|].
    assert (2 ^ (la - lb) == 2 * 2 ^ (la - lb - 1)) as Hhalf
      by (rewrite <- pow2_succ; by replace (la - lb - 1 + 1)%Z with (la - lb)%Z by lia).
    pose proof (pow2_pos (la - lb - 1)). rewrite pow2_succ in Hb2. nra. }
  destruct (Qle_bool (2 ^ (la - lb)) (a # b)) eqn:Hc.
  - apply Qle_bool_iff in Hc. done.
  - assert (¬ 2 ^ (la - lb) <= a # b) as Hn
      by (intros H; apply Qle_bool_iff in H; congruence).
    replace (la - lb - 1 + 1)%Z with (la - lb)%Z by lia. split; lra.
Qed.

Lemma binade_unique q e : 2 ^ e <= q -> q < 2 ^ (e + 1) -> binade q = e.
Proof.
  intros H1 H2. pose proof (pow2_pos e) as He.
  destruct (binade_spec q) as [H3 H4]; [lra|].
  destruct (Z.lt_trichotomy (binade q) e) as [Hlt|[?|Hgt]]; [|done|].
  - assert (2 ^ (binade q + 1) <= 2 ^ e) by (apply pow2_le; lia). lra.
  - assert (2 ^ (e + 1) <= 2 ^ binade q) by (apply pow2_le; lia). lra.
Qed.

Lemma binade_comp p q : 0 < p -> p == q -> binade p = binade q.
Proof.
  intros Hp Hpq. destruct (binade_spec p Hp) as [H1 H2].
  symmetry. apply binade_unique; lra.
Qed.

Lemma binade_mono p q : 0 < p -> p <= q -> (binade p <= binade q)%Z.
Proof.
  intros Hp Hpq. destruct (binade_spec p Hp) as [H1 H2].
  destruct (binade_spec q) as [H3 H4]; [lra|].
  destruct (Z_le_gt_dec (binade p) (binade q)) as [?|Hgt]; [done|].
  assert (2 ^ (binade q + 1) <= 2 ^ binade p) by (apply pow2_le; lia). lra.
Qed.

End Binades.

(** ** The float nearest to a number *)

Section Floats.
Local Open Scope Q_scope.

Lemma ulp_pos q : 0 < ulp q.
Proof. apply pow2_pos. Qed.

Lemma to_float_eq q : to_float q == inject_Z (round_half_even (q / ulp q)) * ulp q.
Proof. apply Qred_correct. Qed.

Lemma ulp_of_pos q :
  0 < q -> ulp q = 2 ^ Z.max (binade q - 52) (-1074).
Proof.
  intros Hq. unfold ulp. by rewrite (binade_comp (Qabs q) q), ?Qabs_pos by
    (rewrite ?Qabs_pos; lra).
Qed.

Lemma to_float_zero q : q == 0 -> to_float q == 0.
Proof.
  intros Hq. rewrite to_float_eq.
  rewrite (round_half_even_comp _ (inject_Z 0)), round_half_even_int.
  - change (inject_Z 0) with 0. ring.
  - generalize (ulp q). intros u. rewrite Hq. change (inject_Z 0) with 0.
    unfold Qdiv. ring.
Qed.

(** The float is within half a unit in the last place. *)
Lemma to_float_error q : Qabs (to_float q - q) <= (1 # 2) * ulp q.
Proof.
  pose proof (ulp_pos q) as Hu. rewrite to_float_eq.
  pose proof (round_half_even_near (q / ulp q)) as Hn.
  apply Qabs_Qle_condition in Hn as [Hn1 Hn2]. apply Qabs_Qle_condition.
  set (r := inject_Z (round_half_even (q / ulp q))) in *.
  assert (q == q / ulp q * ulp q) as Hq by (field; lra).
  set (x := q / ulp q) in *. clearbody r x.
  generalize dependent (ulp q). intros u Hu Hq. split; nra.
Qed.

Lemma ulp_le q : 0 < q -> ulp q <= q * 2 ^ (-52) + 2 ^ (-1074).
Proof.
  intros Hq. rewrite (ulp_of_pos q Hq). destruct (binade_spec q Hq) as [Hb _].
  pose proof (pow2_pos (-52)) as H52. pose proof (pow2_pos (-1074)) as Hmin.
  destruct (Z.max_spec (binade q - 52) (-1074)) as [[_ ->]|[_ ->]].
  - assert (0 <= q * 2 ^ (-52)) by (apply Qmult_le_0_compat; lra). lra.
  - replace (binade q - 52)%Z with (binade q + -52)%Z by lia. rewrite pow2_add.
    assert (2 ^ binade q * 2 ^ (-52) <= q * 2 ^ (-52))
      by (apply Qmult_le_compat_r; lra).
    lra.
Qed.

(** The relative error of rounding, with the absolute one of the
    subnormal range. *)
Lemma to_float_rel q :
  0 <= q -> Qabs (to_float q - q) <= q * 2 ^ (-53) + 2 ^ (-1075).
Proof.
  intros Hq. destruct (Qlt_le_dec 0 q) as [Hpos|Hzero].
  - eapply Qle_trans; [apply to_float_error|].
    pose proof (ulp_le q Hpos) as Hu.
    assert (2 ^ (-52) == 2 * 2 ^ (-53)) as H1 by (by rewrite <- pow2_succ).
    assert (2 ^ (-1074) == 2 * 2 ^ (-1075)) as H2 by (by rewrite <- pow2_succ).
    lra.
  - assert (q == 0) as H0 by lra. rewrite (to_float_zero q H0), H0.
    pose proof (pow2_pos (-1075)). rewrite Qabs_pos; lra.
Qed.

Lemma to_float_nonneg q : 0 <= q -> 0 <= to_float q.
Proof.
  intros Hq. rewrite to_float_eq. pose proof (ulp_pos q) as Hu.
  apply Qmult_le_0_compat; [|lra]. change 0 with (inject_Z 0). rewrite <- Zle_Qle.
  rewrite <- (round_half_even_int 0) at 1. apply round_half_even_mono.
  change (inject_Z 0) with 0. apply Qle_shift_div_l; lra.
Qed.

(** Rounding does not cross a power of two. *)
Lemma to_float_le_pow2 p k :
  0 < p -> (-1074 <= k)%Z -> p <= 2 ^ k -> to_float p <= 2 ^ k.
Proof.
  intros Hp Hk Hle. destruct (binade_spec p Hp) as [Hb _].
  assert (binade p <= k)%Z as HL.
  { destruct (Z_le_gt_dec (binade p) k) as [?|Hgt]; [done|].
    assert (2 ^ (k + 1) <= 2 ^ binade p) by (apply pow2_le; lia).
    assert (2 ^ k < 2 ^ (k + 1)) by (apply pow2_lt; lia). lra. }
  rewrite to_float_eq, (ulp_of_pos p Hp).
  set (j := Z.max (binade p - 52) (-1074)).
  assert (j <= k)%Z as Hj by lia. pose proof (pow2_pos j) as Hpj.
  assert (2 ^ k == inject_Z (2 ^ (k - j)) * 2 ^ j) as Hk2.
  { rewrite pow2_Z by lia. rewrite <- pow2_add. by replace (k - j + j)%Z with k by lia. }
  rewrite Hk2. apply Qmult_le_compat_r; [|lra]. rewrite <- Zle_Qle.
  rewrite <- (round_half_even_int (2 ^ (k - j))). apply round_half_even_mono.
  apply Qle_shift_div_r; [done|]. by rewrite <- Hk2.
Qed.

Lemma to_float_ge_binade q :
  0 < q -> (-1074 <= binade q)%Z -> 2 ^ binade q <= to_float q.
Proof.
  intros Hq HL. destruct (binade_spec q Hq) as [Hb _].
  rewrite to_float_eq, (ulp_of_pos q Hq).
  set (j := Z.max (binade q - 52) (-1074)).
  assert (j <= binade q)%Z as Hj by lia. pose proof (pow2_pos j) as Hpj.
  assert (2 ^ binade q == inject_Z (2 ^ (binade q - j)) * 2 ^ j) as Hk2.
  { rewrite pow2_Z by lia. rewrite <- pow2_add.
    by replace (binade q - j + j)%Z with (binade q) by lia. }
  rewrite Hk2 at 1. apply Qmult_le_compat_r; [|lra]. rewrite <- Zle_Qle.
  rewrite <- (round_half_even_int (2 ^ (binade q - j))) at 1.
  apply round_half_even_mono.
  apply Qle_shift_div_l; [done|]. by rewrite <- Hk2.
Qed.

(** Rounding keeps the order. *)
Lemma to_float_mono p q : 0 <= p -> p <= q -> to_float p <= to_float q.
Proof.
  intros Hp Hpq. destruct (Qlt_le_dec 0 p) as [Hpos|Hzero].
  2:{ rewrite (to_float_zero p) by lra. apply to_float_nonneg. lra. }
  assert (0 < q) as Hq by lra.
  pose proof (binade_mono p q Hpos Hpq) as HL.
  destruct (Z.eq_dec (Z.max (binade p - 52) (-1074)) (Z.max (binade q - 52) (-1074)))
    as [Heq|Hne].
  - rewrite !to_float_eq, (ulp_of_pos p Hpos), (ulp_of_pos q Hq), Heq.
    set (j := Z.max (binade q - 52) (-1074)). pose proof (pow2_pos j) as Hpj.
    apply Qmult_le_compat_r; [|lra]. rewrite <- Zle_Qle.
    apply round_half_even_mono.
    apply Qle_shift_div_l; [done|].
    assert (p / 2 ^ j * 2 ^ j == p) as -> by (field; lra). done.
  - destruct (binade_spec p Hpos) as [_ Hup].
    assert (binade p < binade q)%Z as Hlt by lia.
    assert (2 ^ (binade p + 1) <= 2 ^ binade q) by (apply pow2_le; lia).
    apply Qle_trans with (2 ^ binade q).
    + apply to_float_le_pow2; [done|lia|lra].
    + apply to_float_ge_binade; [done|lia].
Qed.

Lemma to_float_comp p q : 0 <= p -> p == q -> to_float p == to_float q.
Proof.
  intros Hp Hpq. apply Qle_antisym; apply to_float_mono; lra.
Qed.

(** The integers up to [2^53] are floats. *)
Lemma to_float_int z : (0 <= z <= 2 ^ 53)%Z -> to_float (inject_Z z) == inject_Z z.
Proof.
  intros [Hz0 Hz1]. destruct (Z.eq_dec z 0%Z) as [->|Hnz]; [by apply to_float_zero|].
  assert (0 < inject_Z z) as Hpos by (rewrite <- (Zlt_Qlt 0); lia).
  destruct (binade_spec _ Hpos) as [Hb _].
  assert (inject_Z z <= 2 ^ 53) as Hz by (rewrite <- pow2_Z, <- Zle_Qle; done).
  assert (binade (inject_Z z) <= 53)%Z as HL.
  { destruct (Z_le_gt_dec (binade (inject_Z z)) 53%Z) as [?|Hgt]; [done|].
    assert (2 ^ 54 <= 2 ^ binade (inject_Z z)) by (apply pow2_le; lia).
    assert (2 ^ 53 < 2 ^ 54) by (by apply pow2_lt). lra. }
  destruct (Z.eq_dec (binade (inject_Z z)) 53%Z) as [H53|Hn53].
  - assert (z = 2 ^ 53)%Z as ->; [|by vm_compute].
    rewrite H53, <- pow2_Z, <- Zle_Qle in Hb by done. lia.
  - rewrite to_float_eq, (ulp_of_pos _ Hpos).
    set (j := Z.max (binade (inject_Z z) - 52) (-1074)).
    assert (j <= 0)%Z as Hj by lia. pose proof (pow2_pos j) as Hpj.
    assert (inject_Z z / 2 ^ j == inject_Z (z * 2 ^ (- j))) as Hint.
    { rewrite inject_Z_mult, pow2_Z by lia.
      rewrite <- (pow2_div 0 j). change (2 ^ 0) with 1. field. lra. }
    rewrite (round_half_even_comp _ _ Hint), round_half_even_int, <- Hint.
    field. lra.
Qed.

Lemma to_float_one : to_float 1 == 1.
Proof. by vm_compute. Qed.

(** Above [2^53] the odd integers are not floats: [2^53 + 1] rounds back. *)
Lemma to_float_saturates : to_float (inject_Z (2 ^ 53 + 1)) == inject_Z (2 ^ 53).
Proof. by vm_compute. Qed.

End Floats.

(** ** Sums and means of floats *)

Section FloatMean.
Local Open Scope Q_scope.

Lemma to_float_in_unit d : in_unit d -> in_unit (to_float d).
Proof.
  intros [H0 H1]. split; [by apply to_float_nonneg|].
  rewrite <- to_float_one. by apply to_float_mono.
Qed.

Lemma py_sum_fold ds : py_sum ds = fold_left add_float ds 0.
Proof. done. Qed.

(** A sum of [k] floats of the unit interval is at most [k], and never
    more than [2^53], where adding 1 no longer changes a float. *)
Lemma add_float_bounds acc d k :
  (0 <= k)%Z -> in_unit d ->
  0 <= acc -> acc <= inject_Z (Z.min k (2 ^ 53)) ->
  0 <= add_float acc d ∧ add_float acc d <= inject_Z (Z.min (k + 1) (2 ^ 53)).
Proof.
  intros Hk Hd H0 H1. destruct (to_float_in_unit d Hd) as [Hd0 Hd1].
  unfold add_float. split; [apply to_float_nonneg; lra|].
  set (B := Z.min k (2 ^ 53)) in *.
  assert (acc + to_float d <= inject_Z (B + 1)) as Hs.
  { rewrite inject_Z_plus. change (inject_Z 1) with 1. lra. }
  apply Qle_trans with (to_float (inject_Z (B + 1))); [apply to_float_mono; lra|].
  destruct (Z_lt_le_dec k (2 ^ 53)) as [Hlt|Hge].
  - rewrite to_float_int by lia. rewrite <- Zle_Qle. lia.
  - assert (B = 2 ^ 53)%Z as -> by lia. rewrite to_float_saturates.
    rewrite <- Zle_Qle. lia.
Qed.

Lemma fold_add_float_bounds ds :
  Forall in_unit ds ->
  ∀ acc k, (0 <= k)%Z -> 0 <= acc -> acc <= inject_Z (Z.min k (2 ^ 53)) ->
    0 <= fold_left add_float ds acc
    ∧ fold_left add_float ds acc
      <= inject_Z (Z.min (k + Z.of_nat (length ds)) (2 ^ 53)).
Proof.
  induction 1 as [|d ds Hd _ IH]; intros acc k Hk H0 H1.
  - cbn [fold_left length]. by rewrite Z.add_0_r.
  - cbn [fold_left length]. destruct (add_float_bounds acc d k Hk Hd H0 H1) as [H2 H3].
    replace (k + Z.of_nat (S (length ds)))%Z
      with (k + 1 + Z.of_nat (length ds))%Z by lia.
    apply IH; [lia|done..].
Qed.

Lemma py_sum_bounds ds :
  Forall in_unit ds ->
  0 <= py_sum ds ∧ py_sum ds <= inject_Z (Z.min (Z.of_nat (length ds)) (2 ^ 53)).
Proof.
  intros H. rewrite py_sum_fold.
  apply (fold_add_float_bounds ds H 0 0%Z); [done|apply Qle_refl|apply Qle_refl].
Qed.

Lemma to_float_count_pos n : (1 <= n)%Z -> 1 <= to_float (inject_Z n).
Proof.
  intros Hn. rewrite <- to_float_one. apply to_float_mono; [done|].
  change 1 with (inject_Z 1). by rewrite <- Zle_Qle.
Qed.

Lemma float_div_in_unit s n :
  (1 <= n)%Z -> 0 <= s -> s <= inject_Z (Z.min n (2 ^ 53)) -> in_unit (float_div s n).
Proof.
  intros Hn H0 H1. unfold float_div.
  pose proof (to_float_count_pos n Hn) as Hpos.
  assert (s <= to_float (inject_Z n)) as Hs.
  { eapply Qle_trans; [exact H1|]. rewrite <- (to_float_int (Z.min n (2 ^ 53))) by lia.
    apply to_float_mono; [|rewrite <- Zle_Qle; lia].
    change 0 with (inject_Z 0). rewrite <- Zle_Qle. lia. }
  apply to_float_in_unit. split.
  - apply Qle_shift_div_l; lra.
  - apply Qle_shift_div_r; lra.
Qed.

(** The mean of floats of the unit interval, as the code computes it,
    is in the unit interval. *)
Lemma float_mean_in_unit ds : Forall in_unit ds -> in_unit (float_mean ds).
Proof.
  intros H. destruct (py_sum_bounds ds H) as [H0 H1]. unfold float_mean.
  destruct ds as [|d ds]; [apply zero_in_unit|].
  apply float_div_in_unit; [simpl length; lia|done..].
Qed.

(** *** How far the float mean is from the exact one *)

Lemma Qabs_bound x y : Qabs x <= y <-> - y <= x ∧ x <= y.
Proof. apply Qabs_Qle_condition. Qed.

Lemma float_slack : 3 * 2 ^ (-1075) <= 2 ^ (-53).
Proof. by vm_compute. Qed.

Lemma add_float_error acc d k A e :
  (0 <= k)%Z -> (k + 1 <= 2 ^ 53)%Z -> in_unit d ->
  0 <= acc -> acc <= inject_Z k -> Qabs (acc - A) <= e ->
  (0 <= add_float acc d ∧ add_float acc d <= inject_Z (k + 1))
  ∧ Qabs (add_float acc d - (A + d))
    <= e + ((inject_Z k + 2) * 2 ^ (-53) + 2 * 2 ^ (-1075)).
Proof.
  intros Hk Hk1 Hd H0 H1 He.
  destruct (add_float_bounds acc d k Hk Hd H0) as [Hb0 Hb1].
  { rewrite Z.min_l by lia. done. }
  rewrite Z.min_l in Hb1 by lia. split; [done|].
  destruct (to_float_in_unit d Hd) as [Hd0 Hd1]. destruct Hd as [Hr0 Hr1].
  pose proof (to_float_rel d Hr0) as E1.
  pose proof (to_float_rel (acc + to_float d)) as E2. fold (add_float acc d) in E2.
  specialize (E2 ltac:(lra)).
  pose proof (pow2_pos (-53)) as Hu. pose proof (pow2_pos (-1075)) as Heta.
  rewrite inject_Z_plus in Hb1. change (inject_Z 1) with 1 in Hb1.
  apply Qabs_bound in E1 as [E1a E1b]. apply Qabs_bound in E2 as [E2a E2b].
  apply Qabs_bound in He as [Hea Heb]. apply Qabs_bound.
  generalize dependent (add_float acc d). intros s'. intros.
  generalize dependent (to_float d). intros d'. intros.
  generalize dependent (inject_Z k). intros K. intros.
  generalize dependent (2 ^ (-53)). intros u. intros.
  generalize dependent (2 ^ (-1075)). intros eta. intros.
  split; nra.
Qed.

Lemma fold_add_float_error ds :
  Forall in_unit ds ->
  ∀ N acc k A e,
    (0 <= k)%Z -> (k + Z.of_nat (length ds) <= N)%Z -> (N <= 2 ^ 53)%Z ->
    0 <= acc -> acc <= inject_Z k -> Qabs (acc - A) <= e ->
    Qabs (fold_left add_float ds acc - (A + exact_sum ds))
    <= e + inject_Z (Z.of_nat (length ds))
           * ((inject_Z N + 1) * 2 ^ (-53) + 2 * 2 ^ (-1075)).
Proof.
  induction 1 as [|d ds Hd _ IH]; intros N acc k A e Hk HN HN53 H0 H1 He.
  - cbn [fold_left exact_sum foldr length]. change (inject_Z (Z.of_nat 0)) with 0.
    assert (acc - (A + 0) == acc - A) as -> by ring. lra.
  - cbn [fold_left exact_sum foldr]. fold (exact_sum ds).
    cbn [length] in HN |- *. rewrite Nat2Z.inj_succ in HN |- *.
    destruct (add_float_error acc d k A e Hk ltac:(lia) Hd H0 H1 He)
      as [[Hb0 Hb1] Herr].
    specialize (IH N (add_float acc d) (k + 1)%Z (A + d) _
                  ltac:(lia) ltac:(lia) HN53 Hb0 Hb1 Herr).
    assert (A + (d + exact_sum ds) == A + d + exact_sum ds) as -> by ring.
    eapply Qle_trans; [exact IH|].
    unfold Z.succ. rewrite inject_Z_plus. change (inject_Z 1) with 1.
    assert (inject_Z k + 1 <= inject_Z N) as HkN.
    { change 1 with (inject_Z 1). rewrite <- inject_Z_plus, <- Zle_Qle. lia. }
    pose proof (pow2_pos (-53)) as Hu.
    generalize dependent (inject_Z (Z.of_nat (length ds))). intros n. intros.
    generalize dependent (inject_Z k). intros K. intros.
    generalize dependent (inject_Z N). intros N'. intros.
    generalize dependent (2 ^ (-53)). intros u. intros.
    generalize (2 ^ (-1075)). intros eta. nra.
Qed.

Lemma py_sum_error ds :
  Forall in_unit ds -> (Z.of_nat (length ds) <= 2 ^ 53)%Z ->
  Qabs (py_sum ds - exact_sum ds)
  <= inject_Z (Z.of_nat (length ds))
     * ((inject_Z (Z.of_nat (length ds)) + 1) * 2 ^ (-53) + 2 * 2 ^ (-1075)).
Proof.
  intros H Hn. rewrite py_sum_fold.
  pose proof (fold_add_float_error ds H (Z.of_nat (length ds)) 0 0%Z 0 0
                ltac:(done) ltac:(lia) Hn ltac:(apply Qle_refl)
                ltac:(apply Qle_refl) ltac:(by vm_compute)) as Herr.
  assert (0 + exact_sum ds == exact_sum ds) as E by ring. rewrite E in Herr.
  eapply Qle_trans; [exact Herr|]. lra.
Qed.

(** The float mean of at most [2^53] floats of the unit interval is
    within [(n + 3) * 2^-53] of their exact mean. *)
Lemma float_mean_error ds :
  Forall in_unit ds -> (Z.of_nat (length ds) <= 2 ^ 53)%Z ->
  Qabs (float_mean ds - mean ds)
  <= (inject_Z (Z.of_nat (length ds)) + 3) * 2 ^ (-53).
Proof.
  intros H Hn. pose proof (pow2_pos (-53)) as Hu.
  destruct ds as [|d0 ds].
  { unfold float_mean, mean. simpl length. change (inject_Z (Z.of_nat 0)) with 0.
    rewrite Qabs_pos by lra. lra. }
  destruct (py_sum_bounds _ H) as [Hs0 Hs1]. rewrite Z.min_l in Hs1 by done.
  pose proof (py_sum_error _ H Hn) as Herr.
  unfold float_mean, mean, float_div.
  set (n := Z.of_nat (length (d0 :: ds))) in *.
  assert (1 <= n)%Z as Hn1 by (unfold n; simpl length; lia).
  assert (1 <= inject_Z n) as HnQ.
  { change 1 with (inject_Z 1). by rewrite <- Zle_Qle. }
  set (S := py_sum (d0 :: ds)) in *. set (X := exact_sum (d0 :: ds)) in *.
  assert (0 <= S / inject_Z n ∧ S / inject_Z n <= 1) as [Hq0 Hq1].
  { split; [apply Qle_shift_div_l|apply Qle_shift_div_r]; lra. }
  assert (to_float (S / to_float (inject_Z n)) == to_float (S / inject_Z n)) as ->.
  { apply Qle_antisym; apply to_float_mono;
      rewrite ?to_float_int by lia; try lra; apply Qle_refl. }
  pose proof (to_float_rel _ Hq0) as E1.
  assert (S / inject_Z n - X / inject_Z n == (S - X) / inject_Z n) as E2
    by (field; lra).
  pose proof (float_slack) as Hsl. pose proof (pow2_pos (-1075)) as Heta.
  apply Qabs_bound in E1 as [E1a E1b]. apply Qabs_bound in Herr as [Ha Hb].
  assert (- ((inject_Z n + 1) * 2 ^ (-53) + 2 * 2 ^ (-1075))
          <= S / inject_Z n - X / inject_Z n
          ∧ S / inject_Z n - X / inject_Z n
            <= (inject_Z n + 1) * 2 ^ (-53) + 2 * 2 ^ (-1075)) as [E3a E3b].
  { rewrite E2. split.
    - apply Qle_shift_div_l; [lra|]. lra.
    - apply Qle_shift_div_r; [lra|]. lra. }
  apply Qabs_bound.
  generalize dependent (to_float (S / inject_Z n)). intros m. intros.
  generalize dependent (S / inject_Z n). intros q. intros.
  generalize dependent (X / inject_Z n). intros x. intros.
  generalize dependent (inject_Z n). intros N. intros.
  generalize dependent (2 ^ (-53)). intros u. intros.
  generalize dependent (2 ^ (-1075)). intros eta. intros.
  split; nra.
Qed.

End FloatMean.

(** ** Rounding to decimals *)

Lemma round_half_even_zero q : (q == 0)%Q -> round_half_even q = 0.
Proof.
  intros Hq. rewrite (round_half_even_comp q (inject_Z 0)) by done.
  apply round_half_even_int.
Qed.

Lemma round_half_even_bounds q s :
  (0 <= q)%Q -> (q <= inject_Z s)%Q -> 0 <= round_half_even q <= s.
Proof.
  intros H0 Hs. split.
  - rewrite <- (round_half_even_int 0) at 1. by apply round_half_even_mono.
  - rewrite <- (round_half_even_int s). by apply round_half_even_mono.
Qed.

Lemma round_half_even_small q :
  (0 <= q)%Q -> (q < 1 # 2)%Q -> round_half_even q = 0.
Proof.
  intros H0 Hq. unfold round_half_even.
  pose proof (Qfloor_le q) as Hfl. pose proof (Qlt_floor q) as Hlt.
  assert (Qfloor q = 0) as ->.
  { assert (0 <= Qfloor q) by (rewrite <- (Qfloor_Z 0); by apply Qfloor_resp_le).
    assert (Qfloor q < 1); [|lia].
    rewrite Zlt_Qlt. change (inject_Z 1) with 1%Q. lra. }
  assert ((q - inject_Z 0 ?= 1 # 2)%Q = Lt) as ->; [|done].
  apply (proj1 (Qlt_alt _ _)). change (inject_Z 0) with 0%Q. lra.
Qed.

(** Rounding to any number of digits keeps a value of the unit interval
    in it. *)
Lemma round_decimal_in_unit v ndigits : in_unit v -> in_unit (round_decimal v ndigits).
Proof.
  intros [H0 H1]. unfold round_decimal.
  destruct (Z_le_gt_dec 0 ndigits) as [Hn|Hn].
  - assert (0 < 10 ^ ndigits)%Q as Hpos by (by apply Qpower_0_lt).
    pose proof (Zpower_Qpower 10 ndigits Hn) as Hscale.
    change (inject_Z 10) with 10%Q in Hscale.
    destruct (round_half_even_bounds (v * 10 ^ ndigits) (10 ^ ndigits)) as [Hr0 Hr1].
    + apply Qmult_le_0_compat; [done|lra].
    + rewrite Hscale. rewrite <- (Qmult_1_l (10 ^ ndigits)) at 2.
      apply Qmult_le_compat_r; [done|lra].
    + rewrite Zle_Qle in Hr0, Hr1. change (inject_Z 0) with 0%Q in Hr0. split.
      * apply Qle_shift_div_l; [done|]. lra.
      * apply Qle_shift_div_r; [done|]. lra.
  - destruct ndigits as [|p|p]; [lia|lia|].
    assert (1 < 10 ^ Z.pos p)%Q as Hbig by (by apply Qpower_1_lt_pos).
    change (10 ^ Z.neg p)%Q with (/ (10 ^ Z.pos p))%Q.
    assert (0 < / (10 ^ Z.pos p))%Q as Hpos by (apply Qinv_lt_0_compat; lra).
    assert (/ (10 ^ Z.pos p) <= 1 # 10)%Q as Hsmall.
    { apply Qle_shift_inv_r; [lra|].
      assert (10 <= 10 ^ Z.pos p)%Q; [|lra].
      rewrite <- (Zpower_Qpower 10 (Z.pos p)) by lia.
      change 10%Q with (inject_Z 10) at 1. rewrite <- Zle_Qle.
      change 10 with (10 ^ 1) at 1. apply Z.pow_le_mono_r; lia. }
    rewrite round_half_even_small.
    + unfold in_unit, Qdiv. change (inject_Z 0) with 0%Q. rewrite Qmult_0_l.
      split; lra.
    + apply Qmult_le_0_compat; [done|lra].
    + apply Qle_lt_trans with (1 * (1 # 10))%Q; [|reflexivity].
      apply Qmult_le_compat_nonneg; split; lra.
Qed.

Lemma py_round_in_unit v ndigits : in_unit v -> in_unit (py_round v ndigits).
Proof. intros H. by apply to_float_in_unit, round_decimal_in_unit. Qed.

Lemma py_round_zero ndigits : (py_round 0 ndigits == 0)%Q.
Proof.
  unfold py_round. apply to_float_zero. unfold round_decimal.
  rewrite round_half_even_zero by ring. unfold Qdiv. change (inject_Z 0) with 0%Q. ring.
Qed.

(** The decimal is within half a unit of its last digit. *)
Lemma round_decimal_near v ndigits :
  (Qabs (round_decimal v ndigits - v) <= (1 # 2) / 10 ^ ndigits)%Q.
Proof.
  unfold round_decimal.
  assert (0 < 10 ^ ndigits)%Q as Hpos by (by apply Qpower_0_lt).
  pose proof (round_half_even_near (v * 10 ^ ndigits)) as Hn.
  apply Qabs_bound in Hn as [Ha Hb]. apply Qabs_bound.
  set (k := inject_Z (round_half_even (v * 10 ^ ndigits))) in *. clearbody k.
  assert (k / 10 ^ ndigits - v == (k - v * 10 ^ ndigits) / 10 ^ ndigits)%Q as ->
    by (field; lra).
  split.
  - apply Qle_shift_div_l; [done|].
    assert (- ((1 # 2) / 10 ^ ndigits) * 10 ^ ndigits == - (1 # 2))%Q as ->
      by (field; lra). done.
  - apply Qle_shift_div_r; [done|].
    assert ((1 # 2) / 10 ^ ndigits * 10 ^ ndigits == 1 # 2)%Q as ->
      by (field; lra). done.
Qed.

Lemma no_package_no_module E root :
  Forall (fun '(_, _, modules) => "__init__.py" ∉ modules) (os_walk E root) ->
  get_py_modules E root = [].
Proof.
  unfold get_py_modules. induction 1 as [|[[r pk] ms] l Hx _ IH]; simpl; [done|].
  rewrite bool_decide_eq_false_2 by done. simpl. done.
Qed.

Lemma load_components_empty E root ls :
  root ≠ "" -> get_py_modules E root = [] ->
  ∃ w', load_components E (Some root) None
          (mkWorld (ModuleComponentLoader_init None) ls) = (Ok tt, w')
        ∧ Dict.items (components (graph w')) = [].
Proof.
  intros Hroot Hnone. unfold load_components. simpl.
  unfold PyStr.truthy. rewrite (proj2 (String.eqb_neq root "")) by done. simpl.
  unfold _load_components. rewrite Hnone. simpl. eauto.
Qed.

(** ** The floats of some decimals *)

(** [0.1], [0.1 + 0.2] and [sum([0.1] * 10)] as Python has them. *)
Example float_tenth : to_float (1 # 10) = (3602879701896397 # 36028797018963968)%Q.
Proof. by vm_compute. Qed.

Example float_sum_of_tenths :
  py_sum [1 # 10; 2 # 10]%Q = (1351079888211149 # 4503599627370496)%Q
  ∧ py_sum (replicate 10 (1 # 10)%Q) = (9007199254740991 # 9007199254740992)%Q.
Proof. split; by vm_compute. Qed.

(** The distances 1/8, 0, 0, 0 and 0 have the mean 1/40, half way between
    0.02 and 0.03.  The float mean is the float nearest to 1/40, which is
    above it, and its rounding is 0.03, where the rounding of the exact
    mean to the even digit would be 0.02. *)
Example round_above_tie :
  (mean [1 # 8; 0; 0; 0; 0] == 1 # 40)%Q
  ∧ float_mean [1 # 8; 0; 0; 0; 0]%Q
    = (3602879701896397 # 144115188075855872)%Q
  ∧ (1 # 40 < float_mean [1 # 8; 0; 0; 0; 0])%Q
  ∧ (round_decimal (1 # 40) 2 == 2 # 100)%Q
  ∧ py_round (float_mean [1 # 8; 0; 0; 0; 0]%Q) 2 = to_float (3 # 100)
  ∧ to_float (3 # 100) = (1080863910568919 # 36028797018963968)%Q.
Proof. repeat split; by vm_compute. Qed.

(** The distances 5/8, 0, 0, 0 and 0 have the mean 1/8, which is a float:
    the tie between 0.12 and 0.13 is real, and goes to the even digit. *)
Example round_at_tie :
  float_mean [5 # 8; 0; 0; 0; 0]%Q = (1 # 8)%Q
  ∧ py_round (1 # 8) 2 = to_float (12 # 100)
  ∧ to_float (12 # 100) = (1080863910568919 # 9007199254740992)%Q.
Proof. repeat split; by vm_compute. Qed.

(** The run on the five units of [Examples.near_tie]. *)
Example mean_distance_near_tie :
  calculate_main_distance Examples.env None Examples.near_tie
  = (Ok (to_float (3 # 100)), Examples.near_tie).
Proof. by vm_compute. Qed.

(** A third is not a float; the mean of 1/3, 2/3 and 1/2 is computed on
    the floats nearest to them. *)
Example mean_of_thirds :
  to_float (1 # 3) = (6004799503160661 # 18014398509481984)%Q
  ∧ float_mean [1 # 3; 2 # 3; 1 # 2]%Q = (1 # 2)%Q
  ∧ py_round (float_mean [1 # 3; 2 # 3; 1 # 2]%Q) 2 = (1 # 2)%Q.
Proof. repeat split; by vm_compute. Qed.

(** What [calculate_main_distance] does after its loop. *)
Lemma mean_step_run (ds : list Q) (g : Graph) :
  match ds with
  | [] => ret 0%Q
  | _ => lift (py_divq (py_sum ds) (Z.of_nat (length ds)))
  end g = (Ok (float_mean ds), g).
Proof.
  destruct ds as [|d ds]; [done|].
  unfold lift, py_divq, float_mean.
  by rewrite (proj2 (Z.eqb_neq _ _)) by (simpl length; lia).
Qed.

Lemma calculate_main_distance_run E decimals g r g' :
  calculate_main_distance E decimals g = (r, g') ->
  (∃ ds, collect_distances E (Dict.items (components g)) [] g = (Ok ds, g')
         ∧ r = Ok (py_round (float_mean ds) (default default_decimals decimals)))
  ∨ (∃ e, collect_distances E (Dict.items (components g)) [] g = (Raise e, g')
          ∧ r = Raise e).
Proof.
  unfold calculate_main_distance. intros Hrun.
  apply bind_inv in Hrun as [(comps & g1 & Hread & Hrun)|(e & Hread & _)]; [|done].
  injection Hread as <- <-.
  apply bind_inv in Hrun as [(ds & g1 & Hds & Hrun)|(e & Hds & ->)]; [|by right; eauto].
  left. exists ds. unfold bind in Hrun. rewrite mean_step_run in Hrun.
  by injection Hrun as <- <-.
Qed.

Lemma collect_distances_in_unit E items :
  ∀ acc g ds g',
    caches_ok g -> Forall in_unit acc ->
    collect_distances E items acc g = (Ok ds, g') ->
    caches_ok g' ∧ Forall in_unit ds.
Proof.
  induction items as [|[k c] items IH]; simpl; intros acc g ds g' Hok Hacc Hrun.
  - by injection Hrun as <- <-.
  - apply bind_inv in Hrun as [(v & g1 & Hv & Hrun)|(e & _ & ?)]; [|done].
    apply get_distance_spec in Hv as [Hs Hcv]. specialize (Hcv _ eq_refl).
    pose proof (metric_step_caches_ok _ _ _ Hs Hok) as Hok1.
    eapply IH; [exact Hok1| |exact Hrun].
    apply Forall_app. split; [done|]. constructor; [|done].
    unfold returns_cached in Hcv. destruct (heap g1 !! c) as [C1|] eqn:HC1.
    + destruct (Hok1 _ _ HC1) as (Hi & Ha & Hd).
      destruct (Hd _ Hcv) as (a & i & Habs & Hins & ->).
      apply distance_in_unit; [by apply Ha|by apply Hi].
    + subst v. split; by vm_compute.
Qed.

(** C7. The mean distance is the arithmetic mean of the distances of the
    discovered units, rounded to [decimals] digits, 2 when the argument
    is left out; for a graph without units it is 0, and the call answers
    instead of failing.  A project directory in which no directory holds
    an [__init__.py] gives such a graph.  With units, the call answers
    whenever the module of every discovered unit imports.

    The numbers are floats.  The value returned is [round] of the mean
    that float addition and division give.  On a graph whose cached
    metrics are consistent, with [n <= 2^53] units, that float mean is
    within [(n + 3) * 2^-53] of the exact mean; the value returned is the
    float nearest to the decimal [k / 10^decimals], where [k] is the
    integer nearest to the float mean times [10^decimals], the even one
    of two; so it is within half a unit of the last digit, and
    [(n + 5) * 2^-53], of the exact mean. *)
Theorem mean_distance_value (E : Env) (decimals : option Z) (g : Graph) :
  (Dict.items (components g) = [] ->
     ∃ v, calculate_main_distance E decimals g = (Ok v, g) ∧ (v == 0)%Q)
  ∧ (∀ v g', calculate_main_distance E decimals g = (Ok v, g') ->
       ∃ ds,
         Forall2 (fun kc dv => get_distance E kc.2 g' = (Ok dv, g'))
                 (Dict.items (components g)) ds
         ∧ v = py_round (float_mean ds) (default 2 decimals)
         ∧ (caches_ok g -> Z.of_nat (length ds) <= 2 ^ 53 ->
            ∃ k : Z,
              (Qabs (float_mean ds - mean ds)
               <= (inject_Z (Z.of_nat (length ds)) + 3) * 2 ^ (-53))%Q
              ∧ (Qabs (inject_Z k - float_mean ds * 10 ^ default 2%Z decimals)
                 <= 1 # 2)%Q
              ∧ ((Qabs (inject_Z k - float_mean ds * 10 ^ default 2%Z decimals)
                  == 1 # 2)%Q -> Z.even k = true)
              ∧ v = to_float (inject_Z k / 10 ^ default 2%Z decimals)
              ∧ (Qabs (v - inject_Z k / 10 ^ default 2%Z decimals)
                 <= 2 ^ (-53) + 2 ^ (-1075))%Q
              ∧ (Qabs (v - mean ds)
                 <= (1 # 2) / 10 ^ default 2%Z decimals
                    + (inject_Z (Z.of_nat (length ds)) + 5) * 2 ^ (-53))%Q))
  ∧ (∀ root ls,
       root ≠ "" ->
       Forall (fun '(_, _, modules) => "__init__.py" ∉ modules) (os_walk E root) ->
       ∃ w' v,
         load_components E (Some root) None
           (mkWorld (ModuleComponentLoader_init None) ls) = (Ok tt, w')
         ∧ Dict.items (components (graph w')) = []
         ∧ calculate_main_distance E decimals (graph w') = (Ok v, graph w')
         ∧ (v == 0)%Q)
  ∧ (importable_units E g ->
     ∃ v g', calculate_main_distance E decimals g = (Ok v, g')).
Proof.
  assert (∀ g0, Dict.items (components g0) = [] ->
            ∃ v, calculate_main_distance E decimals g0 = (Ok v, g0) ∧ (v == 0)%Q)
    as Hzero.
  { intros g0 Hempty. unfold calculate_main_distance, bind, read_components.
    rewrite Hempty. simpl. eexists. split; [done|]. apply py_round_zero. }
  split; [apply Hzero|]. split; [|split].
  2:{ intros root ls Hroot Hwalk.
      destruct (load_components_empty E root ls Hroot) as (w' & Hw & Hitems);
        [by apply no_package_no_module|].
      destruct (Hzero _ Hitems) as (v & Hv & Hv0). by exists w', v. }
  2:{ intros Himp. unfold calculate_main_distance, bind at 1, read_components.
      destruct (collect_distances_total E _ [] g Himp) as (ds & g' & Hds).
      erewrite bind_ok by exact Hds.
      unfold bind. rewrite mean_step_run. by eexists _, _. }
  intros v g' Hrun.
  apply calculate_main_distance_run in Hrun as [(ds & Hds & [= ->])|(e & _ & ?)];
    [|done].
  pose proof Hds as Hspec.
  apply collect_distances_spec in Hspec as (new & -> & Hall & _).
  change (([] ++ new)%list) with new in *.
  exists new. split; [|split; [done|]].
  { eapply Forall2_impl; [exact Hall|]. intros [k c] dv. apply get_distance_again. }
  intros Hok Hn.
  destruct (collect_distances_in_unit _ _ _ _ _ _ Hok (Forall_nil_2 _) Hds) as [_ Hunit].
  set (d := default 2 decimals). change (default default_decimals decimals) with d.
  set (m := float_mean new).
  pose proof (float_mean_in_unit new Hunit) as Hm. fold m in Hm.
  pose proof (float_mean_error new Hunit Hn) as Herr. fold m in Herr.
  pose proof (round_decimal_in_unit m d Hm) as [Hr0 Hr1].
  pose proof (round_decimal_near m d) as Hnear.
  pose proof (to_float_rel _ Hr0) as Hfl. fold (py_round m d) in Hfl.
  exists (round_half_even (m * 10 ^ d)).
  split; [done|]. split; [apply round_half_even_near|].
  split; [apply round_half_even_tie|]. split; [done|].
  change (inject_Z (round_half_even (m * 10 ^ d)) / 10 ^ d)%Q
    with (round_decimal m d).
  pose proof (pow2_pos (-53)) as Hu. pose proof float_slack as Hsl.
  pose proof (pow2_pos (-1075)) as Heta.
  apply Qabs_bound in Herr as [He1 He2]. apply Qabs_bound in Hnear as [Hn1 Hn2].
  apply Qabs_bound in Hfl as [Hf1 Hf2].
  assert (round_decimal m d * 2 ^ (-53) <= 2 ^ (-53))%Q as Hru.
  { rewrite <- (Qmult_1_l (2 ^ (-53))) at 2. apply Qmult_le_compat_r; lra. }
  generalize dependent (round_decimal m d * 2 ^ (-53))%Q. intros ru. intros.
  generalize dependent (py_round m d). intros v. intros.
  generalize dependent (round_decimal m d). intros r. intros.
  clearbody m.
  generalize dependent ((1 # 2) / 10 ^ d)%Q. intros h. intros.
  generalize dependent (mean new). intros x. intros.
  generalize dependent (inject_Z (Z.of_nat (length new))). intros n. intros.
  generalize dependent (2 ^ (-53))%Q. intros u. intros.
  generalize dependent (2 ^ (-1075))%Q. intros eta. intros.
  split; apply Qabs_bound; split; lra.
Qed.

(** ** Names and paths *)

Example name_of_init :
  _get_name_from_path (PyPath.of_string "pkg/sub/__init__.py") = "pkg.sub".
Proof. reflexivity. Qed.

Example name_of_mod :
  _get_name_from_path (PyPath.of_string "pkg/sub/mod.py") = "pkg.sub.mod".
Proof. reflexivity. Qed.

Lemma replace_app old new s t :
  PyStr.replace old new (s ++ t)
  = PyStr.replace old new s ++ PyStr.replace old new t.
Proof. induction s as [|a s IH]; simpl; [done|]. by rewrite IH. Qed.

Lemma replace_absent old new s :
  PyStr.contains old s = false -> PyStr.replace old new s = s.
Proof.
  induction s as [|a s IH]; simpl; [done|].
  destruct (Ascii.eqb a old); [done|]. intros H. by rewrite IH.
Qed.

Lemma join_cons sep x y l :
  PyStr.join sep (x :: y :: l) = x ++ sep ++ PyStr.join sep (y :: l).
Proof. reflexivity. Qed.

(** Replacing the separator of a joined list changes the separators and
    nothing else, when no component holds one. *)
Lemma replace_join dir :
  Forall (fun part => PyStr.contains "/" part = false) dir ->
  PyStr.replace "/" "." (PyStr.join "/" dir) = PyStr.join "." dir.
Proof.
  induction 1 as [|part dir Hpart _ IH]; [done|].
  destruct dir as [|part' dir]; [by apply replace_absent|].
  rewrite !join_cons, !replace_app, (replace_absent _ _ part), IH by done.
  done.
Qed.

Lemma rfind_suffix s : PyStr.rfind "." (s ++ ".py") = PyStr.len s.
Proof.
  unfold PyStr.len. induction s as [|a s IH]; [done|].
  change (PyStr.rfind "." (String a s ++ ".py"))
    with (let i := PyStr.rfind "." (s ++ ".py") in
          if 0 <=? i then i + 1 else if Ascii.eqb a "." then 0 else -1).
  rewrite IH. simpl.
  destruct (Z.leb_spec 0 (Z.of_nat (String.length s))); lia.
Qed.

Lemma string_length_app s t :
  String.length (s ++ t) = (String.length s + String.length t)%nat.
Proof. induction s as [|a s IH]; simpl; [done|]. by rewrite IH. Qed.

Lemma take_prefix s t : PyStr.take (PyStr.len s) (s ++ t) = s.
Proof.
  unfold PyStr.take, PyStr.len. rewrite Nat2Z.id.
  induction s as [|a s IH]; simpl; [by destruct t|]. by rewrite IH.
Qed.

Lemma parent_snoc r dir x :
  PyPath.parent (mkPath r (dir ++ [x])) = mkPath r dir.
Proof.
  unfold PyPath.parent. cbn [parts root].
  destruct (dir ++ [x])%list as [|y l] eqn:Happ; [by destruct dir|].
  by rewrite <- Happ, removelast_last.
Qed.

Lemma name_snoc r dir x : PyPath.name (mkPath r (dir ++ [x])) = x.
Proof. unfold PyPath.name. simpl. apply last_last. Qed.

Lemma to_string_relative dir :
  dir ≠ [] -> PyPath.to_string (mkPath "" dir) = PyStr.join "/" dir.
Proof. by destruct dir. Qed.

(** The name derived from the marker file of a package is the dotted
    path of its directory. *)
Lemma name_of_package dir :
  dir ≠ [] -> Forall (fun part => PyStr.contains "/" part = false) dir ->
  _get_name_from_path (mkPath "" (dir ++ ["__init__.py"])) = PyStr.join "." dir.
Proof.
  intros Hne Hdir. unfold _get_name_from_path.
  rewrite name_snoc, parent_snoc, to_string_relative by done.
  simpl. by apply replace_join.
Qed.

(** The name derived from any other file is the dotted path of its
    directory, a dot, and the file name without [.py]. *)
Lemma name_of_module dir s :
  dir ≠ [] -> Forall (fun part => PyStr.contains "/" part = false) dir ->
  s ≠ "" -> s ≠ "__init__" ->
  _get_name_from_path (mkPath "" (dir ++ [s ++ ".py"]))
  = PyStr.join "." dir ++ "." ++ s.
Proof.
  intros Hne Hdir Hs Hinit. unfold _get_name_from_path, PyPath.stem.
  rewrite name_snoc, parent_snoc, to_string_relative by done.
  assert (String.eqb "__init__.py" (s ++ ".py") = false) as ->.
  { apply String.eqb_neq. intros Heq. apply Hinit.
    change "__init__.py" with ("__init__" ++ ".py") in Heq.
    clear -Heq. revert Heq. generalize "__init__". intros t.
    revert t. induction s as [|a s IH]; intros [|b t] Heq; simpl in Heq; try done.
    - injection Heq as _ Heq. by destruct t as [|? [|? [|? ?]]].
    - injection Heq as _ Heq. by destruct s as [|? [|? [|? ?]]].
    - injection Heq as -> Heq. f_equal. by apply IH. }
  rewrite rfind_suffix.
  assert ((0 <? PyStr.len s) && (PyStr.len s <? PyStr.len (s ++ ".py") - 1) = true)
    as ->.
  { unfold PyStr.len. rewrite string_length_app. simpl.
    destruct s as [|a s]; [done|].
    apply andb_true_intro. split; apply Z.ltb_lt; simpl String.length; lia. }
  by rewrite take_prefix, replace_join.
Qed.

Lemma get_path_from_name_module E name is_package :
  import_module E name = Ok (PyModule is_package) ->
  _get_path_from_name E name
  = Ok (PyPath.of_string (PyStr.replace "." "/" name ++ ".py")).
Proof. unfold _get_path_from_name. by intros ->. Qed.

Lemma get_path_from_name_other E name truth :
  import_module E name = Ok (PyObject truth) ->
  _get_path_from_name E name
  = Ok (PyPath.of_string (PyStr.replace "." "/" name ++ "/__init__.py")).
Proof. unfold _get_path_from_name. by intros ->. Qed.

(** C2. Names are derived from paths as stated, [pkg/sub/__init__.py] to
    [pkg.sub] and [pkg/sub/mod.py] to [pkg.sub.mod], and the module name
    maps back to the module file.  The package name does not map back to
    its [__init__.py]: a package imports as a module object, so the path
    derived from [pkg.sub] is [pkg/sub.py]. *)
Theorem package_name_maps_to_module_file (E : Env) :
  import_module E "pkg.sub" = Ok (PyModule true) ->
  import_module E "pkg.sub.mod" = Ok (PyModule false) ->
  _get_name_from_path (PyPath.of_string "pkg/sub/__init__.py") = "pkg.sub"
  ∧ _get_name_from_path (PyPath.of_string "pkg/sub/mod.py") = "pkg.sub.mod"
  ∧ _get_path_from_name E "pkg.sub.mod" = Ok (PyPath.of_string "pkg/sub/mod.py")
  ∧ _get_path_from_name E "pkg.sub" = Ok (PyPath.of_string "pkg/sub.py")
  ∧ PyPath.of_string "pkg/sub.py" ≠ PyPath.of_string "pkg/sub/__init__.py".
Proof.
  intros Hpkg Hmod. repeat apply conj; try reflexivity.
  - by rewrite (get_path_from_name_module _ _ _ Hmod).
  - by rewrite (get_path_from_name_module _ _ _ Hpkg).
  - by vm_compute.
Qed.

Lemma package_name_maps_to_module_file_witness :
  _get_path_from_name Examples.env "pkg.sub" = Ok (PyPath.of_string "pkg/sub.py").
Proof.
  apply (package_name_maps_to_module_file Examples.env); reflexivity.
Defined.

(** ** The caller's ignore list *)

Lemma load_dependencies_lists E r w res w' :
  _load_dependencies E (Some r) w = (res, w') ->
  match lists w !! r with
  | Some (a :: l) =>
      lists w' = <[r := ((a :: l) ++ ignore_dependencies (graph w))%list]> (lists w)
  | _ => lists w' = lists w
  end.
Proof.
  unfold _load_dependencies.
  destruct (lists w !! r) as [[|a l]|];
    destruct (resolve_all E _ (graph w)) as [res0 g0]; by intros [= _ <-].
Qed.

Lemma module_component_of_path E p g :
  ModuleComponent_init E (Some p) None g
  = (Ok (length (heap g)),
     set_heap (heap g ++ [Component_init (Some p) (Some (_get_name_from_path p))]) g).
Proof. reflexivity. Qed.

Lemma _load_components_ok E root g :
  ∃ g', _load_components E root g = (Ok tt, g')
        ∧ ignore_dependencies g' = ignore_dependencies g
        ∧ root_path g' = root_path g.
Proof.
  unfold _load_components. generalize (get_py_modules E root) as modules.
  intros modules. revert g.
  induction modules as [|p modules IH]; intros g; simpl; [by eexists|].
  unfold bind at 1. unfold bind at 1. rewrite module_component_of_path.
  unfold bind at 1. unfold read at 1. simpl.
  match goal with |- context [for_each modules ?b ?g1] =>
    destruct (IH g1) as (g' & Hrun & Hi & Hr) end.
  exists g'. done.
Qed.

(** C10 (as the code has it). [_load_dependencies] extends the caller's
    list in place with the loader's ignore list, which is [abc], [typing]
    for a new loader, when that list is not empty; an empty list is left
    as it is, since the method then works on a new list of its own.  The
    same holds of [load_components], which passes the list on, as soon as
    it has a root directory to walk. *)
Theorem caller_list_extended (E : Env) (r : nat) (w : World) :
  (∀ res w', _load_dependencies E (Some r) w = (res, w') ->
     (∀ a l, lists w !! r = Some (a :: l) ->
        lists w' !! r = Some ((a :: l) ++ ignore_dependencies (graph w))%list)
     ∧ (lists w !! r = Some [] -> lists w' !! r = Some []))
  ∧ (∀ root_arg root res w',
       (if negb (name_truthy root_arg) then root_path (graph w) else root_arg)
       = Some root ->
       load_components E root_arg (Some r) w = (res, w') ->
       (∀ a l, lists w !! r = Some (a :: l) ->
          lists w' !! r = Some ((a :: l) ++ ignore_dependencies (graph w))%list)
       ∧ (lists w !! r = Some [] -> lists w' !! r = Some []))
  ∧ ignore_dependencies (ModuleComponentLoader_init (root_path (graph w)))
    = ["abc"; "typing"].
Proof.
  assert (∀ w0 res w', _load_dependencies E (Some r) w0 = (res, w') ->
     (∀ a l, lists w0 !! r = Some (a :: l) ->
        lists w' !! r = Some ((a :: l) ++ ignore_dependencies (graph w0))%list)
     ∧ (lists w0 !! r = Some [] -> lists w' !! r = Some [])) as Hdeps.
  { intros w0 res w' Hrun. apply load_dependencies_lists in Hrun. split.
    - intros a l Hl. rewrite Hl in Hrun. rewrite Hrun.
      apply list_lookup_insert_eq. by eapply lookup_lt_Some.
    - intros Hl. rewrite Hl in Hrun. by rewrite Hrun. }
  split; [apply Hdeps|]. split; [|done].
  intros root_arg root res w' Hroot Hrun. unfold load_components in Hrun.
  rewrite Hroot in Hrun.
  destruct (_load_components_ok E root (graph w)) as (g1 & Hg1 & Hi & _).
  rewrite Hg1 in Hrun.
  destruct (_load_dependencies E (Some r) (mkWorld g1 (lists w))) as [res2 w2] eqn:Hd.
  apply Hdeps in Hd. simpl in Hd. rewrite Hi in Hd.
  assert (lists w' = lists w2) as ->; [|done].
  destruct res2 as [[]|e]; [|by injection Hrun as _ <-].
  destruct (_load_classes E (graph w2)). by injection Hrun as _ <-.
Qed.

Lemma caller_list_extended_witness :
  lists Examples.loaded !! 0%nat
  = Some (["os"] ++ ignore_dependencies (graph Examples.world0))%list.
Proof.
  destruct (caller_list_extended Examples.env 0 Examples.world0) as (_ & H & _).
  destruct (H None "pkg" _ _ eq_refl
              (surjective_pairing
                 (load_components Examples.env None (Some 0%nat) Examples.world0)))
    as [Hgrow _].
  exact (Hgrow "os" [] eq_refl).
Defined.

(** An empty list passed as [ignore_dependencies] is not extended. *)
Lemma empty_caller_list_not_extended :
  ¬ (∀ (E : Env) (r : nat) (w : World) (l : list string) res w',
       lists w !! r = Some l ->
       _load_dependencies E (Some r) w = (res, w') ->
       lists w' !! r = Some (l ++ ignore_dependencies (graph w))%list).
Proof.
  intros H.
  specialize (H Examples.env 1%nat Examples.world0 [] _ _ eq_refl
                (surjective_pairing
                   (_load_dependencies Examples.env (Some 1%nat) Examples.world0))).
  vm_compute in H. discriminate H.
Qed.

(** ** The dependency pass: footprints *)

Section Footprints.
Local Open Scope nat_scope.

Lemma with_sets_id C :
  with_sets (external_dependencies C) (internal_dependents C) C = C.
Proof. by destruct C. Qed.

Lemma with_sets_empty C :
  with_sets (∅ ∪ external_dependencies C) (∅ ∪ internal_dependents C) C = C.
Proof. rewrite !(left_id_L ∅ (∪)). apply with_sets_id. Qed.

Lemma same_loader_refl g : same_loader g g.
Proof. done. Qed.

Lemma same_loader_trans g1 g2 g3 :
  same_loader g1 g2 -> same_loader g2 g3 -> same_loader g1 g3.
Proof. intros (?&?&?) (?&?&?). repeat split; congruence. Qed.

Lemma int_step_refl c g : int_step c g g.
Proof.
  repeat split. intros x C HC. exists ∅.
  rewrite (left_id_L ∅ (∪)), with_sets_id. split; [done|set_solver].
Qed.

Lemma int_step_trans c g1 g2 g3 :
  int_step c g1 g2 -> int_step c g2 g3 -> int_step c g1 g3.
Proof.
  intros (Hl1 & Hn1 & Ho1) (Hl2 & Hn2 & Ho2).
  split; [by eapply same_loader_trans|]. split; [congruence|].
  intros x C HC. destruct (Ho1 _ _ HC) as (T1 & HC1 & HT1).
  destruct (Ho2 _ _ HC1) as (T2 & HC2 & HT2). simpl in HC2.
  exists (T2 ∪ T1). rewrite HC2. split; [|set_solver].
  unfold with_sets. simpl. by rewrite (assoc_L (∪)).
Qed.

Lemma int_step_pass_step ignore c g g' :
  c < length (heap g) -> int_step c g g' -> pass_step ignore c g g'.
Proof.
  intros Hc (Hl & Hn & Ho). split; [done|]. split; [done|]. split; [lia|]. split.
  - intros x C HC. destruct (Ho _ _ HC) as (T & HC' & HT).
    exists ∅, T. rewrite (left_id_L ∅ (∪)). split_and!; [done|done|set_solver|done].
  - intros x C Hx HC. apply lookup_lt_Some in HC. lia.
Qed.

Lemma pass_step_refl ignore c g : c < length (heap g) -> pass_step ignore c g g.
Proof. intros Hc. apply int_step_pass_step; [done|apply int_step_refl]. Qed.

Lemma pass_step_trans ignore c g1 g2 g3 :
  pass_step ignore c g1 g2 -> pass_step ignore c g2 g3 -> pass_step ignore c g1 g3.
Proof.
  intros (Hc1 & Hl1 & Hn1 & Ho1 & Hw1) (Hc2 & Hl2 & Hn2 & Ho2 & Hw2).
  split; [done|]. split; [by eapply same_loader_trans|]. split; [lia|]. split.
  - intros x C HC. destruct (Ho1 _ _ HC) as (S1 & T1 & HC1 & HS1 & HS1' & HT1).
    destruct (Ho2 _ _ HC1) as (S2 & T2 & HC2 & HS2 & HS2' & HT2). simpl in HC2.
    exists (S2 ∪ S1), (T2 ∪ T1). rewrite HC2. split_and!.
    + unfold with_sets. simpl. by rewrite !(assoc_L (∪)).
    + intros Hx. rewrite HS1, HS2 by done. set_solver.
    + intros d Hd.
      apply elem_of_union in Hd as [Hd|Hd]; [apply HS2' in Hd|apply HS1' in Hd]; lia.
    + set_solver.
  - intros x C Hx HC.
    destruct (decide (x < length (heap g2))) as [Hlt|Hge]; [|apply (Hw2 x); [lia|done]].
    destruct (lookup_lt_is_Some_2 _ _ Hlt) as [C2 HC2].
    destruct (Hw1 _ _ Hx HC2) as (Hi & He & Hin).
    destruct (Ho2 _ _ HC2) as (S2 & T2 & HC3 & HS2 & _ & HT2).
    rewrite HC in HC3. injection HC3 as ->. simpl.
    rewrite HS2 by lia. rewrite He. split_and!; [done|set_solver|set_solver].
Qed.

Lemma pass_step_wf ignore c g g' : pass_step ignore c g g' -> wf g -> wf g'.
Proof.
  intros (Hc & (Hcomps & _) & Hn & Ho & Hw) [Hext Hint Hcs]. split.
  - intros x C' d HC' Hd.
    destruct (decide (x < length (heap g))) as [Hlt|Hge].
    + destruct (lookup_lt_is_Some_2 _ _ Hlt) as [C HC].
      destruct (Ho _ _ HC) as (S & T & HC2 & _ & HS & _).
      rewrite HC' in HC2. injection HC2 as ->. simpl in Hd.
      apply elem_of_union in Hd as [Hd|Hd]; [apply HS in Hd; lia|].
      specialize (Hext _ _ _ HC Hd). lia.
    + destruct (Hw x C') as (_ & He & _); [lia|done|]. set_solver.
  - intros x C' d HC' Hd.
    destruct (decide (x < length (heap g))) as [Hlt|Hge].
    + destruct (lookup_lt_is_Some_2 _ _ Hlt) as [C HC].
      destruct (Ho _ _ HC) as (S & T & HC2 & _ & _ & HT).
      rewrite HC' in HC2. injection HC2 as ->. simpl in Hd.
      apply elem_of_union in Hd as [Hd|Hd].
      * assert (d = c) as -> by set_solver. lia.
      * specialize (Hint _ _ _ HC Hd). lia.
    + destruct (Hw x C') as (_ & _ & Hi); [lia|done|].
      assert (d = c) as -> by set_solver. lia.
  - intros k a Hk. rewrite Hcomps in Hk. specialize (Hcs _ _ Hk). lia.
Qed.

(** Objects that were there keep their name and path. *)
Lemma pass_step_name ignore c g g' x :
  pass_step ignore c g g' -> x < length (heap g) ->
  name_of (heap g') x = name_of (heap g) x.
Proof.
  intros (_ & _ & _ & Ho & _) Hx. unfold name_of.
  destruct (lookup_lt_is_Some_2 _ _ Hx) as [C HC].
  destruct (Ho _ _ HC) as (S & T & HC' & _). by rewrite HC, HC'.
Qed.

(** [add_dependency] as an update of the sets. *)
Lemma add_dependency_ext self d g :
  add_dependency self d false g
  = (Ok tt, set_heap (alter (fun C => with_sets ({[d]} ∪ external_dependencies C)
                                               (internal_dependents C) C)
                            self (heap g)) g).
Proof. reflexivity. Qed.

Lemma add_dependency_int self d g :
  add_dependency self d true g
  = (Ok tt, set_heap (alter (fun C => with_sets (external_dependencies C)
                                               ({[d]} ∪ internal_dependents C) C)
                            self (heap g)) g).
Proof. reflexivity. Qed.

Lemma add_dependency_int_step b c g :
  int_step c g (add_dependency b c true g).2.
Proof.
  rewrite add_dependency_int. simpl. split; [done|]. split; [apply length_alter|].
  intros x C HC. simpl. destruct (decide (b = x)) as [->|Hne].
  - exists {[c]}. rewrite list_lookup_alter_eq, HC. done.
  - exists ∅. rewrite list_lookup_alter_ne, HC by done.
    rewrite (left_id_L ∅ (∪)), with_sets_id. split; [done|set_solver].
Qed.

(** A placeholder is created and recorded as an outgoing edge of [c]. *)
Lemma new_dependency_pass_step ignore c p n g :
  c < length (heap g) -> is_ignored ignore n = false ->
  pass_step ignore c g
    (add_dependency c (length (heap g)) false
       (set_heap (heap g ++ [Component_init p n]) g)).2.
Proof.
  intros Hc Hn. rewrite add_dependency_ext. simpl.
  split; [done|]. split; [done|]. simpl.
  split; [rewrite length_alter, length_app; simpl; lia|]. split.
  - intros x C HC. pose proof (lookup_lt_Some _ _ _ HC) as Hx.
    destruct (decide (c = x)) as [->|Hne].
    + exists {[length (heap g)]}, ∅.
      rewrite list_lookup_alter_eq, lookup_app_l, HC by done. simpl.
      rewrite (left_id_L ∅ (∪)). split_and!; [done|done| |set_solver].
      intros d Hd. apply elem_of_singleton in Hd as ->.
      rewrite length_alter, length_app. simpl. lia.
    + exists ∅, ∅. rewrite list_lookup_alter_ne, lookup_app_l, HC by done.
      rewrite with_sets_empty. split_and!; [done|done|set_solver|set_solver].
  - intros x C Hx HC.
    rewrite list_lookup_alter_ne in HC by lia.
    apply lookup_app_Some in HC as [HC|[_ HC]].
    { apply lookup_lt_Some in HC. lia. }
    apply list_lookup_singleton_Some in HC as [_ <-]. simpl.
    split_and!; [done|done|set_solver].
Qed.

End Footprints.

Section PassSteps.
Local Open Scope nat_scope.
Variable E : Env.
Variable ignore : option (list string).

Lemma module_component_of_name n g r g' :
  ModuleComponent_init E None n g = (r, g') ->
  (∃ e, r = Raise e ∧ g' = g)
  ∨ (∃ p, r = Ok (length (heap g))
          ∧ g' = set_heap (heap g ++ [Component_init p n]) g).
Proof.
  unfold ModuleComponent_init, bind, lift, ret, alloc.
  destruct (name_truthy n).
  - destruct (_get_path_from_name E (py_str n)) as [p|e]; intros [= <- <-]; eauto.
  - intros [= <- <-]. eauto.
Qed.

(** One dependency of the loop of [load_dependencies]. *)
Lemma load_dependencies_body_step c module g r g' :
  c < length (heap g) ->
  (if is_ignored ignore module then ret tt
   else let! dep_comp := ModuleComponent_init E None module in
        add_dependency c dep_comp false) g = (r, g') ->
  pass_step ignore c g g'.
Proof.
  intros Hc. destruct (is_ignored ignore module) eqn:Hi.
  - intros [= <- <-]. by apply pass_step_refl.
  - intros H. apply bind_inv in H as [(d & g1 & Hinit & H)|(e & Hinit & _)];
      apply module_component_of_name in Hinit as [(e' & ? & ->)|(p & ? & ->)];
      try done; simplify_eq.
    + pose proof (new_dependency_pass_step ignore c p module g Hc Hi) as Hs.
      by rewrite H in Hs.
    + by apply pass_step_refl.
Qed.

Lemma load_dependencies_step c g r g' :
  c < length (heap g) ->
  load_dependencies E c ignore g = (r, g') -> pass_step ignore c g g'.
Proof.
  intros Hc H. unfold load_dependencies in H.
  apply bind_inv in H as [(oc & g0 & Hread & H)|(e & Hread & _)]; [|done].
  injection Hread as <- <-.
  destruct (heap g !! c) as [C|]; simpl in H;
    [|injection H as <- <-; by apply pass_step_refl].
  destruct (negb _); [injection H as <- <-; by apply pass_step_refl|].
  apply bind_inv in H as [(deps & g0 & Hdeps & H)|(e & Hdeps & _)].
  - unfold lift in Hdeps. injection Hdeps as _ <-.
    eapply (for_each_inv (pass_step ignore c g)); [|by apply pass_step_refl|exact H].
    intros m g1 r1 g2 _ Hs Hbody. eapply pass_step_trans; [done|].
    eapply load_dependencies_body_step; [|exact Hbody].
    destruct Hs as (_ & _ & Hlen & _). lia.
  - unfold lift in Hdeps. injection Hdeps as _ <-. by apply pass_step_refl.
Qed.

Lemma mirror_body_step c d g r g' :
  mirror_body c d g = (r, g') -> r = Ok tt ∧ int_step c g g'.
Proof.
  unfold mirror_body, bind, read_heap, read_components. simpl.
  destruct (Dict.mem _ _); [|intros [= <- <-]; split; [done|apply int_step_refl]].
  destruct (Dict.get _ _) as [b|]; [|intros [= <- <-]; split; [done|apply int_step_refl]].
  intros H. pose proof (add_dependency_int_step b c g) as Hs. rewrite H in Hs.
  split; [|done]. rewrite add_dependency_int in H. by injection H as <- _.
Qed.

Lemma mirror_edges_unfold c g :
  mirror_edges c g
  = for_each (elements (from_option external_dependencies ∅ (heap g !! c)))
             (mirror_body c) g.
Proof. reflexivity. Qed.

Lemma mirror_edges_step c g r g' :
  mirror_edges c g = (r, g') -> r = Ok tt ∧ int_step c g g'.
Proof.
  rewrite mirror_edges_unfold. intros H. split.
  - eapply for_each_never_raises; [|exact H].
    intros d g1 r1 g2 Hb. by apply mirror_body_step in Hb as [? _].
  - eapply (for_each_inv (int_step c g)); [|apply int_step_refl|exact H].
    intros d g1 r1 g2 _ Hs Hb. eapply int_step_trans; [done|].
    by apply mirror_body_step in Hb as [_ ?].
Qed.

Lemma int_step_name c g g' x :
  int_step c g g' -> name_of (heap g') x = name_of (heap g) x.
Proof.
  intros (_ & Hlen & Ho). unfold name_of.
  destruct (heap g !! x) as [C|] eqn:HC.
  - destruct (Ho _ _ HC) as (T & -> & _). done.
  - rewrite (lookup_ge_None_2 (heap g')); [done|].
    apply lookup_ge_None in HC. lia.
Qed.

Lemma int_step_lookup c g g' x C' :
  int_step c g g' -> heap g' !! x = Some C' ->
  ∃ C T, heap g !! x = Some C
         ∧ C' = with_sets (external_dependencies C) (T ∪ internal_dependents C) C
         ∧ T ⊆ {[c]}.
Proof.
  intros (_ & Hlen & Ho) HC'.
  destruct (heap g !! x) as [C|] eqn:HC.
  - destruct (Ho _ _ HC) as (T & HC2 & HT). exists C, T. split; [done|].
    split; [congruence|done].
  - apply lookup_ge_None in HC. apply lookup_lt_Some in HC'. lia.
Qed.

Lemma int_step_mirrored c g g' a :
  int_step c g g' -> mirrored g a -> mirrored g' a.
Proof.
  intros Hs Hm A' d b B' HA' Hd Hb HB'.
  destruct (int_step_lookup _ _ _ _ _ Hs HA') as (A & TA & HA & -> & _).
  destruct (int_step_lookup _ _ _ _ _ Hs HB') as (B & TB & HB & -> & _).
  simpl in *. rewrite (int_step_name _ _ _ _ Hs) in Hb.
  destruct Hs as ((Hcomps & _) & _). rewrite Hcomps in Hb.
  apply elem_of_union_r. by eapply Hm.
Qed.

(** After its edges are mirrored, the unit at [c] is mirrored. *)
Lemma mirror_edges_mirrored c g g' :
  mirror_edges c g = (Ok tt, g') -> mirrored g' c.
Proof.
  rewrite mirror_edges_unfold. intros H.
  pose proof (proj2 (mirror_edges_step c g _ _ H)) as Hstep.
  set (Post := fun (d : loc) (g1 : Graph) =>
         ∀ b B, Dict.get (components g1) (name_of (heap g1) d) = Some b ->
                heap g1 !! b = Some B -> c ∈ internal_dependents B).
  assert (True ∧ ∀ d, d ∈ elements (from_option external_dependencies ∅ (heap g !! c))
                      -> Post d g') as [_ Hall].
  { eapply (for_each_post (fun _ => True) Post); [|done|exact H].
    intros d g1 g2 _ _ Hb. split; [done|].
    pose proof (proj2 (mirror_body_step _ _ _ _ _ Hb)) as Hs.
    split.
    - intros b B Hget HB.
      rewrite (int_step_name _ _ _ _ Hs) in Hget.
      destruct Hs as ((Hcomps & _) & _). rewrite Hcomps in Hget.
      unfold mirror_body, bind, read_heap, read_components in Hb. simpl in Hb.
      rewrite Hget in Hb.
      unfold Dict.mem in Hb. unfold Dict.get in Hget.
      rewrite bool_decide_eq_true_2 in Hb by (rewrite Hget; eauto).
      rewrite add_dependency_int in Hb. injection Hb as <-. simpl in HB.
      rewrite list_lookup_alter_eq in HB.
      destruct (heap g1 !! b); simpl in HB; [|done].
      injection HB as <-. simpl. set_solver.
    - intros d' Hd' b B Hget HB.
      destruct (int_step_lookup _ _ _ _ _ Hs HB) as (B0 & T & HB0 & -> & _).
      rewrite (int_step_name _ _ _ _ Hs) in Hget.
      destruct Hs as ((Hcomps & _) & _). rewrite Hcomps in Hget.
      simpl. apply elem_of_union_r. by eapply Hd'. }
  intros C' d b B HC' Hd Hb HB.
  destruct (int_step_lookup _ _ _ _ _ Hstep HC') as (C & T & HC & -> & _).
  simpl in Hd. eapply (Hall d); [|done..].
  rewrite HC. simpl. by apply elem_of_elements.
Qed.

(** Another unit's iteration keeps a unit mirrored. *)
Lemma pass_step_mirrored c g g' a :
  pass_step ignore c g g' -> wf g -> a ≠ c -> mirrored g a -> mirrored g' a.
Proof.
  intros Hs Hwf Hne Hm A' d b B' HA' Hd Hb HB'.
  pose proof Hs as (Hc & (Hcomps & _) & Hlen & Ho & Hw).
  destruct (decide (a < length (heap g))) as [Ha|Ha].
  2:{ destruct (Hw a A') as (_ & He & _); [lia|done|]. set_solver. }
  destruct (lookup_lt_is_Some_2 _ _ Ha) as [A HA].
  destruct (Ho _ _ HA) as (S & T & HA2 & HS & _).
  rewrite HA' in HA2. injection HA2 as ->. simpl in Hd.
  rewrite HS, (left_id_L ∅ (∪)) in Hd by done.
  pose proof (wf_ext _ Hwf _ _ _ HA Hd) as Hdl.
  rewrite (pass_step_name _ _ _ _ _ Hs Hdl), Hcomps in Hb.
  pose proof (wf_comps _ Hwf _ _ Hb) as Hbl.
  destruct (lookup_lt_is_Some_2 _ _ Hbl) as [B HB].
  destruct (Ho _ _ HB) as (SB & TB & HB2 & _).
  rewrite HB' in HB2. injection HB2 as ->. simpl.
  apply elem_of_union_r. by eapply Hm.
Qed.

End PassSteps.

Section Resolution.
Local Open Scope nat_scope.
Variable E : Env.

Lemma elem_of_dict_items {V} (d : dict V) k v :
  (k, v) ∈ Dict.items d -> dstore d !! k = Some v.
Proof.
  unfold Dict.items. intros H. apply list_elem_of_omap in H as (k' & _ & Hk).
  destruct (dstore d !! k') as [v'|] eqn:Hv; simpl in Hk; [|done].
  by injection Hk as -> ->.
Qed.

Lemma dict_set_same {V} (d : dict V) k v :
  dstore d !! k = Some v -> Dict.set k v d = d.
Proof.
  intros Hk. unfold Dict.set, Dict.mem.
  rewrite bool_decide_eq_true_2 by (rewrite Hk; eauto).
  rewrite insert_id by done. by destruct d.
Qed.

Lemma is_ignored_some l m :
  is_ignored (Some l) m
  = match m with Some s => bool_decide (s ∈ l) | None => false end.
Proof.
  unfold is_ignored. destruct m as [s|]; [|by rewrite andb_false_r].
  destruct l as [|a l]; [|done].
  rewrite (bool_decide_eq_false_2 (s ∈ [])) by apply not_elem_of_nil.
  by rewrite andb_false_r.
Qed.

Lemma is_ignored_ext l1 l2 m :
  (∀ s, s ∈ l1 <-> s ∈ l2) -> is_ignored (Some l1) m = is_ignored (Some l2) m.
Proof.
  intros H. rewrite !is_ignored_some. destruct m as [s|]; [|done].
  apply bool_decide_ext, H.
Qed.

(** When [load_dependencies] ends normally and the unit still has no
    outgoing edge, every name it imports is ignored. *)
Lemma load_dependencies_settles ignore c g g1 A1 :
  load_dependencies E c ignore g = (Ok tt, g1) ->
  heap g1 !! c = Some A1 -> external_dependencies A1 = ∅ ->
  ∃ deps, get_dependencies E (comp_path A1) = Ok deps
          ∧ ∀ m, m ∈ deps -> is_ignored ignore m = true.
Proof.
  intros Hrun HA1 Hempty.
  assert (c < length (heap g)) as Hc.
  { destruct (decide (c < length (heap g))); [done|].
    unfold load_dependencies, bind, read in Hrun. simpl in Hrun.
    rewrite (lookup_ge_None_2 (heap g)) in Hrun by lia. simpl in Hrun.
    injection Hrun as <-. apply lookup_lt_Some in HA1. lia. }
  pose proof (load_dependencies_step E ignore c g _ _ Hc Hrun) as Hstep.
  destruct (lookup_lt_is_Some_2 _ _ Hc) as [C HC].
  assert (comp_path A1 = comp_path C ∧ external_dependencies C = ∅) as [Hpath HCe].
  { destruct Hstep as (_ & _ & _ & Ho & _).
    destruct (Ho _ _ HC) as (S & T & HC1 & _). rewrite HA1 in HC1.
    injection HC1 as ->. simpl in *. split; [done|set_solver]. }
  unfold load_dependencies in Hrun.
  apply bind_inv in Hrun as [(oc & g0 & Hread & Hrun)|(e & Hread & ?)]; [|done].
  injection Hread as <- <-. rewrite HC in Hrun. simpl in Hrun.
  rewrite bool_decide_eq_true_2 in Hrun by done. simpl in Hrun.
  apply bind_inv in Hrun as [(deps & g0 & Hdeps & Hrun)|(e & Hdeps & ?)]; [|done].
  unfold lift in Hdeps. injection Hdeps as Hdeps <-.
  exists deps. rewrite Hpath. split; [done|].
  set (Post := fun (m : pyname) (g2 : Graph) =>
         is_ignored ignore m = true
         ∨ ∃ C2, heap g2 !! c = Some C2 ∧ external_dependencies C2 ≠ ∅).
  assert (c < length (heap g1) ∧ ∀ m, m ∈ elements deps -> Post m g1) as [_ Hall].
  { eapply (for_each_post (fun g2 => c < length (heap g2)) Post); [|exact Hc|exact Hrun].
    intros m g2 g3 _ Hc2 Hbody. cbv beta in Hbody.
    pose proof (load_dependencies_body_step E ignore c m g2 _ _ Hc2 Hbody) as Hs.
    split; [destruct Hs as (_ & _ & ? & _); lia|]. split.
    - unfold Post. destruct (is_ignored ignore m) eqn:Hi; [by left|right].
      apply bind_inv in Hbody as [(d & g4 & Hinit & Hbody)|(e & _ & ?)]; [|done].
      rewrite add_dependency_ext in Hbody. injection Hbody as <-. simpl.
      assert (c < length (heap g4)) as Hc4.
      { apply module_component_of_name in Hinit as [(e' & ? & ->)|(p & ? & ->)];
          [done|]. simpl. rewrite length_app. lia. }
      destruct (lookup_lt_is_Some_2 _ _ Hc4) as [C4 HC4].
      eexists. rewrite list_lookup_alter_eq, HC4. split; [done|]. simpl. set_solver.
    - intros m' [Hi|(C2 & HC2 & Hne)]; [by left|right].
      destruct Hs as (_ & _ & _ & Ho & _).
      destruct (Ho _ _ HC2) as (S & T & HC3 & _).
      eexists. split; [done|]. simpl. set_solver. }
  intros m Hm. destruct (Hall m) as [Hi|(C2 & HC2 & Hne)]; [by apply elem_of_elements|done|].
  rewrite HA1 in HC2. by injection HC2 as <-.
Qed.

(** The iteration of the pass for one discovered unit. *)
Lemma resolve_one_spec ignore k c g r g' :
  wf g -> dstore (components g) !! k = Some c ->
  resolve_one E ignore (k, c) g = (r, g') ->
  pass_step (Some ignore) c g g'
  ∧ (r = Ok tt -> settled E (Some ignore) g' c).
Proof.
  intros Hwf Hk Hrun. pose proof (wf_comps _ Hwf _ _ Hk) as Hc.
  unfold resolve_one in Hrun.
  apply bind_inv in Hrun as [([] & g1 & Hload & Hrun)|(e & Hload & ->)].
  2:{ split; [by eapply load_dependencies_step|done]. }
  pose proof (load_dependencies_step E _ c g _ _ Hc Hload) as Hs1.
  assert (components g1 = components g) as Hcomps by apply Hs1.
  unfold bind at 1 in Hrun.
  rewrite Hcomps, dict_set_same, <- Hcomps, set_components_id in Hrun by done.
  destruct (mirror_edges_step c g1 _ _ Hrun) as [-> Hs2].
  assert (c < length (heap g1)) as Hc1 by (destruct Hs1 as (_ & _ & ? & _); lia).
  split.
  - eapply pass_step_trans; [done|]. by apply int_step_pass_step.
  - intros _. split; [by eapply mirror_edges_mirrored|].
    intros A' HA' He.
    destruct (int_step_lookup _ _ _ _ _ Hs2 HA') as (A1 & T & HA1 & -> & _).
    simpl in He. exact (load_dependencies_settles _ _ _ _ _ Hload HA1 He).
Qed.

(** Another unit's iteration keeps a unit settled. *)
Lemma pass_step_settled ignore c g g' a :
  pass_step ignore c g g' -> wf g -> a ≠ c -> a < length (heap g) ->
  settled E ignore g a -> settled E ignore g' a.
Proof.
  intros Hs Hwf Hne Ha [Hm Hdeps]. split; [by eapply pass_step_mirrored|].
  intros A' HA' He.
  destruct Hs as (_ & _ & _ & Ho & _).
  destruct (lookup_lt_is_Some_2 _ _ Ha) as [A HA].
  destruct (Ho _ _ HA) as (S & T & HA2 & _).
  rewrite HA' in HA2. injection HA2 as ->. simpl in He.
  apply (Hdeps A); [done|set_solver].
Qed.

(** The loop of the pass: whatever its outcome, the graph stays well
    formed and the loader's attributes are as before; when it ends
    normally, every discovered unit is settled. *)
Lemma resolve_all_spec ignore g r g' :
  wf g -> resolve_all E ignore g = (r, g') ->
  wf g' ∧ same_loader g g'
  ∧ (r = Ok tt ->
     ∀ k c, (k, c) ∈ Dict.items (components g) -> settled E (Some ignore) g' c).
Proof.
  intros Hwf Hrun. unfold resolve_all in Hrun.
  apply bind_inv in Hrun as [(comps & g0 & Hread & Hrun)|(e & Hread & _)]; [|done].
  injection Hread as <- <-.
  set (Inv := fun g1 : Graph => wf g1 ∧ same_loader g g1).
  assert (∀ kc g1 r1 g2, kc ∈ Dict.items (components g) -> Inv g1 ->
            resolve_one E ignore kc g1 = (r1, g2) ->
            Inv g2 ∧ pass_step (Some ignore) kc.2 g1 g2
            ∧ (r1 = Ok tt -> settled E (Some ignore) g2 kc.2)) as Hone.
  { intros [k c] g1 r1 g2 Hin [Hwf1 Hl1] Hb.
    apply elem_of_dict_items in Hin.
    destruct (resolve_one_spec ignore k c g1 r1 g2) as [Hs Hset]; [done| |done|].
    { destruct Hl1 as (-> & _). done. }
    split; [|done]. split; [by eapply pass_step_wf|].
    eapply same_loader_trans; [done|apply Hs]. }
  assert (Inv g') as [Hwf' Hl'].
  { refine (for_each_inv Inv _ _ _ g r g' _ Hrun); [|by split].
    intros kc g1 r1 g2 Hin HI Hb. by eapply Hone. }
  split; [done|]. split; [done|]. intros ->.
  set (Post := fun (kc : pyname * loc) (g1 : Graph) =>
         kc.2 < length (heap g1) ∧ settled E (Some ignore) g1 kc.2).
  assert (Inv g' ∧ ∀ kc, kc ∈ Dict.items (components g) -> Post kc g') as [_ Hall].
  { refine (for_each_post Inv Post _ _ _ g g' _ Hrun); [|by split].
    intros kc g1 g2 Hin HI Hb.
    destruct (Hone _ _ _ _ Hin HI Hb) as (HI2 & Hs & Hset).
    split; [done|]. split.
    - split; [|by apply Hset]. destruct Hs as (? & _ & ? & _). lia.
    - intros kc' [Hlive Hset']. unfold Post.
      destruct (decide (kc'.2 = kc.2)) as [Heq|Hne].
      + rewrite Heq. split; [|by apply Hset]. destruct Hs as (? & _ & ? & _). lia.
      + split; [destruct Hs as (? & _ & ? & _); lia|].
        eapply pass_step_settled; [done|apply HI|done..]. }
  intros k c Hin. by destruct (Hall _ Hin).
Qed.

(** A pass over settled units changes nothing. *)
Lemma load_dependencies_noop ignore c g :
  (∀ A, heap g !! c = Some A -> external_dependencies A = ∅ ->
     ∃ deps, get_dependencies E (comp_path A) = Ok deps
             ∧ ∀ m, m ∈ deps -> is_ignored ignore m = true) ->
  load_dependencies E c ignore g = (Ok tt, g).
Proof.
  intros Hdeps. unfold load_dependencies, bind, read. simpl.
  destruct (heap g !! c) as [C|] eqn:HC; simpl; [|done].
  destruct (decide (external_dependencies C = ∅)) as [He|He].
  - rewrite bool_decide_eq_true_2 by done. simpl.
    destruct (Hdeps _ eq_refl He) as (deps & -> & Hall). unfold lift.
    apply for_each_skip. intros m Hm.
    rewrite Hall; [done|]. by apply elem_of_elements.
  - by rewrite bool_decide_eq_false_2.
Qed.

Lemma mirror_edges_noop c g :
  mirrored g c -> mirror_edges c g = (Ok tt, g).
Proof.
  intros Hm. rewrite mirror_edges_unfold.
  apply for_each_skip. intros d Hd.
  destruct (heap g !! c) as [C|] eqn:HC; simpl in Hd; [|by apply elem_of_nil in Hd].
  apply elem_of_elements in Hd.
  unfold mirror_body, bind, read_heap, read_components. simpl.
  destruct (Dict.mem _ _); [|done].
  destruct (Dict.get _ _) as [b|] eqn:Hb; [|done].
  rewrite add_dependency_int, alter_fixed, set_heap_id; [done|].
  intros B HB. pose proof (Hm _ _ _ _ HC Hd Hb HB) as Hin.
  rewrite (subseteq_union_1_L {[c]}) by set_solver. apply with_sets_id.
Qed.

Lemma resolve_all_noop ignore g :
  (∀ k c, (k, c) ∈ Dict.items (components g) -> settled E (Some ignore) g c) ->
  resolve_all E ignore g = (Ok tt, g).
Proof.
  intros Hall. unfold resolve_all, bind at 1, read_components.
  apply for_each_skip. intros [k c] Hin.
  destruct (Hall _ _ Hin) as [Hm Hdeps]. unfold resolve_one.
  erewrite bind_ok by (by apply load_dependencies_noop).
  unfold bind at 1.
  rewrite dict_set_same, set_components_id by (by apply elem_of_dict_items).
  by apply mirror_edges_noop.
Qed.

Lemma settled_ext l1 l2 g c :
  (∀ s, s ∈ l1 <-> s ∈ l2) ->
  settled E (Some l1) g c -> settled E (Some l2) g c.
Proof.
  intros Hl [Hm Hdeps]. split; [done|]. intros A HA He.
  destruct (Hdeps _ HA He) as (deps & Hd & Hall). exists deps. split; [done|].
  intros m Hm'. rewrite <- (is_ignored_ext l1 l2) by done. by apply Hall.
Qed.

End Resolution.

(** ** The classification pass *)

Section Classification.
Local Open Scope nat_scope.
Variable E : Env.

Lemma metric_step_name c g g' x :
  metric_step c g g' -> (heap g' !! x) ≫= comp_name = (heap g !! x) ≫= comp_name.
Proof.
  intros (_ & Hlen & Ho & Hself).
  destruct (decide (x = c)) as [->|Hne]; [|by rewrite Ho].
  destruct (heap g !! c) as [C|] eqn:HC.
  - destruct (Hself _ eq_refl) as (C' & -> & Hr). simpl. apply Hr.
  - rewrite (lookup_ge_None_2 (heap g')); [done|].
    apply lookup_ge_None in HC. lia.
Qed.

Lemma metric_step_depend_of c g g' x nm :
  metric_step c g g' -> depend_of (heap g') x nm = depend_of (heap g) x nm.
Proof.
  intros Hs. unfold depend_of.
  assert (external_dependencies <$> heap g' !! x
          = external_dependencies <$> heap g !! x) as Hext.
  { destruct Hs as (_ & Hlen & Ho & Hself).
    destruct (decide (x = c)) as [->|Hne]; [|by rewrite Ho].
    destruct (heap g !! c) as [C|] eqn:HC.
    - destruct (Hself _ eq_refl) as (C' & -> & Hr). simpl. f_equal. apply Hr.
    - rewrite (lookup_ge_None_2 (heap g')); [done|].
      apply lookup_ge_None in HC. lia. }
  destruct (heap g' !! x) as [C'|], (heap g !! x) as [C|]; simpl in Hext; try done.
  injection Hext as ->.
  induction (elements (external_dependencies C)) as [|d l IH]; simpl; [done|].
  by rewrite IH, (metric_step_name _ _ _ _ Hs).
Qed.

Lemma load_classes_unfold c g C name o :
  heap g !! c = Some C ->
  abstract_classes C = [] -> no_abstract_classes C = [] ->
  comp_name C = Some name -> import_module E name = Ok o ->
  load_classes E c g
  = for_each (getmembers E name)
      (fun obj => let! h := read_heap in
                  if qualifies h c obj then add_class c obj (m_isabstract obj)
                  else ret tt) g.
Proof.
  intros HC Ha Hn Hname Himp. unfold load_classes, bind at 1, read. simpl.
  rewrite HC. simpl. rewrite Ha, Hn, Hname. simpl.
  unfold bind at 1, lift. by rewrite Himp.
Qed.

(** A unit that is done is left as it is. *)
Lemma load_classes_noop c g :
  classes_done E g c -> load_classes E c g = (Ok tt, g).
Proof.
  intros Hdone.
  destruct (heap g !! c) as [C|] eqn:HC.
  2:{ unfold load_classes, bind, read. simpl. by rewrite HC. }
  destruct (decide (abstract_classes C = [])) as [Ha|Ha].
  2:{ unfold load_classes, bind, read. simpl. rewrite HC. simpl.
      rewrite (bool_decide_eq_false_2 (abstract_classes C = [])) by done.
      by rewrite orb_true_r. }
  destruct (decide (no_abstract_classes C = [])) as [Hn|Hn].
  2:{ unfold load_classes, bind, read. simpl. rewrite HC. simpl.
      by rewrite (bool_decide_eq_false_2 (no_abstract_classes C = [])). }
  destruct (Hdone _ HC Ha Hn) as (name & Hname & [o Himp] & Hall).
  rewrite (load_classes_unfold _ _ _ _ _ HC Ha Hn Hname Himp).
  apply for_each_skip. intros obj Hobj. unfold bind, read_heap. simpl.
  by rewrite Hall.
Qed.

(** After [load_classes] ended normally, the unit is done. *)
Lemma load_classes_done c g g1 :
  load_classes E c g = (Ok tt, g1) -> classes_done E g1 c.
Proof.
  intros Hrun C1 HC1 Ha1 Hn1.
  pose proof (load_classes_metric_step _ _ _ _ _ Hrun) as Hstep.
  assert (∃ C, heap g !! c = Some C ∧ comp_name C = comp_name C1) as (C & HC & HnameC).
  { destruct Hstep as (_ & Hlen & _ & Hself).
    destruct (heap g !! c) as [C|] eqn:HC.
    - exists C. split; [done|]. destruct (Hself _ eq_refl) as (C' & HC' & Hr).
      rewrite HC1 in HC'. injection HC' as <-. symmetry. apply Hr.
    - apply lookup_ge_None in HC. apply lookup_lt_Some in HC1. lia. }
  assert (abstract_classes C = [] ∧ no_abstract_classes C = []) as [Ha Hn].
  { destruct (decide (abstract_classes C = [])) as [Ha|Ha],
      (decide (no_abstract_classes C = [])) as [Hn|Hn]; [done|..];
      exfalso; unfold load_classes, bind, read in Hrun; simpl in Hrun;
      rewrite HC in Hrun; simpl in Hrun.
    - rewrite (bool_decide_eq_false_2 (no_abstract_classes C = [])) in Hrun by done.
      simpl in Hrun. injection Hrun as <-. rewrite HC in HC1. by injection HC1 as <-.
    - rewrite (bool_decide_eq_false_2 (abstract_classes C = [])) in Hrun by done.
      rewrite orb_true_r in Hrun. injection Hrun as <-.
      rewrite HC in HC1. by injection HC1 as <-.
    - rewrite (bool_decide_eq_false_2 (abstract_classes C = [])) in Hrun by done.
      rewrite orb_true_r in Hrun. injection Hrun as <-.
      rewrite HC in HC1. by injection HC1 as <-. }
  destruct (comp_name C) as [name|] eqn:Hname.
  2:{ unfold load_classes, bind, read in Hrun. simpl in Hrun.
      rewrite HC in Hrun. simpl in Hrun. rewrite Ha, Hn, Hname in Hrun. done. }
  destruct (import_module E name) as [o|e] eqn:Himp.
  2:{ unfold load_classes, bind, read, lift in Hrun. simpl in Hrun.
      rewrite HC in Hrun. simpl in Hrun. rewrite Ha, Hn, Hname in Hrun. simpl in Hrun.
      by rewrite Himp in Hrun. }
  exists name. split; [done|]. split; [by eauto|].
  rewrite (load_classes_unfold _ _ _ _ _ HC Ha Hn Hname Himp) in Hrun.
  set (Post := fun (obj : member) (g2 : Graph) =>
         qualifies (heap g2) c obj = false
         ∨ ∃ C2, heap g2 !! c = Some C2
                 ∧ (abstract_classes C2 ≠ [] ∨ no_abstract_classes C2 ≠ [])).
  assert (c < length (heap g1) ∧ ∀ obj, obj ∈ getmembers E name -> Post obj g1)
    as [_ Hall].
  { refine (for_each_post (fun g2 => c < length (heap g2)) Post _ _ _ g g1 _ Hrun);
      [|by eapply lookup_lt_Some].
    intros obj g2 g3 _ Hc2 Hbody. unfold bind, read_heap in Hbody. simpl in Hbody.
    destruct (qualifies (heap g2) c obj) eqn:Hq.
    - unfold add_class, update in Hbody. injection Hbody as <-. simpl.
      rewrite length_alter. split; [done|].
      destruct (lookup_lt_is_Some_2 _ _ Hc2) as [C2 HC2].
      assert (∃ C3, alter
                (fun c0 => if m_isabstract obj
                 then mkComponent (comp_name c0) (comp_path c0)
                        (external_dependencies c0) (internal_dependents c0)
                        (abstract_classes c0 ++ [obj]) (no_abstract_classes c0)
                        (instability c0) (abstraction c0) (distance c0)
                 else mkComponent (comp_name c0) (comp_path c0)
                        (external_dependencies c0) (internal_dependents c0)
                        (abstract_classes c0) (no_abstract_classes c0 ++ [obj])
                        (instability c0) (abstraction c0) (distance c0))
                c (heap g2) !! c = Some C3
              ∧ (abstract_classes C3 ≠ [] ∨ no_abstract_classes C3 ≠ [])) as Hnow.
      { rewrite list_lookup_alter_eq, HC2. simpl. eexists. split; [done|].
        destruct (m_isabstract obj); simpl; [left|right];
          intros Hnil; by apply app_eq_nil in Hnil as [_ ?]. }
      split; [by right|]. intros b _. by right.
    - injection Hbody as <-. split; [done|]. split; [by left|done]. }
  intros obj Hobj. destruct (Hall _ Hobj) as [?|(C2 & HC2 & [?|?])]; [done|..];
    rewrite HC1 in HC2; by injection HC2 as <-.
Qed.

(** Classifying another unit keeps a unit done. *)
Lemma load_classes_keeps_done c c' g r g1 :
  load_classes E c g = (r, g1) -> c ≠ c' ->
  classes_done E g c' -> classes_done E g1 c'.
Proof.
  intros Hrun Hne Hdone C HC Ha Hn.
  pose proof (load_classes_metric_step _ _ _ _ _ Hrun) as Hstep.
  assert (heap g !! c' = Some C) as HC0.
  { destruct Hstep as (_ & _ & Ho & _). by rewrite <- Ho. }
  destruct (Hdone _ HC0 Ha Hn) as (name & Hname & Himp & Hall).
  exists name. split; [done|]. split; [done|].
  intros obj Hobj. unfold qualifies.
  rewrite (metric_step_depend_of _ _ _ _ _ Hstep). by apply Hall.
Qed.

Lemma _load_classes_idempotent g g1 :
  _load_classes E g = (Ok tt, g1) -> _load_classes E g1 = (Ok tt, g1).
Proof.
  unfold _load_classes at 1. intros Hrun.
  apply bind_inv in Hrun as [(comps & g0 & Hread & Hrun)|(e & Hread & ?)]; [|done].
  injection Hread as <- <-.
  assert (components g1 = components g
          ∧ ∀ c, c ∈ Dict.values (components g) -> classes_done E g1 c) as [Hcomps Hall].
  { refine (for_each_post (fun g2 => components g2 = components g)
              (fun c g2 => classes_done E g2 c) _ _ _ g g1 _ Hrun); [|done].
    intros c g2 g3 _ Hc2 Hbody. split.
    - apply load_classes_metric_step in Hbody as (-> & _). done.
    - split; [by eapply load_classes_done|].
      intros c' Hc'. destruct (decide (c = c')) as [<-|Hne];
        [by eapply load_classes_done|by eapply load_classes_keeps_done]. }
  unfold _load_classes, bind at 1, read_components. rewrite Hcomps.
  apply for_each_skip. intros c Hc. by apply load_classes_noop, Hall.
Qed.

End Classification.

(** ** Discovery *)

(** Discovery keeps a graph well formed, and without edges when it had
    none: the graph it hands to the dependency pass is as the properties
    of that pass require. *)
Lemma discovery_wf E root g r g' :
  _load_components E root g = (r, g') ->
  (wf g -> wf g') ∧ (unresolved g -> unresolved g').
Proof.
  unfold _load_components. intros Hrun.
  refine (for_each_inv (fun g1 => (wf g -> wf g1) ∧ (unresolved g -> unresolved g1))
            _ _ _ g r g' _ Hrun); [|done].
  intros p g1 r1 g2 _ [Hwf Hun] Hb.
  unfold bind at 1 in Hb. rewrite module_component_of_path in Hb.
  unfold bind, read in Hb. simpl in Hb. injection Hb as _ <-. split.
  - intros H0. destruct (Hwf H0) as [Hext Hint Hcs]. split; simpl.
    + intros x C d HC Hd. rewrite length_app. simpl.
      apply lookup_app_Some in HC as [HC|[_ HC]].
      * specialize (Hext _ _ _ HC Hd). lia.
      * apply list_lookup_singleton_Some in HC as [_ <-]. set_solver.
    + intros x C d HC Hd. rewrite length_app. simpl.
      apply lookup_app_Some in HC as [HC|[_ HC]].
      * specialize (Hint _ _ _ HC Hd). lia.
      * apply list_lookup_singleton_Some in HC as [_ <-]. set_solver.
    + intros k a Hk. rewrite length_app. simpl.
      apply lookup_insert_Some in Hk as [[_ <-]|[_ Hk]]; [lia|].
      specialize (Hcs _ _ Hk). lia.
  - intros H0. unfold unresolved. simpl. apply Forall_app. split; [by apply Hun|].
    by repeat constructor.
Qed.

Lemma new_loader_wf root :
  wf (ModuleComponentLoader_init root) ∧ unresolved (ModuleComponentLoader_init root).
Proof.
  split; [split|]; simpl.
  - intros x C d HC. by rewrite lookup_nil in HC.
  - intros x C d HC. by rewrite lookup_nil in HC.
  - intros k a Hk. by rewrite lookup_empty in Hk.
  - constructor.
Qed.

(** ** Edge symmetry and idempotence *)

Lemma load_dependencies_resolve E ignore_arg w r w' :
  _load_dependencies E ignore_arg w = (r, w') ->
  resolve_all E (effective_ignore ignore_arg w) (graph w) = (r, graph w').
Proof.
  unfold _load_dependencies, effective_ignore.
  destruct ignore_arg as [a|]; [destruct (lists w !! a) as [[|x l]|]|]; simpl;
    destruct (resolve_all E _ (graph w)) as [r0 g0]; by intros [= <- <-].
Qed.

Lemma effective_ignore_again E ignore_arg w r w' :
  _load_dependencies E ignore_arg w = (r, w') ->
  ignore_dependencies (graph w') = ignore_dependencies (graph w) ->
  ∀ s, s ∈ effective_ignore ignore_arg w <-> s ∈ effective_ignore ignore_arg w'.
Proof.
  intros Hrun Hign s. unfold effective_ignore. rewrite Hign.
  destruct ignore_arg as [a|]; [|done].
  apply load_dependencies_lists in Hrun.
  destruct (lists w !! a) as [[|x l]|] eqn:Hl.
  - by rewrite Hrun, Hl.
  - rewrite Hrun, list_lookup_insert_eq by (by eapply lookup_lt_Some).
    simpl. set_solver.
  - by rewrite Hrun, Hl.
Qed.

(** C3. After dependency resolution, for discovered units A and B: when A
    has an outgoing edge to B, which means an edge to an object that bears
    the name B is registered under, A is in the incoming set of B. *)
Theorem edge_symmetry (E : Env) (ignore_arg : option nat) (w w' : World) :
  wf (graph w) ->
  _load_dependencies E ignore_arg w = (Ok tt, w') ->
  ∀ ka a kb b A B d,
    (ka, a) ∈ Dict.items (components (graph w')) ->
    Dict.get (components (graph w')) kb = Some b ->
    heap (graph w') !! a = Some A ->
    heap (graph w') !! b = Some B ->
    d ∈ external_dependencies A ->
    name_of (heap (graph w')) d = kb ->
    a ∈ internal_dependents B.
Proof.
  intros Hwf Hrun ka a kb b A B d Ha Hb HA HB Hd Hname.
  apply load_dependencies_resolve in Hrun.
  destruct (resolve_all_spec E _ _ _ _ Hwf Hrun) as (_ & (Hcomps & _) & Hall).
  rewrite Hcomps in Ha. destruct (Hall eq_refl _ _ Ha) as [Hm _].
  eapply Hm; [done..| |done]. by rewrite Hname.
Qed.

(** C4. Each of the two passes is idempotent: run again on the graph it
    has produced, the dependency pass ends normally and leaves the graph
    as it is, and so does the classification pass; the units, and with
    them the metric values computed from them, are those of the first
    run. *)
Theorem passes_idempotent (E : Env) (ignore_arg : option nat) (w w1 : World)
  (g g1 : Graph) :
  wf (graph w) ->
  _load_dependencies E ignore_arg w = (Ok tt, w1) ->
  _load_classes E g = (Ok tt, g1) ->
  (∃ w2, _load_dependencies E ignore_arg w1 = (Ok tt, w2)
         ∧ graph w2 = graph w1
         ∧ get_as_plane E (graph w2) = get_as_plane E (graph w1)
         ∧ ∀ decimals, calculate_main_distance E decimals (graph w2)
                       = calculate_main_distance E decimals (graph w1))
  ∧ _load_classes E g1 = (Ok tt, g1).
Proof.
  intros Hwf Hdeps Hcls. split; [|exact (_load_classes_idempotent E g g1 Hcls)].
  pose proof (load_dependencies_resolve _ _ _ _ _ Hdeps) as Hres.
  destruct (resolve_all_spec E _ _ _ _ Hwf Hres) as (Hwf1 & (Hcomps & Hign & _) & Hall).
  specialize (Hall eq_refl).
  assert (resolve_all E (effective_ignore ignore_arg w1) (graph w1)
          = (Ok tt, graph w1)) as Hnoop.
  { apply resolve_all_noop. intros k c Hin. rewrite Hcomps in Hin.
    apply (settled_ext E (effective_ignore ignore_arg w)); [|by eapply Hall].
    eapply effective_ignore_again; [exact Hdeps|done]. }
  destruct (_load_dependencies E ignore_arg w1) as [r2 w2] eqn:Hrun2.
  pose proof (load_dependencies_resolve _ _ _ _ _ Hrun2) as Hres2.
  rewrite Hnoop in Hres2. injection Hres2 as <- Hg.
  exists w2. rewrite <- Hg. done.
Qed.

(** ** Ignored names *)

Section Ignored.
Local Open Scope nat_scope.
Variable E : Env.

Lemma wf_unresolved g : unresolved g -> registered g -> wf g.
Proof.
  intros Hu Hr. split.
  - intros x C d HC Hd.
    destruct (proj1 (Forall_lookup _ _) Hu _ _ HC) as [He _]. set_solver.
  - intros x C d HC Hd.
    destruct (proj1 (Forall_lookup _ _) Hu _ _ HC) as [_ Hi]. set_solver.
  - intros k a Hk. by apply (Hr k a).
Qed.

Lemma unresolved_no_edge n g : unresolved g -> no_ext_named n g ∧ no_int_named n g.
Proof.
  intros Hu. split; intros x C d HC Hd;
    destruct (proj1 (Forall_lookup _ _) Hu _ _ HC) as [He Hi]; set_solver.
Qed.

Lemma pass_step_new_named ignore c g g' n x C :
  pass_step ignore c g g' -> is_ignored ignore (Some n) = true ->
  length (heap g) ≤ x -> heap g' !! x = Some C -> comp_name C ≠ Some n.
Proof.
  intros (_ & _ & _ & _ & Hw) Hn Hx HC Hname.
  destruct (Hw _ _ Hx HC) as (Hi & _). congruence.
Qed.

Lemma pass_step_no_ext ignore c g g' n :
  pass_step ignore c g g' -> wf g -> is_ignored ignore (Some n) = true ->
  no_ext_named n g -> no_ext_named n g'.
Proof.
  intros Hs Hwf Hn Hno x C' d HC' Hd Hname.
  pose proof Hs as (_ & _ & Hlen & Ho & Hw).
  destruct (decide (x < length (heap g))) as [Hx|Hx].
  2:{ destruct (Hw x C') as (_ & He & _); [lia|done|]. set_solver. }
  destruct (lookup_lt_is_Some_2 _ _ Hx) as [C HC].
  destruct (Ho _ _ HC) as (S & T & HC2 & _ & HS & _).
  rewrite HC' in HC2. injection HC2 as ->. simpl in Hd.
  apply elem_of_union in Hd as [Hd|Hd].
  - apply HS in Hd. unfold name_of in Hname.
    destruct (heap g' !! d) as [D|] eqn:HD; [|done]. simpl in Hname.
    eapply pass_step_new_named; [exact Hs|done| |exact HD|done]. lia.
  - pose proof (wf_ext _ Hwf _ _ _ HC Hd) as Hdl.
    rewrite (pass_step_name _ _ _ _ _ Hs Hdl) in Hname. by eapply Hno.
Qed.

Lemma pass_step_no_int ignore c g g' n :
  pass_step ignore c g g' -> wf g -> name_of (heap g) c ≠ Some n ->
  no_int_named n g -> no_int_named n g'.
Proof.
  intros Hs Hwf Hc Hno x C' d HC' Hd Hname.
  pose proof Hs as (Hcl & _ & Hlen & Ho & Hw).
  assert (d = c ∨ ∃ C, heap g !! x = Some C ∧ d ∈ internal_dependents C) as [->|Hold].
  { destruct (decide (x < length (heap g))) as [Hx|Hx].
    - destruct (lookup_lt_is_Some_2 _ _ Hx) as [C HC].
      destruct (Ho _ _ HC) as (S & T & HC2 & _ & _ & HT).
      rewrite HC' in HC2. injection HC2 as ->. simpl in Hd.
      apply elem_of_union in Hd as [Hd|Hd]; [left; set_solver|right; eauto].
    - destruct (Hw x C') as (_ & _ & Hi); [lia|done|]. left. set_solver. }
  - rewrite (pass_step_name _ _ _ _ _ Hs Hcl) in Hname. done.
  - destruct Hold as (C & HC & HdC).
    pose proof (wf_int _ Hwf _ _ _ HC HdC) as Hdl.
    rewrite (pass_step_name _ _ _ _ _ Hs Hdl) in Hname. by eapply Hno.
Qed.

(** What the loop of the pass keeps, whatever its outcome. *)
Lemma resolve_all_excludes ignore g r g' n :
  wf g -> n ∈ ignore -> resolve_all E ignore g = (r, g') ->
  (∀ x C, length (heap g) ≤ x -> heap g' !! x = Some C -> comp_name C ≠ Some n)
  ∧ (no_ext_named n g -> no_ext_named n g')
  ∧ ((∀ k c, (k, c) ∈ Dict.items (components g) -> name_of (heap g) c ≠ Some n) ->
     no_int_named n g -> no_int_named n g').
Proof.
  intros Hwf Hn Hrun.
  assert (is_ignored (Some ignore) (Some n) = true) as Hign.
  { rewrite is_ignored_some. by apply bool_decide_eq_true_2. }
  unfold resolve_all in Hrun.
  apply bind_inv in Hrun as [(comps & g0 & Hread & Hrun)|(e & Hread & _)]; [|done].
  injection Hread as <- <-.
  set (Inv := fun g1 : Graph =>
    wf g1 ∧ components g1 = components g ∧ length (heap g) ≤ length (heap g1)
    ∧ (∀ x, x < length (heap g) -> name_of (heap g1) x = name_of (heap g) x)
    ∧ (∀ x C, length (heap g) ≤ x -> heap g1 !! x = Some C -> comp_name C ≠ Some n)
    ∧ (no_ext_named n g -> no_ext_named n g1)
    ∧ ((∀ k c, (k, c) ∈ Dict.items (components g) -> name_of (heap g) c ≠ Some n) ->
       no_int_named n g -> no_int_named n g1)).
  assert (Inv g') as (_ & _ & _ & _ & Hnew & Hext & Hint); [|done].
  refine (for_each_inv Inv _ _ _ g r g' _ Hrun).
  2:{ unfold Inv. split_and!; try done. intros x C Hx HC.
      apply lookup_lt_Some in HC. lia. }
  intros [k c] g1 r1 g2 Hin (Hwf1 & Hcomps & Hlen & Hnames & Hnew & Hext & Hint) Hb.
  pose proof (elem_of_dict_items _ _ _ Hin) as Hk.
  destruct (resolve_one_spec E ignore k c g1 r1 g2) as [Hs _]; [done|by rewrite Hcomps|done|].
  pose proof Hs as (Hc1 & (Hcomps2 & _) & Hlen2 & _).
  pose proof (wf_comps _ Hwf _ _ Hk) as Hc.
  unfold Inv. split_and!.
  - by eapply pass_step_wf.
  - congruence.
  - lia.
  - intros x Hx. rewrite (pass_step_name _ _ _ _ _ Hs) by lia. by apply Hnames.
  - intros x C Hx HC. destruct (decide (x < length (heap g1))) as [Hx1|Hx1].
    + destruct (lookup_lt_is_Some_2 _ _ Hx1) as [C1 HC1].
      pose proof (pass_step_name _ _ _ _ x Hs Hx1) as Hnm.
      unfold name_of in Hnm. rewrite HC, HC1 in Hnm. simpl in Hnm.
      rewrite Hnm. by eapply Hnew.
    + eapply pass_step_new_named; [exact Hs|done| |done]. lia.
  - intros H0. eapply pass_step_no_ext; eauto.
  - intros Hdisc H0. eapply pass_step_no_int; [exact Hs|done| |by apply Hint].
    rewrite Hnames by done. by eapply Hdisc.
Qed.

End Ignored.

(** C8 (as the code has it). A name on the ignore list, the caller's
    merged with the loader's, is given no unit by dependency resolution
    and is the target of no outgoing edge, so it counts in no Ce.  It is
    the source of no incoming edge, and counts in no Ca, when it is not the
    name of a discovered unit. *)
Theorem ignored_names_excluded (E : Env) (ignore_arg : option nat) (w w' : World)
  (r : result unit) (n : string) :
  wf (graph w) ->
  no_ext_named n (graph w) -> no_int_named n (graph w) ->
  n ∈ effective_ignore ignore_arg w ->
  _load_dependencies E ignore_arg w = (r, w') ->
  (∀ x C, (length (heap (graph w)) <= x)%nat -> heap (graph w') !! x = Some C ->
          comp_name C ≠ Some n)
  ∧ no_ext_named n (graph w')
  ∧ ((∀ k c, (k, c) ∈ Dict.items (components (graph w)) ->
             name_of (heap (graph w)) c ≠ Some n) ->
     no_int_named n (graph w')).
Proof.
  intros Hwf Hext Hint Hn Hrun. apply load_dependencies_resolve in Hrun.
  destruct (resolve_all_excludes E _ _ _ _ n Hwf Hn Hrun) as (Hnew & He & Hi).
  split_and!; [done|by apply He|]. intros Hdisc. by apply Hi.
Qed.

(** Decide a closed statement by evaluation. *)
Ltac by_compute := refine (bool_decide_unpack _ _); vm_compute; exact I.

Lemma is_raise_inv {A} (r : result A) : is_raise r -> ∃ e, r = Raise e.
Proof. destruct r as [a|e]; [done|]. eauto. Qed.

Lemma run_ok {A S} (p : result A * S) (a : A) : p.1 = Ok a -> p = (Ok a, p.2).
Proof. destruct p as [r s]. simpl. by intros ->. Qed.

(** A unit of the project that is on the ignore list still imports, and
    is counted as an incoming edge of what it imports. *)
Lemma ignored_project_unit_counts_in_Ca :
  ¬ (∀ (E : Env) (ignore_arg : option nat) (w w' : World) (r : result unit)
       (n : string),
       wf (graph w) ->
       no_ext_named n (graph w) -> no_int_named n (graph w) ->
       n ∈ effective_ignore ignore_arg w ->
       _load_dependencies E ignore_arg w = (r, w') ->
       (∀ x C, (length (heap (graph w)) <= x)%nat -> heap (graph w') !! x = Some C ->
               comp_name C ≠ Some n)
       ∧ no_ext_named n (graph w')
       ∧ no_int_named n (graph w')).
Proof.
  intros H.
  assert (unresolved Examples.discovered) as Hu.
  { unfold unresolved. by_compute. }
  assert (registered Examples.discovered) as Hr.
  { unfold registered. by_compute. }
  destruct (unresolved_no_edge "pkg.a" _ Hu) as [Hne Hni].
  destruct (H Examples.env (Some 0%nat) Examples.world_discovered_ignoring_a _ _ "pkg.a"
              (wf_unresolved _ Hu Hr) Hne Hni
              ltac:(by_compute)
              (surjective_pairing _)) as (_ & _ & Hint).
  set (w' := (_load_dependencies Examples.env (Some 0%nat)
                Examples.world_discovered_ignoring_a).2) in *.
  set (B := default (Component_init None None) (heap (graph w') !! 2%nat)).
  apply (Hint 2%nat B 1%nat).
  - subst B w'. by vm_compute.
  - subst B w'. by_compute.
  - subst w'. by vm_compute.
Qed.

(** ** Dependencies that cannot be imported *)

Section Unimportable.
Local Open Scope nat_scope.
Variable E : Env.

Lemma module_component_raises m g :
  m ≠ "" -> is_raise (import_module E m) ->
  ∃ e, ModuleComponent_init E None (Some m) g = (Raise e, g).
Proof.
  intros Hm Hraise. unfold ModuleComponent_init, bind, lift. simpl.
  unfold PyStr.truthy. rewrite (proj2 (String.eqb_neq m "")) by done. simpl.
  unfold _get_path_from_name. destruct (import_module E m) as [o|e]; [done|]. eauto.
Qed.

Lemma load_dependencies_raises ignore c g C deps m :
  heap g !! c = Some C -> external_dependencies C = ∅ ->
  get_dependencies E (comp_path C) = Ok deps ->
  Some m ∈ deps -> m ≠ "" -> is_ignored ignore (Some m) = false ->
  is_raise (import_module E m) ->
  is_raise (load_dependencies E c ignore g).1.
Proof.
  intros HC He Hdeps Hm Hne Hign Hraise.
  unfold load_dependencies, bind at 1, read. simpl. rewrite HC. simpl.
  rewrite bool_decide_eq_true_2 by done. simpl.
  unfold bind at 1, lift. rewrite Hdeps.
  apply (for_each_raises (fun _ => True) _ _ (Some m)); [|  |done|done].
  - by apply elem_of_elements.
  - intros g1 _. rewrite Hign.
    destruct (module_component_raises m g1 Hne Hraise) as [e He'].
    by erewrite bind_raise.
Qed.

Lemma resolve_all_raises ignore g k c C deps m :
  wf g ->
  (k, c) ∈ Dict.items (components g) ->
  heap g !! c = Some C -> external_dependencies C = ∅ ->
  get_dependencies E (comp_path C) = Ok deps ->
  Some m ∈ deps -> m ≠ "" -> m ∉ ignore ->
  is_raise (import_module E m) ->
  is_raise (resolve_all E ignore g).1.
Proof.
  intros Hwf Hin HC He Hdeps Hm Hne Hign Hraise.
  assert (is_ignored (Some ignore) (Some m) = false) as Hign'.
  { rewrite is_ignored_some. by apply bool_decide_eq_false_2. }
  unfold resolve_all, bind at 1, read_components.
  set (P := fun g1 : Graph =>
    wf g1 ∧ components g1 = components g
    ∧ ∃ C1, heap g1 !! c = Some C1 ∧ external_dependencies C1 = ∅
            ∧ comp_path C1 = comp_path C).
  assert (∀ g1, P g1 -> is_raise (resolve_one E ignore (k, c) g1).1) as Hbad.
  { intros g1 (_ & _ & C1 & HC1 & He1 & Hp1). unfold resolve_one.
    pose proof (load_dependencies_raises (Some ignore) c g1 C1 deps m HC1 He1) as Hr.
    rewrite Hp1 in Hr. specialize (Hr Hdeps Hm Hne Hign' Hraise).
    unfold bind at 1. by destruct (load_dependencies E c (Some ignore) g1) as [[[]|e] g2]. }
  apply (for_each_raises P _ _ (k, c)); [done|done| |].
  - intros [k' c'] g1 g2 Hin' HP Hb.
    destruct (decide (c' = c)) as [->|Hc'].
    { exfalso. assert (is_raise (resolve_one E ignore (k', c) g1).1) as Hr.
      { destruct HP as (_ & _ & C1 & HC1 & He1 & Hp1). unfold resolve_one.
        pose proof (load_dependencies_raises (Some ignore) c g1 C1 deps m HC1 He1) as Hr.
        rewrite Hp1 in Hr. specialize (Hr Hdeps Hm Hne Hign' Hraise).
        unfold bind at 1.
        by destruct (load_dependencies E c (Some ignore) g1) as [[[]|e] g3]. }
      by rewrite Hb in Hr. }
    destruct HP as (Hwf1 & Hcomps & C1 & HC1 & He1 & Hp1).
    destruct (resolve_one_spec E ignore k' c' g1 (Ok tt) g2) as [Hs _]; [done| |done|].
    { rewrite Hcomps. by apply elem_of_dict_items. }
    split; [by eapply pass_step_wf|]. split; [destruct Hs as (_ & (? & _) & _); congruence|].
    destruct Hs as (_ & _ & _ & Ho & _).
    destruct (Ho _ _ HC1) as (S & T & HC2 & HS & _).
    eexists. split; [done|]. simpl. rewrite HS by done. split; [set_solver|done].
  - split; [done|]. split; [done|]. eauto.
Qed.

End Unimportable.

(** C9. A unit placed on a dependency name is created by importing that
    name, without any guard: when a unit that has no outgoing edge yet
    imports a name that is not ignored and cannot be imported,
    [load_dependencies] raises, and so does the pass over a graph that
    holds such a unit. *)
Theorem unimportable_dependency_aborts (E : Env) (ignore_arg : option nat)
  (w : World) (k : pyname) (c : loc) (C : Component) (deps : gset pyname)
  (m : string) :
  wf (graph w) ->
  (k, c) ∈ Dict.items (components (graph w)) ->
  heap (graph w) !! c = Some C -> external_dependencies C = ∅ ->
  get_dependencies E (comp_path C) = Ok deps ->
  Some m ∈ deps -> m ≠ "" ->
  is_raise (import_module E m) ->
  (∀ ignore, is_ignored ignore (Some m) = false ->
     is_raise (load_dependencies E c ignore (graph w)).1)
  ∧ (m ∉ effective_ignore ignore_arg w ->
     is_raise (_load_dependencies E ignore_arg w).1).
Proof.
  intros Hwf Hin HC He Hdeps Hm Hne Hraise. split.
  - intros ignore Hign. by eapply load_dependencies_raises.
  - intros Hign.
    destruct (_load_dependencies E ignore_arg w) as [r w'] eqn:Hrun.
    apply load_dependencies_resolve in Hrun.
    pose proof (resolve_all_raises E _ _ _ _ _ _ _ Hwf Hin HC He Hdeps Hm Hne Hign Hraise)
      as Hr.
    by rewrite Hrun in Hr.
Qed.

(** ** The properties on the example project *)

Lemma caches_ok_unmeasured g : unmeasured g -> caches_ok g.
Proof.
  intros Hu x c Hc. pose proof (proj1 (Forall_lookup _ _) Hu _ _ Hc) as H.
  unfold uncached in H.
  destruct (instability c) eqn:Hi, (abstraction c) eqn:Ha, (distance c) eqn:Hd;
    try done.
  unfold cache_ok. rewrite Hi, Ha, Hd. by split_and!.
Qed.

Lemma get_dependencies_records_witness :
  Some "pkg.b" ∈ value_of ∅ (get_dependencies Examples.env
                               (Some (PyPath.of_string "pkg/a.py")))
  ∧ Some "pkg" ∈ value_of ∅ (get_dependencies Examples.env
                               (Some (PyPath.of_string "pkg/a.py"))).
Proof.
  set (deps := value_of ∅ (get_dependencies Examples.env
                             (Some (PyPath.of_string "pkg/a.py")))).
  assert (parse_file Examples.env (PyPath.of_string "pkg/a.py") = Ok Examples.src_a)
    as Hp by (vm_compute; reflexivity).
  assert (get_dependencies Examples.env (Some (PyPath.of_string "pkg/a.py"))
          = Ok deps) as Hrun by (vm_compute; reflexivity).
  destruct (get_dependencies_records _ _ _ Hp) as [_ Hrec].
  destruct (Hrec _ Hrun) as (_ & Hfrom & _).
  assert (ImportFrom (Some "pkg") ["b"; "zz"] ∈ walk Examples.src_a) as Hin.
  { simpl. do 2 apply list_elem_of_further. apply list_elem_of_here. }
  split.
  - destruct (Hfrom _ _ "b" Hin ltac:(apply list_elem_of_here)) as [H _].
    exact H.
  - destruct (Hfrom _ _ "zz" Hin
                ltac:(apply list_elem_of_further, list_elem_of_here)) as [H _].
    exact H.
Defined.

Lemma get_instability_value_witness :
  ∃ v g', get_instability 1%nat (graph Examples.loaded) = (Ok v, g')
          ∧ get_instability 1%nat g' = (Ok v, g').
Proof.
  set (c := default (Component_init None None) (heap (graph Examples.loaded) !! 1%nat)).
  assert (heap (graph Examples.loaded) !! 1%nat = Some c) as Hc
    by (vm_compute; reflexivity).
  assert (instability c = None) as Hi by (vm_compute; reflexivity).
  destruct (get_instability_value 1%nat _ c Hc Hi) as (v & g' & Hrun & _ & _ & Hagain).
  exists v, g'. exact (conj Hrun Hagain).
Defined.

Lemma plane_points_in_range_witness :
  is_Some (Dict.get (value_of Dict.empty
                       (get_as_plane Examples.env (graph Examples.loaded)).1)
                    (Some "pkg.a")).
Proof.
  assert (unmeasured (graph Examples.loaded)) as Hu.
  { unfold unmeasured. by_compute. }
  assert ((get_as_plane Examples.env (graph Examples.loaded)).1
          = Ok (value_of Dict.empty
                  (get_as_plane Examples.env (graph Examples.loaded)).1)) as Hrun
    by (vm_compute; reflexivity).
  assert ((Some "pkg.a", 1%nat) ∈ Dict.items (components (graph Examples.loaded)))
    as Hin by by_compute.
  destruct (plane_points_in_range Examples.env (graph Examples.loaded)
              (caches_ok_unmeasured _ Hu)) as [_ Hplane].
  destruct (Hplane _ _ (run_ok _ _ Hrun)) as [Hkeys _].
  exact (Hkeys _ _ Hin).
Defined.

Lemma measured_cache_ok name a : in_unit a -> cache_ok (Examples.measured name a).
Proof.
  intros Ha. unfold cache_ok, Examples.measured. simpl. split; [|split].
  - intros i [= <-]. split; by vm_compute.
  - by intros a' [= <-].
  - intros v [= <-]. by exists a, 1%Q.
Qed.

Lemma near_tie_caches_ok : caches_ok Examples.near_tie.
Proof.
  assert (in_unit (1 # 8)) as H8 by (split; by vm_compute).
  pose proof zero_in_unit as H0.
  intros x c Hx. unfold Examples.near_tie in Hx. simpl in Hx.
  do 5 (destruct x as [|x]; [injection Hx as <-; by apply measured_cache_ok|]).
  done.
Qed.

Lemma mean_distance_value_witness :
  ∃ ds,
    Forall2 (fun kc dv =>
               get_distance Examples.env kc.2 Examples.near_tie
               = (Ok dv, Examples.near_tie))
            (Dict.items (components Examples.near_tie)) ds
    ∧ to_float (3 # 100) = py_round (float_mean ds) 2
    ∧ ∃ k : Z,
        (Qabs (float_mean ds - mean ds)
         <= (inject_Z (Z.of_nat (length ds)) + 3) * 2 ^ (-53))%Q
        ∧ (Qabs (inject_Z k - float_mean ds * 10 ^ 2) <= 1 # 2)%Q
        ∧ ((Qabs (inject_Z k - float_mean ds * 10 ^ 2) == 1 # 2)%Q
           -> Z.even k = true)
        ∧ to_float (3 # 100) = to_float (inject_Z k / 10 ^ 2)
        ∧ (Qabs (to_float (3 # 100) - inject_Z k / 10 ^ 2)
           <= 2 ^ (-53) + 2 ^ (-1075))%Q
        ∧ (Qabs (to_float (3 # 100) - mean ds)
           <= (1 # 2) / 10 ^ 2 + (inject_Z (Z.of_nat (length ds)) + 5) * 2 ^ (-53))%Q.
Proof.
  assert (calculate_main_distance Examples.env None Examples.near_tie
          = (Ok (to_float (3 # 100)), Examples.near_tie)) as Hrun
    by (vm_compute; reflexivity).
  destruct (mean_distance_value Examples.env None Examples.near_tie)
    as (_ & Hvalue & _).
  destruct (Hvalue _ _ Hrun) as (ds & Hall & Hv & Hbounds).
  exists ds. split; [exact Hall|]. split; [exact Hv|].
  refine (Hbounds near_tie_caches_ok _).
  rewrite <- (Forall2_length _ _ _ Hall). by vm_compute.
Defined.

Lemma discovered_wf : wf Examples.discovered.
Proof.
  apply wf_unresolved; [unfold unresolved|unfold registered]; by_compute.
Qed.

Lemma edge_symmetry_witness :
  1%nat ∈ internal_dependents
            (default (Component_init None None)
                     (heap (graph Examples.resolved) !! 2%nat)).
Proof.
  assert ((_load_dependencies Examples.env (Some 0%nat) Examples.world_discovered).1
          = Ok tt) as Hrun by (vm_compute; reflexivity).
  set (A := default (Component_init None None)
                    (heap (graph Examples.resolved) !! 1%nat)).
  assert ((Some "pkg.a", 1%nat) ∈ Dict.items (components (graph Examples.resolved)))
    as Hin by by_compute.
  assert (Dict.get (components (graph Examples.resolved)) (Some "pkg.b") = Some 2%nat)
    as Hget by (vm_compute; reflexivity).
  assert (heap (graph Examples.resolved) !! 1%nat = Some A) as HA
    by (vm_compute; reflexivity).
  assert (heap (graph Examples.resolved) !! 2%nat
          = Some (default (Component_init None None)
                          (heap (graph Examples.resolved) !! 2%nat))) as HB
    by (vm_compute; reflexivity).
  assert (3%nat ∈ external_dependencies A) as Hd by by_compute.
  assert (name_of (heap (graph Examples.resolved)) 3%nat = Some "pkg.b") as Hname
    by (vm_compute; reflexivity).
  exact (edge_symmetry Examples.env (Some 0%nat) Examples.world_discovered _
           discovered_wf (run_ok _ _ Hrun) _ _ _ _ _ _ _ Hin Hget HA HB Hd Hname).
Defined.

Lemma passes_idempotent_witness :
  _load_classes Examples.env (graph Examples.loaded)
  = (Ok tt, graph Examples.loaded).
Proof.
  assert ((_load_dependencies Examples.env (Some 0%nat) Examples.world_discovered).1
          = Ok tt) as Hdeps by (vm_compute; reflexivity).
  assert ((_load_classes Examples.env
             (graph (_load_dependencies Examples.env (Some 0%nat)
                       Examples.world_discovered).2)).1 = Ok tt) as Hcls
    by (vm_compute; reflexivity).
  assert ((_load_classes Examples.env
             (graph (_load_dependencies Examples.env (Some 0%nat)
                       Examples.world_discovered).2)).2 = graph Examples.loaded) as Heq
    by (vm_compute; reflexivity).
  destruct (passes_idempotent Examples.env (Some 0%nat) Examples.world_discovered _ _ _
              discovered_wf (run_ok _ _ Hdeps) (run_ok _ _ Hcls)) as [_ Hagain].
  by rewrite Heq in Hagain.
Defined.

Lemma ignored_names_excluded_witness :
  wf (graph Examples.world_discovered)
  ∧ no_ext_named "os" (graph Examples.resolved).
Proof.
  assert (unresolved Examples.discovered) as Hu by (unfold unresolved; by_compute).
  destruct (unresolved_no_edge "os" _ Hu) as [Hne Hni].
  destruct (ignored_names_excluded Examples.env (Some 0%nat) Examples.world_discovered
              _ _ "os" discovered_wf Hne Hni ltac:(by_compute) (surjective_pairing _))
    as (_ & H & _).
  exact (conj discovered_wf H).
Defined.

Lemma unimportable_dependency_aborts_witness :
  ∃ e, (_load_dependencies Examples.env_c (Some 0%nat)
          Examples.world_discovered_c).1 = Raise e.
Proof.
  set (g := graph Examples.world_discovered_c).
  set (C := default (Component_init None None) (heap g !! 3%nat)).
  set (deps := value_of ∅ (get_dependencies Examples.env_c (comp_path C))).
  assert (wf g) as Hwf.
  { apply wf_unresolved; [unfold unresolved|unfold registered]; by_compute. }
  assert ((Some "pkg.c", 3%nat) ∈ Dict.items (components g)) as Hin by by_compute.
  assert (heap g !! 3%nat = Some C) as HC by (vm_compute; reflexivity).
  assert (external_dependencies C = ∅) as He by by_compute.
  assert (get_dependencies Examples.env_c (comp_path C) = Ok deps) as Hdeps
    by (vm_compute; reflexivity).
  assert (Some "requests" ∈ deps) as Hm by by_compute.
  assert ("requests" ≠ "") as Hne by by_compute.
  assert (is_raise (import_module Examples.env_c "requests")) as Hraise
    by (vm_compute; exact I).
  destruct (unimportable_dependency_aborts Examples.env_c (Some 0%nat)
              Examples.world_discovered_c _ _ _ _ _ Hwf Hin HC He Hdeps Hm Hne Hraise)
    as [_ H].
  apply is_raise_inv, H. by_compute.
Defined.

(** * Further properties of the code *)

(** ** Which files are discovered *)

Lemma substring_whole s : String.substring 0 (String.length s) s = s.
Proof. induction s as [|a s IH]; simpl; [done|]. by rewrite IH. Qed.

Lemma substring_suffix t p :
  String.substring (String.length t) (String.length p) (t ++ p) = p.
Proof. induction t as [|a t IH]; simpl; [apply substring_whole|done]. Qed.

Lemma substring_cut s i :
  (i <= String.length s)%nat ->
  s = String.substring 0 i s ++ String.substring i (String.length s - i) s.
Proof.
  revert i. induction s as [|a s IH]; intros [|i] Hi; simpl in *; try done; try lia.
  - by rewrite substring_whole.
  - refine (f_equal (String a) (IH i _)). lia.
Qed.

(** [s.endswith(p)] holds exactly of the strings that end in [p]. *)
Lemma endswith_suffix p s : PyStr.endswith p s = true <-> ∃ t, s = t ++ p.
Proof.
  unfold PyStr.endswith. split.
  - intros H. apply andb_true_iff in H as [Hk Heq].
    apply Nat.leb_le in Hk. apply String.eqb_eq in Heq.
    exists (String.substring 0 (String.length s - String.length p) s).
    rewrite (substring_cut s (String.length s - String.length p)) at 1 by lia.
    f_equal. rewrite <- Heq at 3. f_equal. lia.
  - intros [t ->]. rewrite string_length_app.
    apply andb_true_iff. split; [apply Nat.leb_le; lia|].
    replace (String.length t + String.length p - String.length p)%nat
      with (String.length t) by lia.
    rewrite substring_suffix. apply String.eqb_refl.
Qed.

(** X1. The files [get_py_modules] returns are exactly the entries whose
    name ends in [.py] of the directories that [os.walk] lists with an
    [__init__.py] among their files, each as the path of the directory
    joined with the entry.  A directory without the marker file gives
    nothing, whatever it holds; the marker file itself is one of the
    files of its directory. *)
Theorem module_files_of_packages (E : Env) (root : string) (p : Path) :
  p ∈ get_py_modules E root <->
  ∃ dir packages modules stem,
    (dir, packages, modules) ∈ os_walk E root
    ∧ "__init__.py" ∈ modules
    ∧ stem ++ ".py" ∈ modules
    ∧ p = PyPath.of_string (PyPath.os_path_join dir (stem ++ ".py")).
Proof.
  unfold get_py_modules, _find_py_modules.
  rewrite list_elem_of_In, in_flat_map. split.
  - intros ([[dir packages] modules] & Hw & Hp).
    destruct (bool_decide ("__init__.py" ∈ modules)) eqn:Hinit; simpl in Hp; [|done].
    apply bool_decide_eq_true_1 in Hinit.
    apply in_flat_map in Hp as (module & Hm & Hp).
    destruct (PyStr.endswith ".py" module) eqn:Hend; simpl in Hp; [|done].
    destruct Hp as [<-|[]]. apply endswith_suffix in Hend as [stem ->].
    exists dir, packages, modules, stem.
    split_and!; [by apply list_elem_of_In|done|by apply list_elem_of_In|done].
  - intros (dir & packages & modules & stem & Hw & Hinit & Hm & ->).
    exists (dir, packages, modules). rewrite <- list_elem_of_In. split; [done|].
    rewrite bool_decide_eq_true_2 by done. simpl.
    apply in_flat_map. exists (stem ++ ".py"). rewrite <- list_elem_of_In.
    split; [done|].
    assert (PyStr.endswith ".py" (stem ++ ".py") = true) as ->
      by (apply endswith_suffix; eauto).
    by left.
Qed.

(** ** What discovery registers *)

Lemma dict_ok_empty {V} : dict_ok (@Dict.empty V).
Proof.
  split; simpl; [constructor|]. intros k. rewrite lookup_empty. split.
  - intros H. by apply elem_of_nil in H.
  - intros [? ?]. done.
Qed.

Lemma dict_ok_set {V} (d : dict V) k v : dict_ok d -> dict_ok (Dict.set k v d).
Proof.
  intros [Hnd Hk]. unfold Dict.set, Dict.mem.
  destruct (decide (is_Some (dstore d !! k))) as [Hin|Hout].
  - rewrite bool_decide_eq_true_2 by done. split; simpl; [done|].
    intros k'. rewrite lookup_insert_is_Some, Hk.
    destruct (decide (k = k')) as [<-|Hne]; [by intuition|]. by intuition.
  - rewrite bool_decide_eq_false_2 by done. split; simpl.
    + apply NoDup_app. split_and!; [done| |apply NoDup_singleton].
      intros k' Hk' Heq. apply list_elem_of_singleton in Heq as ->.
      by apply Hk in Hk'.
    + intros k'. rewrite elem_of_app, list_elem_of_singleton, lookup_insert_is_Some, Hk.
      destruct (decide (k = k')) as [<-|Hne]; [by intuition|]. by intuition.
Qed.

(** The items of a dictionary are its bindings. *)
Lemma dict_items_lookup {V} (d : dict V) k v :
  dict_ok d -> (k, v) ∈ Dict.items d <-> dstore d !! k = Some v.
Proof.
  intros [_ Hk]. split; [apply elem_of_dict_items|].
  intros Hv. unfold Dict.items. apply list_elem_of_omap. exists k. split.
  - apply Hk. by rewrite Hv.
  - by rewrite Hv.
Qed.

Section Discovery.
Local Open Scope nat_scope.
Variable E : Env.

Local Abbreviation discover := (fun module =>
  let! component := ModuleComponent_init E (Some module) None in
  let! name := read component comp_name None in
  fun g => (Ok tt, set_components (Dict.set name component (components g)) g)).

Lemma discover_step p g :
  discover p g
  = (Ok tt,
     set_components
       (Dict.set (Some (_get_name_from_path p)) (length (heap g)) (components g))
       (set_heap (heap g ++ [unit_of_path p]) g)).
Proof.
  cbv beta. unfold bind at 1. rewrite module_component_of_path.
  unfold bind at 1. unfold read at 1. cbn [heap set_heap].
  by rewrite list_lookup_middle.
Qed.

(** The loop of [_load_components]: it never raises, every file gets a
    new object, and a name is bound to the object of the last file that
    derives it. *)
Lemma discovery_loop ps : ∀ g,
  ∃ g', for_each ps discover g = (Ok tt, g')
    ∧ heap g' = (heap g ++ (unit_of_path <$> ps))%list
    ∧ ignore_dependencies g' = ignore_dependencies g
    ∧ root_path g' = root_path g
    ∧ (dict_ok (components g) -> dict_ok (components g'))
    ∧ (∀ i p, ps !! i = Some p ->
         (∀ j q, i < j -> ps !! j = Some q ->
                 _get_name_from_path q ≠ _get_name_from_path p) ->
         Dict.get (components g') (Some (_get_name_from_path p))
         = Some (length (heap g) + i))
    ∧ (∀ k, (∀ p, p ∈ ps -> k ≠ Some (_get_name_from_path p)) ->
         Dict.get (components g') k = Dict.get (components g) k)
    ∧ (∀ k c, Dict.get (components g') k = Some c ->
         Dict.get (components g) k = Some c
         ∨ ∃ i p, ps !! i = Some p ∧ k = Some (_get_name_from_path p)
                  ∧ c = length (heap g) + i).
Proof.
  induction ps as [|p ps IH]; intros g.
  - exists g. split_and!; try done.
    + by rewrite app_nil_r.
    + intros k c H. by left.
  - cbn [for_each]. erewrite bind_ok by apply discover_step.
    match goal with |- context [for_each ps _ ?g1] =>
      destruct (IH g1) as (g' & Hrun & Hheap & Hi & Hr & Hok & Hlast & Hother & Hkeys)
    end.
    cbn [heap components set_components set_heap ignore_dependencies root_path] in *.
    rewrite length_app in *. cbn [length] in *.
    exists g'. split_and!; try done.
    + by rewrite Hheap, <- app_assoc.
    + intros H. by apply Hok, dict_ok_set.
    + intros [|i] q Hq Hlater; simpl in Hq.
      * injection Hq as ->. rewrite Hother.
        -- rewrite dict_get_set, decide_True by done. f_equal. lia.
        -- intros q' Hq' Heq. apply list_elem_of_lookup in Hq' as [j Hj].
           injection Heq as Heq. by apply (Hlater (S j) q'); [lia|..].
      * rewrite (Hlast i q Hq); [f_equal; lia|].
        intros j q' Hj. apply (Hlater (S j) q'). lia.
    + intros k Hk. rewrite Hother.
      * rewrite dict_get_set, decide_False; [done|].
        intros <-. by apply (Hk p); [left|].
      * intros q Hq. apply Hk. by right.
    + intros k c Hc. apply Hkeys in Hc as [Hc|(i & q & Hq & -> & ->)].
      * rewrite dict_get_set in Hc. destruct (decide _) as [<-|_]; [|by left].
        injection Hc as <-. right. exists 0, p. split_and!; [done..|lia].
      * right. exists (S i), q. split_and!; [done..|lia].
Qed.

Lemma dict_items_set_fresh {V} (d : dict V) k v :
  dict_ok d -> dstore d !! k = None ->
  Dict.items (Dict.set k v d) = (Dict.items d ++ [(k, v)])%list.
Proof.
  intros [_ Hk] Hnone. unfold Dict.items, Dict.set, Dict.mem.
  rewrite bool_decide_eq_false_2 by (rewrite Hnone; by intros [? ?]).
  cbn [dkeys dstore]. rewrite omap_app. f_equal.
  - apply list_omap_ext, Forall2_same_length_lookup_2; [done|].
    intros i k1 k2 H1 H2. assert (k2 = k1) as -> by congruence.
    rewrite lookup_insert_ne; [done|]. intros <-.
    apply list_elem_of_lookup_2, Hk in H1 as [? H1]. congruence.
  - simpl. by rewrite lookup_insert_eq.
Qed.

(** When no two files derive the same name, and none derives a name that
    is bound already, the new bindings come in the order of the files. *)
Lemma discovery_items ps : ∀ g g',
  dict_ok (components g) ->
  NoDup (_get_name_from_path <$> ps) ->
  (∀ p, p ∈ ps -> Dict.get (components g) (Some (_get_name_from_path p)) = None) ->
  for_each ps discover g = (Ok tt, g') ->
  Dict.items (components g')
  = (Dict.items (components g)
     ++ imap (fun i p => (Some (_get_name_from_path p), length (heap g) + i)) ps)%list.
Proof.
  induction ps as [|p ps IH]; intros g g' Hok Hnd Hfresh Hrun.
  - injection Hrun as <-. by rewrite app_nil_r.
  - cbn [for_each] in Hrun. erewrite bind_ok in Hrun by apply discover_step.
    rewrite fmap_cons in Hnd. apply NoDup_cons in Hnd as [Hp Hnd].
    apply IH in Hrun; [| |done|].
    + rewrite Hrun. cbn [heap components set_components set_heap].
      rewrite dict_items_set_fresh; [|done|by apply Hfresh; left].
      rewrite <- app_assoc, imap_cons. f_equal. cbn [app]. f_equal.
      * by rewrite Nat.add_0_r.
      * apply imap_ext. intros i q _. simpl. rewrite length_app. simpl.
        f_equal. lia.
    + by apply dict_ok_set.
    + intros q Hq. cbn [components set_components set_heap].
      rewrite dict_get_set, decide_False; [apply Hfresh; by right|].
      intros [= Heq]. apply Hp. rewrite Heq. by apply list_elem_of_fmap_2.
Qed.

End Discovery.

(** X2. Discovery never raises and imports nothing: whatever the
    interpreter would answer, [_load_components] ends normally, creates
    one unit for every file of [get_py_modules], in that order, each with
    the file as its path, the name derived from the path, no edge, no
    class and no metric, and leaves the ignore list and the root of the
    loader as they were. *)
Theorem discovery_creates_units (E : Env) (root : string) (g : Graph) :
  ∃ g', _load_components E root g = (Ok tt, g')
        ∧ heap g' = (heap g ++ (unit_of_path <$> get_py_modules E root))%list
        ∧ ignore_dependencies g' = ignore_dependencies g
        ∧ root_path g' = root_path g.
Proof.
  destruct (discovery_loop E (get_py_modules E root) g)
    as (g' & Hrun & Hheap & Hi & Hr & _).
  by exists g'.
Qed.

(** X3. When two files derive the same name, the later one silently
    takes the binding: after discovery a derived name is bound to the unit
    of the last file, in the order of [get_py_modules], that derives it.
    The units of the earlier files stay in the heap, reachable under no
    name. *)
Theorem last_file_wins (E : Env) (root : string) (g : Graph) (i : nat) (p : Path) :
  get_py_modules E root !! i = Some p ->
  (∀ j q, (i < j)%nat -> get_py_modules E root !! j = Some q ->
          _get_name_from_path q ≠ _get_name_from_path p) ->
  Dict.get (components (_load_components E root g).2) (Some (_get_name_from_path p))
  = Some (length (heap g) + i)%nat.
Proof.
  intros Hp Hlater.
  destruct (discovery_loop E (get_py_modules E root) g)
    as (g' & Hrun & _ & _ & _ & _ & Hlast & _).
  unfold _load_components. rewrite Hrun. by apply Hlast.
Qed.

(** X4. After discovery on a loader that held no component, every
    registered unit is registered under its own name, that name is the
    one derived from the path of a discovered file, and the unit is a new
    one without edges. *)
Theorem registered_under_own_name (E : Env) (root : string) (g g' : Graph)
    (r : result unit) (k : pyname) (c : loc) :
  components g = Dict.empty ->
  _load_components E root g = (r, g') ->
  (k, c) ∈ Dict.items (components g') ->
  ∃ p, p ∈ get_py_modules E root
       ∧ k = Some (_get_name_from_path p)
       ∧ heap g' !! c = Some (unit_of_path p).
Proof.
  intros Hempty Hrun Hitem. apply elem_of_dict_items in Hitem.
  destruct (discovery_loop E (get_py_modules E root) g)
    as (g1 & Hrun1 & Hheap & _ & _ & _ & _ & _ & Hkeys).
  unfold _load_components in Hrun. rewrite Hrun1 in Hrun. injection Hrun as _ <-.
  apply Hkeys in Hitem as [Hold|(i & p & Hp & -> & ->)].
  { rewrite Hempty in Hold. unfold Dict.get in Hold. simpl in Hold.
    by rewrite lookup_empty in Hold. }
  exists p. split_and!; [by eapply list_elem_of_lookup_2|done|].
  rewrite Hheap, lookup_app_r by lia.
  replace (length (heap g) + i - length (heap g))%nat with i by lia.
  by rewrite list_lookup_fmap, Hp.
Qed.

(** X5. When no two discovered files derive the same name, a loader that
    held no component lists its units in the order of discovery:
    [get_components] returns the new units, one per file, in the order of
    [get_py_modules]. *)
Theorem get_components_in_discovery_order (E : Env) (root : string) (g g' : Graph)
    (r : result unit) :
  components g = Dict.empty ->
  NoDup (_get_name_from_path <$> get_py_modules E root) ->
  _load_components E root g = (r, g') ->
  get_components g' = seq (length (heap g)) (length (get_py_modules E root)).
Proof.
  intros Hempty Hnd Hrun.
  destruct (discovery_loop E (get_py_modules E root) g) as (g1 & Hrun1 & _).
  unfold _load_components in Hrun. rewrite Hrun1 in Hrun. injection Hrun as _ <-.
  apply discovery_items in Hrun1; [|rewrite Hempty; apply dict_ok_empty|done|].
  2:{ intros p _. rewrite Hempty. unfold Dict.get. simpl. apply lookup_empty. }
  unfold get_components, Dict.values. rewrite Hrun1, Hempty. simpl.
  generalize (length (heap g)) as n. generalize (get_py_modules E root) as ps.
  induction ps as [|p ps IH]; intros n; [done|].
  rewrite imap_cons. simpl. f_equal; [lia|].
  rewrite <- (IH (S n)). f_equal. apply imap_ext. intros i q _. simpl.
  f_equal. lia.
Qed.

Lemma last_file_wins_witness :
  Dict.get
    (components (_load_components Clash.env "pkg" (ModuleComponentLoader_init None)).2)
    (Some (_get_name_from_path (PyPath.of_string "pkg/a/__init__.py")))
  = Some (length (heap (ModuleComponentLoader_init None)) + 2)%nat.
Proof.
  apply (last_file_wins Clash.env "pkg" (ModuleComponentLoader_init None) 2).
  - vm_compute. reflexivity.
  - intros j q Hj Hq. apply lookup_lt_Some in Hq.
    assert (length (get_py_modules Clash.env "pkg") = 3%nat) as Hlen
      by (vm_compute; reflexivity).
    lia.
Defined.

Lemma registered_under_own_name_witness :
  ∃ p, p ∈ get_py_modules Examples.env "pkg"
       ∧ Some "pkg.a" = Some (_get_name_from_path p)
       ∧ heap Examples.discovered !! 1%nat = Some (unit_of_path p).
Proof.
  apply (registered_under_own_name Examples.env "pkg"
           (ModuleComponentLoader_init (Some "pkg")) Examples.discovered (Ok tt)
           (Some "pkg.a") 1%nat).
  - reflexivity.
  - apply run_ok. vm_compute. reflexivity.
  - by_compute.
Defined.

Lemma get_components_in_discovery_order_witness :
  get_components Examples.discovered
  = seq (length (heap (ModuleComponentLoader_init (Some "pkg"))))
        (length (get_py_modules Examples.env "pkg")).
Proof.
  apply (get_components_in_discovery_order Examples.env "pkg"
           (ModuleComponentLoader_init (Some "pkg")) Examples.discovered (Ok tt)).
  - reflexivity.
  - by_compute.
  - apply run_ok. vm_compute. reflexivity.
Defined.

(** ** Names and paths *)

Lemma string_app_cons a (s t : string) : String a s ++ t = String a (s ++ t).
Proof. reflexivity. Qed.

Lemma string_app_assoc (s t u : string) : (s ++ t) ++ u = s ++ (t ++ u).
Proof.
  induction s as [|a s IH]; [done|]. by rewrite !string_app_cons, IH.
Qed.

Lemma contains_app c s t :
  PyStr.contains c (s ++ t) = PyStr.contains c s || PyStr.contains c t.
Proof.
  induction s as [|a s IH]; [done|].
  rewrite string_app_cons. simpl. by rewrite IH, orb_assoc.
Qed.

Lemma split_no_sep c s : PyStr.contains c s = false -> PyStr.split c s = [s].
Proof.
  induction s as [|a s IH]; simpl; [done|]. intros H.
  apply orb_false_elim in H as [-> H]. by rewrite IH.
Qed.

Lemma split_app_sep c s t :
  PyStr.contains c s = false ->
  PyStr.split c (s ++ String c t) = s :: PyStr.split c t.
Proof.
  induction s as [|a s IH].
  - simpl. by rewrite Ascii.eqb_refl.
  - rewrite string_app_cons. simpl. intros H.
    apply orb_false_elim in H as [-> H]. by rewrite IH.
Qed.

Lemma split_join l :
  l ≠ [] -> Forall (fun part => PyStr.contains "/" part = false) l ->
  PyStr.split "/" (PyStr.join "/" l) = l.
Proof.
  intros Hne Hall. induction Hall as [|x l Hx Hall IH]; [done|].
  destruct l as [|y l]; [by apply split_no_sep|].
  rewrite join_cons.
  change (x ++ "/" ++ PyStr.join "/" (y :: l))
    with (x ++ String "/" (PyStr.join "/" (y :: l))).
  rewrite split_app_sep by done. by rewrite IH.
Qed.

Lemma join_snoc sep l x :
  l ≠ [] -> PyStr.join sep (l ++ [x]) = PyStr.join sep l ++ sep ++ x.
Proof.
  induction l as [|y l IH]; [done|]. intros _.
  destruct l as [|z l]; [done|].
  change (PyStr.join sep ((y :: z :: l) ++ [x]))
    with (y ++ sep ++ PyStr.join sep ((z :: l) ++ [x])).
  rewrite IH by done. rewrite join_cons. by rewrite !string_app_assoc.
Qed.

Lemma replace_join_dots dir :
  Forall (fun part => PyStr.contains "." part = false) dir ->
  PyStr.replace "." "/" (PyStr.join "." dir) = PyStr.join "/" dir.
Proof.
  induction 1 as [|part dir Hpart _ IH]; [done|].
  destruct dir as [|part' dir]; [by apply replace_absent|].
  rewrite !join_cons, !replace_app, (replace_absent _ _ part), IH by done.
  done.
Qed.

Lemma leading_slashes_other a s :
  a ≠ "/"%char -> PyPath.leading_slashes (String a s) = 0%nat.
Proof.
  intros Ha. destruct a as [[] [] [] [] [] [] [] []]; try reflexivity.
  by destruct Ha.
Qed.

(** A string that starts with a component is a relative path. *)
Lemma parse_root_relative x t :
  x ≠ "" -> PyStr.contains "/" x = false -> PyPath.parse_root (x ++ t) = "".
Proof.
  intros Hx Hc. destruct x as [|a x]; [done|]. simpl in Hc.
  apply orb_false_elim in Hc as [Ha _]. apply Ascii.eqb_neq in Ha.
  unfold PyPath.parse_root.
  change (String a x ++ t) with (String a (x ++ t)).
  by rewrite leading_slashes_other.
Qed.

Lemma join_head x l :
  ∃ t, PyStr.join "/" (x :: l) = x ++ t.
Proof.
  destruct l as [|y l]; [exists ""; simpl|by eexists].
  clear. induction x as [|a x IH]; [done|]. by rewrite string_app_cons, <- IH.
Qed.

(** [Path(s)] for a string made of components and single slashes. *)
Lemma of_string_join l :
  l ≠ [] ->
  Forall path_part l ->
  PyPath.of_string (PyStr.join "/" l) = mkPath "" l.
Proof.
  intros Hne Hall. unfold PyPath.of_string. f_equal.
  - destruct l as [|x l]; [done|]. destruct (join_head x l) as [t ->].
    apply Forall_cons in Hall as [(Hx & _ & Hc) _]. by apply parse_root_relative.
  - rewrite split_join; [|done|by eapply Forall_impl; [exact Hall|]; intros ? (_ & _ & ?)].
    clear Hne. induction Hall as [|x l (Hx & Hdot & _) _ IH]; [done|].
    simpl. unfold PyPath.keep_part at 1.
    apply String.eqb_neq in Hx, Hdot. rewrite Hx, Hdot. simpl. by rewrite IH.
Qed.

Lemma name_part_no_dot s : name_part s -> s ≠ ".".
Proof. intros (_ & Hd & _) ->. done. Qed.

Lemma file_part s :
  name_part s ->
  s ++ ".py" ≠ "" ∧ s ++ ".py" ≠ "." ∧ PyStr.contains "/" (s ++ ".py") = false.
Proof.
  intros (Hs & _ & Hc). split_and!.
  - by destruct s.
  - destruct s as [|a [|b s]]; done.
  - by rewrite contains_app, Hc.
Qed.

Lemma string_app_same_length (s t u : string) :
  String.length s = String.length t -> s ++ u = t ++ u -> s = t.
Proof.
  revert t. induction s as [|a s IH]; intros [|b t] Hlen Heq; try done.
  rewrite !string_app_cons in Heq. injection Heq as -> Heq.
  f_equal. apply IH; [|done]. simpl in Hlen. lia.
Qed.

Lemma string_app_inv_tail (s t u : string) : s ++ u = t ++ u -> s = t.
Proof.
  intros Heq. apply (string_app_same_length s t u); [|done].
  apply (f_equal String.length) in Heq. rewrite !string_length_app in Heq. lia.
Qed.

Lemma not_marker_file s :
  s ≠ "__init__" -> String.eqb "__init__.py" (s ++ ".py") = false.
Proof.
  intros Hs. apply String.eqb_neq. intros Heq. apply Hs.
  by apply (string_app_inv_tail s "__init__" ".py").
Qed.

Lemma stem_py r dir s : s ≠ "" -> PyPath.stem (mkPath r (dir ++ [s ++ ".py"])) = s.
Proof.
  intros Hs. unfold PyPath.stem. rewrite name_snoc, rfind_suffix.
  assert ((0 <? PyStr.len s) && (PyStr.len s <? PyStr.len (s ++ ".py") - 1) = true)
    as ->.
  { unfold PyStr.len. rewrite string_length_app.
    destruct s as [|a s]; [done|].
    apply andb_true_intro. split; apply Z.ltb_lt; simpl String.length; lia. }
  apply take_prefix.
Qed.

Lemma path_part_of_name_part s : name_part s -> path_part s.
Proof.
  intros Hs. destruct (Hs) as (H0 & _ & Hc). split_and!; [done| |done].
  by apply name_part_no_dot.
Qed.

Lemma path_part_file s : s ≠ "" -> PyStr.contains "/" s = false -> path_part (s ++ ".py").
Proof.
  intros Hs Hc. split_and!.
  - by destruct s.
  - destruct s as [|a [|b s]]; done.
  - by rewrite contains_app, Hc.
Qed.

(** X6. The name derived from a file below a relative directory: for the
    marker file [dir/__init__.py] it is the directory with dots for
    slashes, for any other file [dir/s.py] it is that, a dot, and the
    file name without [.py]. *)
Theorem names_of_package_files (dir : list string) (s : string) :
  dir ≠ [] -> Forall path_part dir ->
  s ≠ "" -> PyStr.contains "/" s = false -> s ≠ "__init__" ->
  _get_name_from_path (PyPath.of_string (PyStr.join "/" (dir ++ ["__init__.py"])))
  = PyStr.join "." dir
  ∧ _get_name_from_path (PyPath.of_string (PyStr.join "/" (dir ++ [s ++ ".py"])))
    = PyStr.join "." dir ++ "." ++ s.
Proof.
  intros Hne Hdir Hs Hc Hinit.
  assert (Forall (fun part => PyStr.contains "/" part = false) dir) as Hslash
    by (eapply Forall_impl; [exact Hdir|]; by intros ? (_ & _ & ?)).
  rewrite !of_string_join.
  - split; [by apply name_of_package|by apply name_of_module].
  - by destruct dir.
  - apply Forall_app. split; [done|]. apply Forall_singleton. by apply path_part_file.
  - by destruct dir.
  - apply Forall_app. split; [done|]. apply Forall_singleton.
    by apply (path_part_file "__init__").
Qed.

(** X7. On the file of a module below a package directory the two
    derivations are inverse to each other: the dotted name [dir.s], when
    it imports as a module, gives the path [dir/s.py], and that path
    gives the name back. *)
Theorem module_file_round_trip (E : Env) (dir : list string) (s : string)
    (is_package : bool) :
  dir ≠ [] -> Forall name_part dir -> name_part s -> s ≠ "__init__" ->
  import_module E (PyStr.join "." dir ++ "." ++ s) = Ok (PyModule is_package) ->
  _get_path_from_name E (PyStr.join "." dir ++ "." ++ s)
  = Ok (mkPath "" (dir ++ [s ++ ".py"]))
  ∧ _get_name_from_path (mkPath "" (dir ++ [s ++ ".py"]))
    = PyStr.join "." dir ++ "." ++ s.
Proof.
  intros Hne Hdir Hs Hinit Himp. split.
  - rewrite (get_path_from_name_module _ _ _ Himp). f_equal.
    rewrite !replace_app, replace_join_dots, (replace_absent _ _ s).
    + change (PyStr.replace "." "/" ".") with "/".
      rewrite <- (of_string_join (dir ++ [s ++ ".py"])).
      * f_equal. rewrite join_snoc by done. by rewrite !string_app_assoc.
      * by destruct dir.
      * apply Forall_app. split.
        -- eapply Forall_impl; [exact Hdir|]. apply path_part_of_name_part.
        -- apply Forall_singleton. destruct Hs as (? & _ & ?). by apply path_part_file.
    + by destruct Hs as (_ & ? & _).
    + eapply Forall_impl; [exact Hdir|]. by intros ? (_ & ? & _).
  - apply name_of_module; [done| |by destruct Hs|done].
    eapply Forall_impl; [exact Hdir|]. by intros ? (_ & _ & ?).
Qed.

(** X8. Outside a relative package directory the derived name starts with
    a dot.  A file [s.py] found in the directory [.] gets the name [..s]:
    the parent of [s.py] prints as [.], and the name is that, a dot and
    the stem.  A file with an absolute path gets the dotted directory with
    a dot in front. *)
Theorem names_outside_packages (dir : list string) (s : string) :
  dir ≠ [] -> Forall path_part dir ->
  s ≠ "" -> PyStr.contains "/" s = false -> s ≠ "__init__" ->
  _get_name_from_path (PyPath.of_string (PyPath.os_path_join "." (s ++ ".py")))
  = ".." ++ s
  ∧ _get_name_from_path (mkPath "/" (dir ++ [s ++ ".py"]))
    = "." ++ PyStr.join "." dir ++ "." ++ s.
Proof.
  intros Hne Hdir Hs Hc Hinit. split.
  - assert (PyPath.os_path_join "." (s ++ ".py") = "." ++ String "/" (s ++ ".py"))
      as ->.
    { unfold PyPath.os_path_join, PyStr.startswith.
      destruct s as [|a s]; [done|]. simpl in Hc.
      apply orb_false_elim in Hc as [Ha _]. rewrite string_app_cons.
      change (String.prefix "/" (String a (s ++ ".py")))
        with (if ascii_dec "/"%char a then String.prefix "" (s ++ ".py") else false).
      destruct (ascii_dec "/"%char a) as [<-|_]; [done|]. reflexivity. }
    assert (PyPath.of_string ("." ++ String "/" (s ++ ".py"))
            = mkPath "" ([] ++ [s ++ ".py"])) as ->.
    { unfold PyPath.of_string. f_equal.
      rewrite split_app_sep by done.
      rewrite split_no_sep by (by rewrite contains_app, Hc).
      simpl. destruct (path_part_file s Hs Hc) as (H1 & H2 & _).
      unfold PyPath.keep_part. apply String.eqb_neq in H1, H2.
      by rewrite H1, H2. }
    unfold _get_name_from_path.
    rewrite name_snoc, parent_snoc, not_marker_file, stem_py by done.
    reflexivity.
  - unfold _get_name_from_path.
    rewrite name_snoc, parent_snoc, not_marker_file, stem_py by done.
    unfold PyPath.to_string. cbn [parts root].
    destruct dir as [|x dir]; [done|].
    rewrite replace_app, replace_join by
      (eapply Forall_impl; [exact Hdir|]; by intros ? (_ & _ & ?)).
    change (PyStr.replace "/" "." "/") with ".".
    by rewrite !string_app_assoc.
Qed.

Lemma names_of_package_files_witness :
  _get_name_from_path
    (PyPath.of_string (PyStr.join "/" (["pkg"; "sub"] ++ ["__init__.py"])))
  = PyStr.join "." ["pkg"; "sub"]
  ∧ _get_name_from_path
      (PyPath.of_string (PyStr.join "/" (["pkg"; "sub"] ++ ["mod" ++ ".py"])))
    = PyStr.join "." ["pkg"; "sub"] ++ "." ++ "mod".
Proof.
  apply (names_of_package_files ["pkg"; "sub"] "mod"); try done.
  by repeat constructor.
Defined.

Lemma module_file_round_trip_witness :
  _get_path_from_name Examples.env (PyStr.join "." ["pkg"; "sub"] ++ "." ++ "mod")
  = Ok (mkPath "" (["pkg"; "sub"] ++ ["mod" ++ ".py"]))
  ∧ _get_name_from_path (mkPath "" (["pkg"; "sub"] ++ ["mod" ++ ".py"]))
    = PyStr.join "." ["pkg"; "sub"] ++ "." ++ "mod".
Proof.
  apply (module_file_round_trip Examples.env ["pkg"; "sub"] "mod" false); try done.
  by repeat constructor.
Defined.

Lemma names_outside_packages_witness :
  _get_name_from_path (PyPath.of_string (PyPath.os_path_join "." ("setup" ++ ".py")))
  = ".." ++ "setup"
  ∧ _get_name_from_path (mkPath "/" (["home"; "me"] ++ ["setup" ++ ".py"]))
    = "." ++ PyStr.join "." ["home"; "me"] ++ "." ++ "setup".
Proof.
  apply (names_outside_packages ["home"; "me"] "setup"); try done.
  by repeat constructor.
Defined.

(** ** What [load_classes] records *)

Lemma alter_as_insert {A} (f : A -> A) (l : list A) (i : nat) (a : A) :
  l !! i = Some a -> alter f i l = <[i := f a]> l.
Proof.
  intros Ha. pose proof (lookup_lt_Some _ _ _ Ha) as Hi.
  apply list_eq. intros j. destruct (decide (i = j)) as [<-|Hne].
  - by rewrite list_lookup_alter_eq, list_lookup_insert_eq, Ha.
  - by rewrite list_lookup_alter_ne, list_lookup_insert_ne.
Qed.

Section ClassLists.
Local Open Scope nat_scope.
Variable E : Env.

(** The class lists of a unit play no part in [depend_of]. *)
Lemma depend_of_with_classes h c C abs conc x nm :
  h !! c = Some C ->
  depend_of (<[c := with_classes abs conc C]> h) x nm = depend_of h x nm.
Proof.
  intros HC. pose proof (lookup_lt_Some _ _ _ HC) as Hc.
  assert (∀ d, (<[c := with_classes abs conc C]> h !! d) ≫= comp_name
               = (h !! d) ≫= comp_name) as Hname.
  { intros d. destruct (decide (c = d)) as [<-|Hne].
    - by rewrite list_lookup_insert_eq, HC.
    - by rewrite list_lookup_insert_ne. }
  unfold depend_of. destruct (decide (c = x)) as [<-|Hne].
  - rewrite list_lookup_insert_eq, HC by done. cbn [with_classes external_dependencies].
    induction (elements (external_dependencies C)) as [|d l IH]; simpl; [done|].
    by rewrite IH, Hname.
  - rewrite list_lookup_insert_ne by done. destruct (h !! x) as [X|]; [|done].
    induction (elements (external_dependencies X)) as [|d l IH]; simpl; [done|].
    by rewrite IH, Hname.
Qed.

Local Abbreviation classify c := (fun obj =>
  let! h := read_heap in
  if qualifies h c obj then add_class c obj (m_isabstract obj) else ret tt).

(** The unit with one more class. *)
Local Abbreviation with_class obj C :=
  (if m_isabstract obj
   then with_classes (abstract_classes C ++ [obj]) (no_abstract_classes C) C
   else with_classes (abstract_classes C) (no_abstract_classes C ++ [obj]) C).

Lemma classify_step c obj g h C :
  h !! c = Some C ->
  classify c obj (set_heap h g)
  = (Ok tt, set_heap (if qualifies h c obj then <[c := with_class obj C]> h else h) g).
Proof.
  intros HC. cbv beta. unfold bind, read_heap. cbn [heap set_heap].
  destruct (qualifies h c obj); [|done].
  unfold add_class, update. cbn [heap set_heap].
  rewrite (alter_as_insert _ h c C) by done. by destruct (m_isabstract obj).
Qed.

Lemma classify_loop c g h0 l : ∀ h C,
  h !! c = Some C ->
  (∀ nm, depend_of h c nm = depend_of h0 c nm) ->
  for_each l (classify c) (set_heap h g)
  = (Ok tt,
     set_heap
       (<[c := with_classes
                 (abstract_classes C
                  ++ List.filter m_isabstract (List.filter (qualifies h0 c) l))
                 (no_abstract_classes C
                  ++ List.filter (fun obj => negb (m_isabstract obj))
                       (List.filter (qualifies h0 c) l)) C]> h) g).
Proof.
  induction l as [|obj l IH]; intros h C HC Hdep.
  - simpl. rewrite !app_nil_r. unfold ret. do 2 f_equal.
    rewrite list_insert_id; [done|]. rewrite HC. by destruct C.
  - cbn [for_each]. rewrite (bind_ok _ _ _ _ _ (classify_step c obj g h C HC)).
    assert (qualifies h c obj = qualifies h0 c obj) as ->
      by (unfold qualifies; by rewrite Hdep).
    cbn [List.filter].
    destruct (qualifies h0 c obj); [|by apply IH].
    pose proof (lookup_lt_Some _ _ _ HC) as Hc.
    rewrite (IH (<[c := with_class obj C]> h) (with_class obj C)).
    + rewrite list_insert_insert_eq. do 3 f_equal.
      destruct (m_isabstract obj) eqn:Habs; unfold with_classes; cbn;
        rewrite ?Habs; cbn; by rewrite <- ?app_assoc.
    + by rewrite list_lookup_insert_eq.
    + intros nm. rewrite <- Hdep.
      destruct (m_isabstract obj);
        apply (depend_of_with_classes h c C _ _ c nm HC).
Qed.

End ClassLists.

(** X9. What [load_classes] records.  On a unit without classes whose
    module imports, it ends normally and changes nothing but the class
    lists of that unit: of the members of the module, in the order of
    [inspect.getmembers], those that are classes and are not defined in a
    module the unit has an outgoing edge to; the abstract ones go to
    [abstract_classes], the others to [no_abstract_classes]. *)
Theorem load_classes_records (E : Env) (c : loc) (g : Graph) (C : Component)
    (name : string) (o : pyobj) :
  heap g !! c = Some C ->
  abstract_classes C = [] -> no_abstract_classes C = [] ->
  comp_name C = Some name -> import_module E name = Ok o ->
  load_classes E c g
  = (Ok tt,
     set_heap
       (<[c := with_classes
                 (List.filter m_isabstract
                    (List.filter (qualifies (heap g) c) (getmembers E name)))
                 (List.filter (fun obj => negb (m_isabstract obj))
                    (List.filter (qualifies (heap g) c) (getmembers E name)))
                 C]> (heap g)) g).
Proof.
  intros HC Ha Hn Hname Himp.
  rewrite (load_classes_unfold E c g C name o HC Ha Hn Hname Himp).
  rewrite <- (set_heap_id g) at 1.
  rewrite (classify_loop c g (heap g) _ (heap g) C HC) by done.
  by rewrite Ha, Hn.
Qed.

Lemma load_classes_records_witness :
  ∃ g', load_classes Examples.env 1%nat (graph Examples.resolved) = (Ok tt, g')
        ∧ no_abstract_classes <$> heap g' !! 1%nat
          = Some [mkMember "Impl" true "pkg.a" false]
        ∧ abstract_classes <$> heap g' !! 1%nat = Some [].
Proof.
  set (g := graph Examples.resolved).
  set (C := default (Component_init None None) (heap g !! 1%nat)).
  assert (heap g !! 1%nat = Some C) as HC by (vm_compute; reflexivity).
  assert (abstract_classes C = []) as Ha by (vm_compute; reflexivity).
  assert (no_abstract_classes C = []) as Hn by (vm_compute; reflexivity).
  assert (comp_name C = Some "pkg.a") as Hname by (vm_compute; reflexivity).
  assert (import_module Examples.env "pkg.a" = Ok (PyModule false)) as Himp
    by (vm_compute; reflexivity).
  pose proof (load_classes_records Examples.env 1%nat g C "pkg.a" _
                HC Ha Hn Hname Himp) as Hrun.
  eexists. split; [exact Hrun|]. split; vm_compute; reflexivity.
Defined.

(** ** What [load_dependencies] creates *)

Section NewDependencies.
Local Open Scope nat_scope.
Variable E : Env.
Variable ignore : option (list string).

Local Abbreviation add_one c := (fun module =>
  if is_ignored ignore module then ret tt
  else let! dep_comp := ModuleComponent_init E None module in
       add_dependency c dep_comp false).

(** The unit with more outgoing edges. *)
Local Abbreviation more_edges S :=
  (fun C => with_sets (S ∪ external_dependencies C) (internal_dependents C) C).

Lemma module_component_unit m g :
  ModuleComponent_init E None m g
  = match unit_of_name E m with
    | Ok N => (Ok (length (heap g)), set_heap (heap g ++ [N]) g)
    | Raise e => (Raise e, g)
    end.
Proof.
  unfold ModuleComponent_init, unit_of_name, bind, lift, ret, alloc.
  destruct (name_truthy m); [|done].
  by destruct (_get_path_from_name E (py_str m)).
Qed.

Lemma elem_of_fresh a n d : d ∈ fresh a n <-> a <= d < a + n.
Proof. unfold fresh. rewrite elem_of_list_to_set, elem_of_seq. lia. Qed.

Lemma fresh_S a n : fresh a (S n) = {[a]} ∪ fresh (S a) n.
Proof. apply set_eq. intros d. rewrite elem_of_union, elem_of_singleton, !elem_of_fresh. lia. Qed.

Lemma size_fresh a n : size (fresh a n) = n.
Proof.
  unfold fresh. rewrite size_list_to_set by apply NoDup_seq. apply length_seq.
Qed.

Lemma more_edges_none h c : alter (more_edges (fresh (length h) 0)) c h = h.
Proof.
  apply alter_fixed. intros C _. unfold fresh. simpl.
  rewrite (left_id_L ∅ (∪)). apply with_sets_id.
Qed.

(** The loop of [load_dependencies], however it ends: the names up to the
    one that cannot be imported, if there is one, have been dealt with;
    each of them that is not ignored has got a new unit, and the new units
    are the new outgoing edges of [c]. *)
Lemma add_dependencies_loop c l : ∀ g r g',
  c < length (heap g) ->
  for_each l (add_one c) g = (r, g') ->
  ∃ seen rest news,
    l = (seen ++ rest)%list
    ∧ Forall2 (fun m N => is_ignored ignore m = false ∧ unit_of_name E m = Ok N)
        (List.filter (fun m => negb (is_ignored ignore m)) seen) news
    ∧ heap g'
      = (alter (more_edges (fresh (length (heap g)) (length news))) c (heap g)
         ++ news)%list
    ∧ same_loader g g'
    ∧ match r with
      | Ok _ => rest = []
      | Raise e => ∃ m rest', rest = m :: rest' ∧ is_ignored ignore m = false
                              ∧ unit_of_name E m = Raise e
      end.
Proof.
  induction l as [|m l IH]; intros g r g' Hc Hrun.
  - injection Hrun as <- <-. exists [], [], []. split_and!; try done.
    by rewrite app_nil_r, more_edges_none.
  - cbn [for_each] in Hrun. cbv beta in Hrun.
    destruct (is_ignored ignore m) eqn:Hm.
    { unfold bind at 1 in Hrun. cbn in Hrun.
      destruct (IH _ _ _ Hc Hrun) as (seen & rest & news & -> & Hnews & Hheap & Hl & Hr).
      exists (m :: seen), rest, news. split_and!; try done.
      cbn [List.filter]. by rewrite Hm. }
    unfold bind at 1 in Hrun. unfold bind at 1 in Hrun.
    rewrite module_component_unit in Hrun.
    destruct (unit_of_name E m) as [N|e] eqn:HN.
    2:{ injection Hrun as <- <-. exists [], (m :: l), []. split_and!; try done.
        - by rewrite app_nil_r, more_edges_none.
        - by exists m, l. }
    rewrite add_dependency_ext in Hrun. cbn [heap set_heap] in Hrun.
    rewrite alter_app_l in Hrun by done.
    apply IH in Hrun as (seen & rest & news & -> & Hnews & Hheap & Hl & Hr).
    2:{ cbn [heap set_heap]. rewrite length_app, length_alter. lia. }
    cbn [heap set_heap] in Hheap.
    rewrite length_app, length_alter in Hheap. cbn [length] in Hheap.
    exists (m :: seen), rest, (N :: news). split_and!; try done.
    + cbn [List.filter]. rewrite Hm. cbn [negb]. by constructor.
    + rewrite Hheap. rewrite alter_app_l by (rewrite length_alter; lia).
      rewrite list_alter_alter_eq, <- app_assoc. cbn [app length]. f_equal.
      apply list_alter_ext; [|done..]. intros C _. unfold with_sets, compose.
      cbn [comp_name comp_path external_dependencies internal_dependents
           abstract_classes no_abstract_classes instability abstraction distance].
      f_equal. rewrite Nat.add_1_r, fresh_S. set_solver.
Qed.

Lemma unit_of_name_ok m N :
  unit_of_name E m = Ok N -> ∃ p, N = Component_init p m.
Proof.
  unfold unit_of_name. destruct (name_truthy m).
  - destruct (_get_path_from_name E (py_str m)); intros [= <-]; eauto.
  - intros [= <-]. eauto.
Qed.

Lemma unit_of_name_total m :
  (∃ N, unit_of_name E m = Ok N)
  <-> (name_truthy m = true -> ∃ o, import_module E (py_str m) = Ok o).
Proof.
  unfold unit_of_name, _get_path_from_name. destruct (name_truthy m).
  - destruct (import_module E (py_str m)) as [o|e]; split.
    + eauto.
    + eauto.
    + intros [N HN]. done.
    + intros H. destruct (H eq_refl) as [o Ho]. done.
  - split; [done|eauto].
Qed.

Lemma load_dependencies_unfold c g C deps :
  heap g !! c = Some C -> external_dependencies C = ∅ ->
  get_dependencies E (comp_path C) = Ok deps ->
  load_dependencies E c ignore g = for_each (elements deps) (add_one c) g.
Proof.
  intros HC He Hdeps. unfold load_dependencies, bind at 1, read. simpl.
  rewrite HC. simpl. rewrite bool_decide_eq_true_2 by done. simpl.
  unfold bind at 1, lift. by rewrite Hdeps.
Qed.

(** [load_dependencies], however it ends: new units without edges, none
    with an ignored name, and new outgoing edges of [c] to them. *)
Lemma load_dependencies_shape c g r g' :
  c < length (heap g) ->
  load_dependencies E c ignore g = (r, g') ->
  ∃ news,
    Forall (fun N => ∃ p, N = Component_init p (comp_name N)
                          ∧ is_ignored ignore (comp_name N) = false) news
    ∧ heap g'
      = (alter (more_edges (fresh (length (heap g)) (length news))) c (heap g)
         ++ news)%list
    ∧ same_loader g g'.
Proof.
  intros Hc Hrun.
  assert (∀ g, ∃ news : list Component,
            Forall (fun N => ∃ p, N = Component_init p (comp_name N)
                          ∧ is_ignored ignore (comp_name N) = false) news
            ∧ heap g
              = (alter (more_edges (fresh (length (heap g)) (length news))) c (heap g)
                 ++ news)%list
            ∧ same_loader g g) as Hnone.
  { intros g0. exists []. split_and!; [done| |done].
    by rewrite app_nil_r, more_edges_none. }
  unfold load_dependencies in Hrun.
  apply bind_inv in Hrun as [(oc & g0 & Hread & H)|(e & Hread & _)]; [|done].
  injection Hread as <- <-.
  destruct (heap g !! c) as [C|]; simpl in H; [|injection H as <- <-; apply Hnone].
  destruct (negb _); [injection H as <- <-; apply Hnone|].
  apply bind_inv in H as [(deps & g0 & Hdeps & H)|(e & Hdeps & _)];
    unfold lift in Hdeps; injection Hdeps as _ <-; [|apply Hnone].
  apply add_dependencies_loop in H as (seen & rest & news & _ & Hnews & Hheap & Hl & _);
    [|done].
  exists news. split_and!; [|done..].
  clear Hheap. induction Hnews as [|m N ms news [Hm HN] _ IH]; [done|].
  constructor; [|done].
  apply unit_of_name_ok in HN as [p ->]. by exists p.
Qed.

End NewDependencies.

(** X10. What [load_dependencies] creates.  On a unit without outgoing
    edges whose source gives the names [deps], a call that ends normally
    creates one new unit for every name that is not ignored, in the order
    of the loop, each as [ModuleComponent(name=...)] makes it, and these
    new units are the outgoing edges of the unit; nothing else changes.
    Ce of the unit is then the number of names that are not ignored. *)
Theorem load_dependencies_creates (E : Env) (ignore : option (list string))
    (c : loc) (g g' : Graph) (C : Component) (deps : gset pyname) :
  heap g !! c = Some C -> external_dependencies C = ∅ ->
  get_dependencies E (comp_path C) = Ok deps ->
  load_dependencies E c ignore g = (Ok tt, g') ->
  ∃ news,
    Forall2 (fun m N => unit_of_name E m = Ok N) (kept ignore deps) news
    ∧ heap g'
      = (<[c := with_sets (fresh (length (heap g)) (length news))
                  (internal_dependents C) C]> (heap g) ++ news)%list
    ∧ same_loader g g'
    ∧ Ce (with_sets (fresh (length (heap g)) (length news)) (internal_dependents C) C)
      = Z.of_nat (length (kept ignore deps)).
Proof.
  intros HC He Hdeps Hrun. pose proof (lookup_lt_Some _ _ _ HC) as Hc.
  rewrite (load_dependencies_unfold E ignore c g C deps HC He Hdeps) in Hrun.
  apply add_dependencies_loop in Hrun
    as (seen & rest & news & Hl & Hnews & Hheap & Hsame & ->); [|done].
  rewrite app_nil_r in Hl. subst seen. exists news. split_and!.
  - eapply Forall2_impl; [exact Hnews|]. by intros m N [_ ?].
  - rewrite Hheap, (alter_as_insert _ _ _ _ HC), He.
    by rewrite (right_id_L ∅ (∪)).
  - done.
  - unfold Ce. cbn [with_sets external_dependencies]. rewrite size_fresh.
    f_equal. symmetry. by eapply Forall2_length.
Qed.

(** X11. On a unit without outgoing edges whose source gives the names
    [deps], [load_dependencies] ends normally exactly when every name
    that is not ignored and counts as true can be imported: the unit made
    for a name imports it to derive the path. *)
Theorem load_dependencies_ends_normally (E : Env) (ignore : option (list string))
    (c : loc) (g : Graph) (C : Component) (deps : gset pyname) :
  heap g !! c = Some C -> external_dependencies C = ∅ ->
  get_dependencies E (comp_path C) = Ok deps ->
  (load_dependencies E c ignore g).1 = Ok tt
  <-> ∀ m, m ∈ deps -> is_ignored ignore m = false -> name_truthy m = true ->
           ∃ o, import_module E (py_str m) = Ok o.
Proof.
  intros HC He Hdeps. pose proof (lookup_lt_Some _ _ _ HC) as Hc.
  rewrite (load_dependencies_unfold E ignore c g C deps HC He Hdeps).
  destruct (for_each _ _ g) as [r g'] eqn:Hrun. simpl.
  apply add_dependencies_loop in Hrun
    as (seen & rest & news & Hl & Hnews & _ & _ & Hr); [|done].
  split.
  - intros ->. subst rest. rewrite app_nil_r in Hl. subst seen.
    intros m Hm Hi. apply unit_of_name_total.
    assert (m ∈ List.filter (fun m => negb (is_ignored ignore m)) (elements deps))
      as Hin.
    { apply list_elem_of_In, filter_In. rewrite <- list_elem_of_In, Hi.
      split; [by apply elem_of_elements|done]. }
    apply list_elem_of_lookup in Hin as [i Hin].
    destruct (Forall2_lookup_l _ _ _ _ _ Hnews Hin) as (N & _ & _ & HN). eauto.
  - intros Hall. destruct r as [[]|e]; [done|].
    destruct Hr as (m & rest' & -> & Hi & Hraise).
    assert (m ∈ deps) as Hm.
    { apply elem_of_elements. rewrite Hl. apply elem_of_app. right. by left. }
    destruct (proj2 (unit_of_name_total E m) (Hall m Hm Hi)) as [N HN]. congruence.
Qed.

Lemma load_dependencies_creates_witness :
  ∃ news,
    Forall2 (fun m N => unit_of_name Examples.env m = Ok N)
      (kept (Some ["os"]) (value_of ∅ (get_dependencies Examples.env
         (comp_path (default (Component_init None None)
                       (heap Examples.discovered !! 1%nat)))))) news
    ∧ length news = 2%nat.
Proof.
  set (g := Examples.discovered).
  set (C := default (Component_init None None) (heap g !! 1%nat)).
  set (deps := value_of ∅ (get_dependencies Examples.env (comp_path C))).
  assert (heap g !! 1%nat = Some C) as HC by (vm_compute; reflexivity).
  assert (external_dependencies C = ∅) as He by by_compute.
  assert (get_dependencies Examples.env (comp_path C) = Ok deps) as Hdeps
    by (vm_compute; reflexivity).
  assert (load_dependencies Examples.env 1%nat (Some ["os"]) g
          = (Ok tt, (load_dependencies Examples.env 1%nat (Some ["os"]) g).2))
    as Hrun by (apply run_ok; vm_compute; reflexivity).
  destruct (load_dependencies_creates Examples.env (Some ["os"]) 1%nat g _ C deps
              HC He Hdeps Hrun) as (news & Hnews & _ & _ & Hce).
  exists news. split; [exact Hnews|].
  apply Forall2_length in Hnews. rewrite <- Hnews. vm_compute. reflexivity.
Defined.

Lemma load_dependencies_ends_normally_witness :
  (load_dependencies Examples.env 1%nat (Some ["os"]) Examples.discovered).1 = Ok tt.
Proof.
  set (g := Examples.discovered).
  set (C := default (Component_init None None) (heap g !! 1%nat)).
  set (deps := value_of ∅ (get_dependencies Examples.env (comp_path C))).
  assert (heap g !! 1%nat = Some C) as HC by (vm_compute; reflexivity).
  assert (external_dependencies C = ∅) as He by by_compute.
  assert (get_dependencies Examples.env (comp_path C) = Ok deps) as Hdeps
    by (vm_compute; reflexivity).
  refine (proj2 (load_dependencies_ends_normally Examples.env (Some ["os"]) 1%nat
                   g C deps HC He Hdeps) _).
  intros m Hm _ _. apply elem_of_elements in Hm.
  remember (elements deps) as l eqn:Hl. vm_compute in Hl. subst l.
  repeat (apply elem_of_cons in Hm as [->|Hm]; [eexists; reflexivity|]).
  destruct (not_elem_of_nil _ Hm).
Defined.

(** ** Which objects the dependency pass changes *)

Section Incoming.
Local Open Scope nat_scope.
Variable E : Env.

(** [load_dependencies] leaves incoming sets alone, changes no object but
    its own, and creates pristine units. *)
Lemma load_dependencies_incoming ignore c g r g' :
  c < length (heap g) ->
  load_dependencies E c ignore g = (r, g') ->
  (∀ x C, heap g !! x = Some C ->
     ∃ C', heap g' !! x = Some C'
           ∧ internal_dependents C' = internal_dependents C
           ∧ (x ≠ c -> C' = C))
  ∧ (∀ x C', length (heap g) <= x -> heap g' !! x = Some C' -> pristine C').
Proof.
  intros Hc Hrun.
  destruct (load_dependencies_shape E ignore c g r g' Hc Hrun)
    as (news & Hnews & Hheap & _).
  rewrite Hheap. split.
  - intros x C HC. pose proof (lookup_lt_Some _ _ _ HC) as Hx.
    rewrite lookup_app_l by (by rewrite length_alter).
    destruct (decide (c = x)) as [<-|Hne].
    + rewrite list_lookup_alter_eq, HC. simpl. eexists. split; [done|].
      split; [done|]. by intros [].
    + rewrite list_lookup_alter_ne, HC by done. eexists. split; [done|].
      split; done.
  - intros x C' Hx HC'.
    rewrite lookup_app_r in HC' by (by rewrite length_alter).
    apply list_elem_of_lookup_2 in HC'. rewrite Forall_forall in Hnews.
    destruct (Hnews _ HC') as (p & HC & _). rewrite HC. reflexivity.
Qed.

(** One step of the inner loop of the pass: nothing, or one more incoming
    edge for the unit the name of the target is bound to. *)
Lemma mirror_body_cases c d g r g' :
  mirror_body c d g = (r, g') ->
  r = Ok tt
  ∧ (g' = g
     ∨ ∃ b, Dict.get (components g) (name_of (heap g) d) = Some b
            ∧ g' = set_heap
                     (alter (fun C => with_sets (external_dependencies C)
                                        ({[c]} ∪ internal_dependents C) C)
                            b (heap g)) g).
Proof.
  unfold mirror_body, bind, read_heap, read_components. simpl.
  destruct (Dict.mem _ _); [|intros [= <- <-]; by split; [|left]].
  destruct (Dict.get _ _) as [b|] eqn:Hb; [|intros [= <- <-]; by split; [|left]].
  rewrite add_dependency_int. intros [= <- <-]. split; [done|]. right. by exists b.
Qed.

(** A mirrored edge stays one through the steps of the pass. *)
Lemma mirrors_pass_step ignore c g g' a b :
  wf g -> pass_step ignore c g g' -> mirrors g a b -> mirrors g' a b.
Proof.
  intros Hwf Hs ([k Hk] & A & d & HA & Hd & Hb).
  pose proof Hs as (_ & (Hcomps & _) & _ & Hold & _).
  split; [exists k; by rewrite Hcomps|].
  destruct (Hold _ _ HA) as (S & T & HA' & _).
  eexists _, d. split; [exact HA'|]. split; [simpl; set_solver|].
  rewrite Hcomps, (pass_step_name _ _ _ _ d Hs); [done|].
  by eapply wf_ext.
Qed.

Variable g0 : Graph.
Hypothesis Hwf0 : wf g0.

Lemma pass_inv_start : pass_inv g0 g0.
Proof.
  split; [done|done|done| | |done].
  - intros b B a HB Ha. left. eauto.
  - intros x C Hx HC. apply lookup_lt_Some in HC. lia.
Qed.

Lemma registered_old g k c :
  pass_inv g0 g -> Dict.get (components g) k = Some c ->
  c < length (heap g0) ∧ is_registered g0 c.
Proof.
  intros [_ (Hcomps & _) _ _ _ _] Hk. rewrite Hcomps in Hk.
  split; [by eapply wf_comps|by exists k].
Qed.

Lemma pass_inv_load ignore k c g r g1 :
  pass_inv g0 g -> Dict.get (components g) k = Some c ->
  load_dependencies E c ignore g = (r, g1) -> pass_inv g0 g1.
Proof.
  intros HI Hk Hrun. destruct (registered_old _ _ _ HI Hk) as [Hc0 Hreg].
  destruct HI as [Hwf Hl Hlen Hin Hnew Hold].
  assert (c < length (heap g)) as Hc by lia.
  pose proof (load_dependencies_step E ignore c g r g1 Hc Hrun) as Hs.
  destruct (load_dependencies_incoming ignore c g r g1 Hc Hrun) as [Hkeep Hfresh].
  pose proof Hs as (_ & Hl1 & Hlen1 & _).
  split.
  - by eapply pass_step_wf.
  - by eapply same_loader_trans.
  - lia.
  - intros b B a HB Ha.
    destruct (decide (b < length (heap g))) as [Hb|Hb].
    + destruct (lookup_lt_is_Some_2 _ _ Hb) as [B1 HB1].
      destruct (Hkeep _ _ HB1) as (B' & HB' & Hint & _).
      assert (B' = B) as -> by congruence. rewrite Hint in Ha.
      destruct (Hin _ _ _ HB1 Ha) as [?|Hm]; [by left|right].
      by eapply mirrors_pass_step.
    + assert (pristine B) as HpB by (apply (Hfresh b); [lia|done]).
      rewrite HpB in Ha. simpl in Ha. set_solver.
  - intros x C Hx HC.
    destruct (decide (x < length (heap g))) as [Hlt|Hge].
    + destruct (lookup_lt_is_Some_2 _ _ Hlt) as [C1 HC1].
      destruct (Hkeep _ _ HC1) as (C' & HC' & _ & Hsame).
      assert (C' = C) as -> by congruence.
      rewrite Hsame by lia. by eapply Hnew.
    + apply (Hfresh x); [lia|done].
  - intros x Hx Hlt. rewrite <- Hold by done.
    destruct (lookup_lt_is_Some_2 (heap g) x ltac:(lia)) as [C1 HC1].
    destruct (Hkeep _ _ HC1) as (C' & HC' & _ & Hsame).
    rewrite HC', HC1, Hsame; [done|]. by intros ->.
Qed.

Lemma pass_inv_mirror_body k c A d g r g' :
  pass_inv g0 g -> (k, c) ∈ Dict.items (components g) ->
  heap g !! c = Some A -> d ∈ external_dependencies A ->
  mirror_body c d g = (r, g') ->
  pass_inv g0 g'
  ∧ ∃ A', heap g' !! c = Some A'
          ∧ external_dependencies A' = external_dependencies A.
Proof.
  intros HI Hk HA Hd Hrun.
  destruct (mirror_body_step c d g r g' Hrun) as [_ Hs].
  apply mirror_body_cases in Hrun as [_ [->|(b & Hb & ->)]]; [by eauto|].
  destruct (registered_old _ _ _ HI Hb) as [Hb0 Hreg].
  pose proof (lookup_lt_Some _ _ _ HA) as Hc.
  apply (int_step_pass_step None) in Hs; [|done].
  assert (mirrors g c b) as Hcb.
  { split; [by exists k|]. by exists A, d. }
  destruct HI as [Hwf Hl Hlen Hin Hnew Hold].
  pose proof Hs as (_ & Hl1 & Hlen1 & _).
  split.
  - split.
    + by eapply pass_step_wf.
    + by eapply same_loader_trans.
    + lia.
    + intros b' B' a HB' Ha. cbn [heap set_heap] in HB'.
      destruct (decide (b = b')) as [<-|Hne].
      * rewrite list_lookup_alter_eq in HB'.
        destruct (heap g !! b) as [B|] eqn:HB; [|done].
        injection HB' as <-. simpl in Ha.
        apply elem_of_union in Ha as [Ha|Ha].
        -- apply elem_of_singleton in Ha as ->. right.
           by eapply mirrors_pass_step.
        -- destruct (Hin _ _ _ HB Ha) as [?|Hm]; [by left|right].
           by eapply mirrors_pass_step.
      * rewrite list_lookup_alter_ne in HB' by done.
        destruct (Hin _ _ _ HB' Ha) as [?|Hm]; [by left|right].
        by eapply mirrors_pass_step.
    + intros x C Hx HC. cbn [heap set_heap] in HC.
      rewrite list_lookup_alter_ne in HC by lia. by eapply Hnew.
    + intros x Hx Hlt. cbn [heap set_heap].
      rewrite list_lookup_alter_ne; [by apply Hold|]. by intros ->.
  - cbn [heap set_heap]. destruct (decide (b = c)) as [->|Hne].
    + rewrite list_lookup_alter_eq, HA. simpl. eauto.
    + rewrite list_lookup_alter_ne, HA by done. eauto.
Qed.

Lemma pass_inv_mirror_edges k c g r g' :
  pass_inv g0 g -> (k, c) ∈ Dict.items (components g) ->
  mirror_edges c g = (r, g') -> pass_inv g0 g'.
Proof.
  intros HI Hk Hrun. rewrite mirror_edges_unfold in Hrun.
  destruct (heap g !! c) as [A|] eqn:HA.
  2:{ simpl in Hrun. rewrite elements_empty in Hrun. by injection Hrun as _ <-. }
  simpl in Hrun.
  refine (proj1 (for_each_inv
            (fun g1 => pass_inv g0 g1
               ∧ components g1 = components g
               ∧ ∃ A1, heap g1 !! c = Some A1
                       ∧ external_dependencies A1 = external_dependencies A)
            _ _ _ g r g' _ Hrun)); [|by eauto].
  intros d g1 r1 g2 Hd (HI1 & Hcomps & A1 & HA1 & Hext) Hb.
  apply elem_of_elements in Hd. rewrite <- Hext in Hd. rewrite <- Hcomps in Hk.
  destruct (pass_inv_mirror_body k c A1 d g1 r1 g2 HI1 Hk HA1 Hd Hb)
    as (HI2 & A2 & HA2 & Hext2).
  split; [done|]. split.
  - destruct (mirror_body_step c d g1 r1 g2 Hb) as [_ (Hl & _)].
    rewrite <- Hcomps. apply Hl.
  - exists A2. split; [done|]. congruence.
Qed.

Lemma pass_inv_resolve_one ignore k c g r g' :
  pass_inv g0 g -> (k, c) ∈ Dict.items (components g) ->
  resolve_one E ignore (k, c) g = (r, g') -> pass_inv g0 g'.
Proof.
  intros HI Hk Hrun. pose proof (elem_of_dict_items _ _ _ Hk) as Hget.
  unfold resolve_one in Hrun.
  apply bind_inv in Hrun as [([] & g1 & Hload & Hrun)|(e & Hload & ->)].
  2:{ by eapply pass_inv_load. }
  pose proof (pass_inv_load _ _ _ _ _ _ HI Hget Hload) as HI1.
  assert (components g1 = components g) as Hcomps.
  { destruct HI as [_ (H1 & _) _ _ _ _], HI1 as [_ (H2 & _) _ _ _ _]. congruence. }
  unfold bind at 1 in Hrun.
  rewrite Hcomps, dict_set_same, <- Hcomps, set_components_id in Hrun by done.
  eapply pass_inv_mirror_edges; [done| |done]. by rewrite Hcomps.
Qed.

Lemma pass_inv_resolve_all ignore r g' :
  resolve_all E ignore g0 = (r, g') -> pass_inv g0 g'.
Proof.
  intros Hrun. unfold resolve_all in Hrun.
  apply bind_inv in Hrun as [(comps & g1 & Hread & Hrun)|(e & Hread & _)]; [|done].
  injection Hread as <- <-.
  refine (for_each_inv (pass_inv g0) _ _ _ g0 r g' pass_inv_start Hrun).
  intros [k c] g1 r1 g2 Hin HI Hb.
  eapply pass_inv_resolve_one; [done| |done].
  destruct HI as [_ (-> & _) _ _ _ _]. done.
Qed.

End Incoming.

(** X12. Every incoming edge mirrors an outgoing one.  However the
    dependency pass ends, an incoming edge of a unit [b] from [a] that was
    not there before the pass was put there for an outgoing edge: [a] is
    one of the registered units, and it has an outgoing edge to an object
    whose name is bound to [b].  Together with C3 this makes the incoming
    sets the exact mirror of the outgoing edges between discovered units. *)
Theorem incoming_edges_mirror_outgoing (E : Env) (ignore_arg : option nat)
    (w w' : World) (r : result unit) (b a : loc) (B : Component) :
  wf (graph w) ->
  _load_dependencies E ignore_arg w = (r, w') ->
  heap (graph w') !! b = Some B -> a ∈ internal_dependents B ->
  (∃ B0, heap (graph w) !! b = Some B0 ∧ a ∈ internal_dependents B0)
  ∨ mirrors (graph w') a b.
Proof.
  intros Hwf Hrun HB Ha. apply load_dependencies_resolve in Hrun.
  apply (pass_inv_resolve_all E (graph w) Hwf) in Hrun.
  by eapply pi_in.
Qed.

(** X13. The dependency pass changes registered units only.  However it
    ends, an object that was in the heap without being registered is as
    it was, and an object the pass has created is as its constructor left
    it, with no edge in either direction, so that its Ce and Ca are 0, and
    it is not registered. *)
Theorem pass_changes_registered_units_only (E : Env) (ignore_arg : option nat)
    (w w' : World) (r : result unit) :
  wf (graph w) ->
  _load_dependencies E ignore_arg w = (r, w') ->
  (∀ x, ¬ is_registered (graph w) x -> (x < length (heap (graph w)))%nat ->
        heap (graph w') !! x = heap (graph w) !! x)
  ∧ (∀ x C, (length (heap (graph w)) <= x)%nat -> heap (graph w') !! x = Some C ->
        pristine C ∧ Ce C = 0 ∧ Ca C = 0 ∧ ¬ is_registered (graph w') x).
Proof.
  intros Hwf Hrun. apply load_dependencies_resolve in Hrun.
  apply (pass_inv_resolve_all E (graph w) Hwf) in Hrun.
  destruct Hrun as [_ (Hcomps & _) _ _ Hnew Hold].
  split; [exact Hold|].
  intros x C Hx HC. pose proof (Hnew x C Hx HC) as Hp. split_and!; [done| | |].
  - rewrite Hp. reflexivity.
  - rewrite Hp. reflexivity.
  - intros [k Hk]. rewrite Hcomps in Hk. apply (wf_comps _ Hwf) in Hk. lia.
Qed.

Lemma incoming_edges_mirror_outgoing_witness :
  (∃ B0, heap (graph Examples.world_discovered) !! 2%nat = Some B0
         ∧ 1%nat ∈ internal_dependents B0)
  ∨ mirrors (graph Examples.resolved) 1%nat 2%nat.
Proof.
  set (B := default (Component_init None None)
              (heap (graph Examples.resolved) !! 2%nat)).
  assert (_load_dependencies Examples.env (Some 0%nat) Examples.world_discovered
          = (Ok tt, Examples.resolved)) as Hrun
    by (apply run_ok; vm_compute; reflexivity).
  assert (heap (graph Examples.resolved) !! 2%nat = Some B) as HB
    by (vm_compute; reflexivity).
  assert (1%nat ∈ internal_dependents B) as Ha by by_compute.
  exact (incoming_edges_mirror_outgoing Examples.env (Some 0%nat)
           Examples.world_discovered Examples.resolved (Ok tt) 2%nat 1%nat B
           discovered_wf Hrun HB Ha).
Defined.

Lemma pass_changes_registered_units_only_witness :
  pristine (default (Component_init None None)
              (heap (graph Examples.resolved) !! 3%nat))
  ∧ Ce (default (Component_init None None)
          (heap (graph Examples.resolved) !! 3%nat)) = 0
  ∧ Ca (default (Component_init None None)
          (heap (graph Examples.resolved) !! 3%nat)) = 0
  ∧ ¬ is_registered (graph Examples.resolved) 3%nat.
Proof.
  set (C := default (Component_init None None)
              (heap (graph Examples.resolved) !! 3%nat)).
  assert (_load_dependencies Examples.env (Some 0%nat) Examples.world_discovered
          = (Ok tt, Examples.resolved)) as Hrun
    by (apply run_ok; vm_compute; reflexivity).
  assert (heap (graph Examples.resolved) !! 3%nat = Some C) as HC
    by (vm_compute; reflexivity).
  assert (length (heap (graph Examples.world_discovered)) <= 3)%nat as Hlen
    by by_compute.
  exact (proj2 (pass_changes_registered_units_only Examples.env (Some 0%nat)
                  Examples.world_discovered Examples.resolved (Ok tt)
                  discovered_wf Hrun) 3%nat C Hlen HC).
Defined.

(** ** What requests and classification leave alone *)

Lemma only_metrics_refl g : only_metrics g g.
Proof.
  split; [done|]. split; [done|]. intros x C HC. exists C.
  split; [done|apply metric_rel_refl].
Qed.

Lemma only_metrics_trans g1 g2 g3 :
  only_metrics g1 g2 -> only_metrics g2 g3 -> only_metrics g1 g3.
Proof.
  intros (Hc1 & Hl1 & H1) (Hc2 & Hl2 & H2). split; [congruence|].
  split; [congruence|]. intros x C HC.
  destruct (H1 _ _ HC) as (C' & HC' & Hr1).
  destruct (H2 _ _ HC') as (C'' & HC'' & Hr2).
  exists C''. split; [done|by eapply metric_rel_trans].
Qed.

Lemma metric_step_only_metrics self g g' : metric_step self g g' -> only_metrics g g'.
Proof.
  intros (Hc & Hl & Ho & Hs). split; [done|]. split; [done|].
  intros x C HC. destruct (decide (x = self)) as [->|Hne]; [by apply Hs|].
  exists C. rewrite Ho by done. split; [done|apply metric_rel_refl].
Qed.

Lemma get_instability_only_metrics c g r g' :
  get_instability c g = (r, g') -> only_metrics g g'.
Proof.
  intros Hrun. destruct (get_instability_spec c g) as (v & g1 & Hv & Hs & _).
  rewrite Hv in Hrun. injection Hrun as _ <-. by eapply metric_step_only_metrics.
Qed.

Lemma as_plane_loop_only_metrics E items : ∀ acc g r g',
  as_plane_loop E items acc g = (r, g') -> only_metrics g g'.
Proof.
  induction items as [|[k c] items IH]; simpl; intros acc g r g' Hrun.
  - injection Hrun as _ <-. apply only_metrics_refl.
  - apply bind_inv in Hrun as [(x & g1 & Hx & Hrun)|(e & Hx & _)];
      apply get_instability_only_metrics in Hx; [|done].
    eapply only_metrics_trans; [exact Hx|].
    apply bind_inv in Hrun as [(y & g2 & Hy & Hrun)|(e & Hy & _)];
      apply get_abstraction_spec in Hy as [Hy _];
      apply metric_step_only_metrics in Hy; [|done].
    eapply only_metrics_trans; [exact Hy|].
    apply bind_inv in Hrun as [(v & g3 & Hv & Hrun)|(e & Hv & _)];
      apply get_distance_spec in Hv as [Hv _];
      apply metric_step_only_metrics in Hv; [|done].
    eapply only_metrics_trans; [exact Hv|]. by eapply IH.
Qed.

Lemma collect_distances_only_metrics E items : ∀ acc g r g',
  collect_distances E items acc g = (r, g') -> only_metrics g g'.
Proof.
  induction items as [|[k c] items IH]; simpl; intros acc g r g' Hrun.
  - injection Hrun as _ <-. apply only_metrics_refl.
  - apply bind_inv in Hrun as [(v & g3 & Hv & Hrun)|(e & Hv & _)];
      apply get_distance_spec in Hv as [Hv _];
      apply metric_step_only_metrics in Hv; [|done].
    eapply only_metrics_trans; [exact Hv|]. by eapply IH.
Qed.

Lemma get_as_plane_only_metrics E g r g' :
  get_as_plane E g = (r, g') -> only_metrics g g'.
Proof.
  unfold get_as_plane. intros Hrun.
  apply bind_inv in Hrun as [(comps & g1 & Hread & Hrun)|(e & Hread & _)]; [|done].
  injection Hread as <- <-. by eapply as_plane_loop_only_metrics.
Qed.

Lemma calculate_main_distance_only_metrics E decimals g r g' :
  calculate_main_distance E decimals g = (r, g') -> only_metrics g g'.
Proof.
  intros Hrun.
  apply calculate_main_distance_run in Hrun as [(ds & Hds & _)|(e & Hds & _)];
    by apply collect_distances_only_metrics in Hds.
Qed.

Lemma _load_classes_only_metrics E g r g' :
  _load_classes E g = (r, g') -> only_metrics g g'.
Proof.
  unfold _load_classes. intros Hrun.
  apply bind_inv in Hrun as [(comps & g1 & Hread & Hrun)|(e & Hread & _)]; [|done].
  injection Hread as <- <-.
  refine (for_each_inv (only_metrics g) _ _ _ g r g' (only_metrics_refl g) Hrun).
  intros c g1 r1 g2 _ H1 Hb. eapply only_metrics_trans; [done|].
  by eapply metric_step_only_metrics, load_classes_metric_step.
Qed.

(** X14. Requests and classification leave the dependency graph alone.
    However they end, [get_as_plane], [calculate_main_distance] and
    [_load_classes] keep every object with its name, its path and its two
    sets of edges, keep the registered names, and replace no metric value
    that was cached; only class lists and caches are filled in. *)
Theorem requests_leave_edges (E : Env) (g g' : Graph) :
  (∀ r, get_as_plane E g = (r, g') -> only_metrics g g')
  ∧ (∀ decimals r, calculate_main_distance E decimals g = (r, g') ->
       only_metrics g g')
  ∧ (∀ r, _load_classes E g = (r, g') -> only_metrics g g').
Proof.
  split_and!.
  - intros r. apply get_as_plane_only_metrics.
  - intros decimals r. apply calculate_main_distance_only_metrics.
  - intros r. apply _load_classes_only_metrics.
Qed.

(** ** The graph that [load_components] builds *)

Lemma only_metrics_lookup g g' x C' :
  only_metrics g g' -> heap g' !! x = Some C' ->
  ∃ C, heap g !! x = Some C ∧ metric_rel C C'.
Proof.
  intros (_ & Hl & H) HC'. pose proof (lookup_lt_Some _ _ _ HC') as Hx.
  rewrite Hl in Hx. destruct (lookup_lt_is_Some_2 _ _ Hx) as [C HC].
  destruct (H _ _ HC) as (C'' & HC'' & Hr). exists C. split; [done|]. congruence.
Qed.

Lemma only_metrics_name g g' d :
  only_metrics g g' -> name_of (heap g') d = name_of (heap g) d.
Proof.
  intros (_ & Hl & H). unfold name_of. destruct (heap g !! d) as [D|] eqn:HD.
  - destruct (H _ _ HD) as (D' & -> & Hr). simpl. apply Hr.
  - rewrite (lookup_ge_None_2 (heap g')); [done|].
    apply lookup_ge_None in HD. lia.
Qed.

Lemma only_metrics_mirrors g g' a b :
  only_metrics g g' -> mirrors g a b <-> mirrors g' a b.
Proof.
  intros Hs. pose proof Hs as (Hc & _ & H). unfold mirrors. rewrite Hc. split.
  - intros (Hk & A & d & HA & Hd & Hb). split; [done|].
    destruct (H _ _ HA) as (A' & HA' & Hr). exists A', d. split; [done|].
    split; [by rewrite (proj1 (proj2 (proj2 Hr)))|].
    by rewrite (only_metrics_name _ _ _ Hs).
  - intros (Hk & A' & d & HA' & Hd & Hb). split; [done|].
    destruct (only_metrics_lookup _ _ _ _ Hs HA') as (A & HA & Hr).
    exists A, d. split; [done|].
    split; [by rewrite <- (proj1 (proj2 (proj2 Hr)))|].
    by rewrite <- (only_metrics_name _ _ _ Hs).
Qed.

(** X15. The graph that [load_components] builds.  On a loader whose
    units have no edge yet, as a new loader is, a run that ends normally
    leaves incoming sets that are the exact mirror of the outgoing edges:
    [a] is in the incoming set of [b] exactly when [a] is a registered
    unit with an outgoing edge to an object whose name is bound to [b]. *)
Theorem load_components_mirrors_edges (E : Env) (root_arg : option string)
    (ignore_arg : option nat) (w w' : World) :
  wf (graph w) -> unresolved (graph w) ->
  load_components E root_arg ignore_arg w = (Ok tt, w') ->
  ∀ a b B, heap (graph w') !! b = Some B ->
    (a ∈ internal_dependents B <-> mirrors (graph w') a b).
Proof.
  intros Hwf Hun Hrun a b B HB. unfold load_components in Hrun.
  destruct (if negb (name_truthy root_arg) then root_path (graph w) else root_arg)
    as [root|]; [|done].
  destruct (_load_components E root (graph w)) as [[[]|e] g1] eqn:H1; [|done].
  destruct (_load_dependencies E ignore_arg (mkWorld g1 (lists w)))
    as [[[]|e] w2] eqn:H2; [|done].
  destruct (_load_classes E (graph w2)) as [res g3] eqn:H3.
  injection Hrun as -> <-. cbn [graph] in *.
  destruct (discovery_wf _ _ _ _ _ H1) as [Hwf1 Hun1].
  specialize (Hwf1 Hwf). specialize (Hun1 Hun).
  apply load_dependencies_resolve in H2. cbn [graph] in H2.
  pose proof (pass_inv_resolve_all E g1 Hwf1 _ _ _ H2) as HI.
  destruct (resolve_all_spec E _ _ _ _ Hwf1 H2) as (_ & (Hcomps & _) & Hall).
  apply _load_classes_only_metrics in H3.
  destruct (only_metrics_lookup _ _ _ _ H3 HB) as (B2 & HB2 & Hr).
  rewrite (proj1 (proj2 (proj2 (proj2 Hr)))).
  rewrite <- (only_metrics_mirrors _ _ a b H3). split.
  - intros Ha. destruct (pi_in _ _ HI _ _ _ HB2 Ha) as [(B0 & HB0 & Ha0)|?]; [|done].
    destruct (proj1 (Forall_lookup _ _) Hun1 _ _ HB0) as [_ Hi]. set_solver.
  - intros ([k Hk] & A & d & HA & Hd & Hb). rewrite Hcomps in Hk.
    destruct (Hall eq_refl _ _ Hk) as [Hm _]. by eapply Hm.
Qed.

Lemma requests_leave_edges_witness :
  only_metrics (graph Examples.loaded)
    (get_as_plane Examples.env (graph Examples.loaded)).2.
Proof.
  exact (proj1 (requests_leave_edges Examples.env (graph Examples.loaded)
                  (get_as_plane Examples.env (graph Examples.loaded)).2)
           _ (surjective_pairing _)).
Defined.

Lemma load_components_mirrors_edges_witness :
  1%nat ∈ internal_dependents
            (default (Component_init None None)
               (heap (graph Examples.loaded) !! 2%nat))
  <-> mirrors (graph Examples.loaded) 1%nat 2%nat.
Proof.
  set (B := default (Component_init None None)
              (heap (graph Examples.loaded) !! 2%nat)).
  assert (load_components Examples.env None (Some 0%nat) Examples.world0
          = (Ok tt, Examples.loaded)) as Hrun
    by (apply run_ok; vm_compute; reflexivity).
  assert (heap (graph Examples.loaded) !! 2%nat = Some B) as HB
    by (vm_compute; reflexivity).
  exact (load_components_mirrors_edges Examples.env None (Some 0%nat)
           Examples.world0 Examples.loaded
           (proj1 (new_loader_wf (Some "pkg"))) (proj2 (new_loader_wf (Some "pkg")))
           Hrun 1%nat 2%nat B HB).
Defined.

(** ** What a plane needs, and what it holds *)

Lemma get_abstraction_imports E c g y g' C :
  get_abstraction E c g = (Ok y, g') ->
  heap g !! c = Some C -> abstract_classes C = [] -> no_abstract_classes C = [] ->
  ∃ name o, comp_name C = Some name ∧ import_module E name = Ok o.
Proof.
  intros Hrun HC Ha Hn. unfold get_abstraction in Hrun.
  apply bind_inv in Hrun as [(u & g1 & Hload & _)|(e & _ & ?)]; [|done].
  unfold load_classes, bind at 1, read in Hload. simpl in Hload.
  rewrite HC in Hload. simpl in Hload. rewrite Ha, Hn in Hload. simpl in Hload.
  destruct (comp_name C) as [name|]; [|done].
  unfold bind at 1, lift in Hload.
  destruct (import_module E name) as [o|e] eqn:Himp; [|done]. by exists name, o.
Qed.

Lemma get_instability_keeps_classes c g x g1 C :
  get_instability c g = (Ok x, g1) -> heap g !! c = Some C ->
  ∃ C1, heap g1 !! c = Some C1 ∧ comp_name C1 = comp_name C
        ∧ abstract_classes C1 = abstract_classes C
        ∧ no_abstract_classes C1 = no_abstract_classes C.
Proof.
  unfold get_instability. intros Hrun HC.
  unfold bind at 1 in Hrun. rewrite calculate_instability_spec in Hrun.
  unfold bind, read, ret in Hrun. simpl in Hrun. injection Hrun as _ <-. simpl.
  rewrite list_lookup_alter_eq, HC. simpl. eexists. split; [done|].
  unfold fill_instability. by destruct (instability C).
Qed.

Lemma as_plane_loop_imports E items : ∀ acc g plane g' k c C,
  as_plane_loop E items acc g = (Ok plane, g') ->
  (k, c) ∈ items -> heap g !! c = Some C ->
  abstract_classes C = [] -> no_abstract_classes C = [] ->
  ∃ name o, comp_name C = Some name ∧ import_module E name = Ok o.
Proof.
  induction items as [|[k0 c0] items IH]; simpl;
    intros acc g plane g' k c C Hrun Hin HC Ha Hn.
  { by apply elem_of_nil in Hin. }
  apply bind_inv in Hrun as [(x & g1 & Hx & Hrun)|(e & _ & ?)]; [|done].
  apply bind_inv in Hrun as [(y & g2 & Hy & Hrun)|(e & _ & ?)]; [|done].
  apply bind_inv in Hrun as [(v & g3 & Hv & Hrun)|(e & _ & ?)]; [|done].
  destruct (decide (c = c0)) as [->|Hne].
  - destruct (get_instability_keeps_classes _ _ _ _ _ Hx HC)
      as (C1 & HC1 & Hname & Ha1 & Hn1).
    rewrite <- Hname. eapply get_abstraction_imports; [exact Hy|done|congruence..].
  - apply elem_of_cons in Hin as [[= _ ?]|Hin]; [done|].
    eapply (IH _ g3); [exact Hrun|exact Hin| |done..].
    destruct (get_instability_spec c0 g) as (x' & g1' & Hx' & (_ & _ & H1 & _) & _).
    rewrite Hx in Hx'. injection Hx' as _ <-.
    apply get_abstraction_spec in Hy as [(_ & _ & H2 & _) _].
    apply get_distance_spec in Hv as [(_ & _ & H3 & _) _].
    by rewrite H3, H2, H1.
Qed.

Lemma as_plane_loop_keys E items : ∀ acc g plane g' k pt,
  as_plane_loop E items acc g = (Ok plane, g') ->
  Dict.get plane k = Some pt ->
  is_Some (Dict.get acc k) ∨ k ∈ items.*1.
Proof.
  induction items as [|[k0 c0] items IH]; simpl; intros acc g plane g' k pt Hrun Hk.
  { injection Hrun as <- _. left. eauto. }
  apply bind_inv in Hrun as [(x & g1 & Hx & Hrun)|(e & _ & ?)]; [|done].
  apply bind_inv in Hrun as [(y & g2 & Hy & Hrun)|(e & _ & ?)]; [|done].
  apply bind_inv in Hrun as [(v & g3 & Hv & Hrun)|(e & _ & ?)]; [|done].
  destruct (IH _ _ _ _ _ _ Hrun Hk) as [Hacc|Hin]; [|right; by right].
  rewrite dict_get_set in Hacc.
  destruct (decide (k0 = k)) as [->|Hne]; [right; by left|by left].
Qed.

(** X16. A plane holds points for registered names only: a key of the
    dictionary that [get_as_plane] returns is the name of one of the
    items of [components].  With C6 the keys of the plane are exactly the
    registered names; the objects created for dependencies get no point. *)
Theorem plane_keys_registered (E : Env) (g g' : Graph) (plane : dict ASPoint.t)
    (k : pyname) (pt : ASPoint.t) :
  get_as_plane E g = (Ok plane, g') ->
  Dict.get plane k = Some pt ->
  ∃ c, (k, c) ∈ Dict.items (components g).
Proof.
  intros Hrun Hk. unfold get_as_plane in Hrun.
  apply bind_inv in Hrun as [(comps & g1 & Hread & Hrun)|(e & Hread & _)]; [|done].
  injection Hread as <- <-.
  destruct (as_plane_loop_keys _ _ _ _ _ _ _ _ Hrun Hk) as [[? Hacc]|Hin].
  - unfold Dict.get in Hacc. simpl in Hacc. by rewrite lookup_empty in Hacc.
  - apply list_elem_of_fmap in Hin as ([k' c] & -> & Hin). by exists c.
Qed.

(** X17. A plane is returned only when the modules could be imported:
    if [get_as_plane] ends normally, every registered unit that had no
    class recorded has a name, and the module of that name imports.
    [get_abstraction] calls [load_classes] on every request, and on a unit
    without classes [load_classes] imports the module. *)
Theorem plane_needs_imports (E : Env) (g g' : Graph) (plane : dict ASPoint.t)
    (k : pyname) (c : loc) (C : Component) :
  get_as_plane E g = (Ok plane, g') ->
  (k, c) ∈ Dict.items (components g) -> heap g !! c = Some C ->
  abstract_classes C = [] -> no_abstract_classes C = [] ->
  ∃ name o, comp_name C = Some name ∧ import_module E name = Ok o.
Proof.
  intros Hrun Hin HC Ha Hn. unfold get_as_plane in Hrun.
  apply bind_inv in Hrun as [(comps & g1 & Hread & Hrun)|(e & Hread & _)]; [|done].
  injection Hread as <- <-. by eapply as_plane_loop_imports.
Qed.

Lemma plane_keys_registered_witness :
  ∃ c, (Some "pkg.a", c) ∈ Dict.items (components (graph Examples.loaded)).
Proof.
  set (g := graph Examples.loaded).
  set (plane := value_of Dict.empty (get_as_plane Examples.env g).1).
  set (pt := default (ASPoint.mk 0 0 0) (Dict.get plane (Some "pkg.a"))).
  assert (get_as_plane Examples.env g = (Ok plane, (get_as_plane Examples.env g).2))
    as Hrun by (apply run_ok; vm_compute; reflexivity).
  assert (Dict.get plane (Some "pkg.a") = Some pt) as Hk by (vm_compute; reflexivity).
  exact (plane_keys_registered Examples.env g _ plane (Some "pkg.a") pt Hrun Hk).
Defined.

Lemma plane_needs_imports_witness :
  ∃ name o,
    comp_name (default (Component_init None None)
                 (heap (graph Examples.resolved) !! 2%nat)) = Some name
    ∧ import_module Examples.env name = Ok o.
Proof.
  set (g := graph Examples.resolved).
  set (C := default (Component_init None None) (heap g !! 2%nat)).
  set (plane := value_of Dict.empty (get_as_plane Examples.env g).1).
  assert (get_as_plane Examples.env g = (Ok plane, (get_as_plane Examples.env g).2))
    as Hrun by (apply run_ok; vm_compute; reflexivity).
  assert ((Some "pkg.b", 2%nat) ∈ Dict.items (components g)) as Hin by by_compute.
  assert (heap g !! 2%nat = Some C) as HC by (vm_compute; reflexivity).
  assert (abstract_classes C = []) as Ha by (vm_compute; reflexivity).
  assert (no_abstract_classes C = []) as Hn by (vm_compute; reflexivity).
  exact (plane_needs_imports Examples.env g _ plane (Some "pkg.b") 2%nat C
           Hrun Hin HC Ha Hn).
Defined.

(** ** The mean distance lies in the unit interval *)

Lemma only_metrics_caches_ok g g' : only_metrics g g' -> caches_ok g -> caches_ok g'.
Proof.
  intros Hs Hok x C' HC'.
  destruct (only_metrics_lookup _ _ _ _ Hs HC') as (C & HC & Hr).
  apply Hr. by eapply Hok.
Qed.

(** X18. The mean distance lies in the unit interval.  On a graph whose
    cached metrics are consistent, the value [calculate_main_distance]
    returns is between 0 and 1, for any number of decimals, also a
    negative one: the distances it averages are, and rounding moves a
    value no further than the nearest multiple of the unit of rounding,
    of which 0 and 1 are two when [decimals] is not negative. *)
Theorem mean_distance_in_unit (E : Env) (decimals : option Z) (g g' : Graph) (v : Q) :
  caches_ok g ->
  calculate_main_distance E decimals g = (Ok v, g') ->
  (0 <= v)%Q ∧ (v <= 1)%Q.
Proof.
  intros Hok Hrun.
  apply calculate_main_distance_run in Hrun as [(ds & Hds & [= ->])|(e & _ & ?)];
    [|done].
  destruct (collect_distances_in_unit _ _ _ _ _ _ Hok (Forall_nil_2 _) Hds) as [_ Hunit].
  by apply py_round_in_unit, float_mean_in_unit.
Qed.

Lemma mean_distance_in_unit_witness :
  (0 <= value_of 0%Q
          (calculate_main_distance Examples.env None (graph Examples.loaded)).1)%Q
  ∧ (value_of 0%Q
       (calculate_main_distance Examples.env None (graph Examples.loaded)).1 <= 1)%Q.
Proof.
  assert (unmeasured (graph Examples.loaded)) as Hu.
  { unfold unmeasured. by_compute. }
  assert ((calculate_main_distance Examples.env None (graph Examples.loaded)).1
          = Ok (value_of 0%Q
                  (calculate_main_distance Examples.env None
                     (graph Examples.loaded)).1)) as Hrun
    by (vm_compute; reflexivity).
  exact (mean_distance_in_unit Examples.env None (graph Examples.loaded) _ _
           (caches_ok_unmeasured _ Hu) (run_ok _ _ Hrun)).
Defined.

(** ** When the parent of a from-import is recorded *)

Lemma size_list_to_set_le (l : list pyname) :
  (size (list_to_set l : gset pyname) <= length l)%nat.
Proof.
  induction l as [|x l IH]; [by rewrite list_to_set_nil, size_empty|].
  rewrite list_to_set_cons, size_union_alt, size_singleton. cbn [length].
  assert (size ((list_to_set l : gset pyname) ∖ {[x]}) <= size (list_to_set l : gset pyname))%nat
    by (apply subseteq_size; set_solver).
  lia.
Qed.

Lemma size_list_to_set_NoDup (l : list pyname) :
  size (list_to_set l : gset pyname) = length l -> NoDup l.
Proof.
  induction l as [|x l IH]; [constructor|].
  rewrite list_to_set_cons. cbn [length]. intros Hsize.
  pose proof (size_list_to_set_le l) as Hle.
  destruct (decide (x ∈ l)) as [Hin|Hout].
  - assert ({[x]} ∪ list_to_set l = (list_to_set l : gset pyname)) as Heq
      by set_solver.
    rewrite Heq in Hsize. lia.
  - constructor; [done|]. apply IH.
    rewrite size_union, size_singleton in Hsize by set_solver. lia.
Qed.

Section Parent.
Variable E : Env.
Variable X : pyname.

Local Abbreviation resolved_of names :=
  (Some ∘ qualified X <$> List.filter (fun Y => resolves E (qualified X Y)) names).

Lemma resolve_names_exact names : ∀ acc ms,
  resolve_names E X names acc = Ok ms ->
  ms = list_to_set (resolved_of names) ∪ acc.
Proof.
  induction names as [|Z names IH]; simpl; intros acc ms Hr.
  - injection Hr as <-. by rewrite (left_id_L ∅ (∪)).
  - destruct (_import_module E (py_str X ++ "." ++ Z)) as [o|e] eqn:Ho; [|done].
    apply import_truthy_resolves in Ho. apply IH in Hr. rewrite Hr.
    change (qualified X Z) with (py_str X ++ "." ++ Z). rewrite <- Ho.
    destruct (module_truthy o); [|done].
    rewrite fmap_cons, list_to_set_cons.
    change ((Some ∘ qualified X) Z) with (Some (py_str X ++ "." ++ Z)).
    set_solver.
Qed.

Lemma qualified_inj : Inj (=) (=) (Some ∘ qualified X).
Proof.
  intros Y1 Y2 [= H]. unfold qualified in H.
  by apply String.app_inj, String.app_inj in H.
Qed.

Lemma parent_not_resolved names : X ∉ (list_to_set (resolved_of names) : gset pyname).
Proof.
  intros Hin. apply elem_of_list_to_set, list_elem_of_fmap in Hin as (Y & HX & _).
  destruct X as [x|]; [|done]. injection HX as HX. unfold qualified in HX. simpl in HX.
  apply (f_equal String.length) in HX. rewrite !string_length_app in HX.
  simpl in HX. lia.
Qed.

Lemma all_resolved names :
  size (list_to_set (resolved_of names) : gset pyname) = length names
  <-> NoDup names ∧ ∀ Y, Y ∈ names -> resolves E (qualified X Y) = true.
Proof.
  pose proof (size_list_to_set_le (resolved_of names)) as Hle.
  pose proof (filter_length_le (fun Y => resolves E (qualified X Y)) names) as Hfl.
  rewrite length_fmap in Hle. split.
  - intros Hsize.
    assert (List.filter (fun Y => resolves E (qualified X Y)) names = names) as Hall.
    { apply forallb_filter_id, filter_length_forallb. lia. }
    split.
    + apply (NoDup_fmap_1 (Some ∘ qualified X)), size_list_to_set_NoDup.
      rewrite <- Hall at 1. by rewrite length_fmap.
    + intros Y HY. rewrite <- Hall in HY.
      by apply list_elem_of_In, filter_In in HY as [_ ?].
  - intros [Hnd Hall].
    assert (List.filter (fun Y => resolves E (qualified X Y)) names = names) as ->.
    { apply forallb_filter_id, forallb_forall. intros Y HY.
      by apply Hall, list_elem_of_In. }
    rewrite size_list_to_set, length_fmap; [done|].
    by apply (NoDup_fmap_2 _ (Inj0 := qualified_inj)).
Qed.

End Parent.

(** X19. When [from X import ...] records the parent.  The set that
    [_eval_dependency] returns for such a statement holds the parent [X]
    exactly when the listed names do not all resolve or one of them is
    listed twice: the parent is added when the set of resolved paths is
    smaller than the list of names. *)
Theorem parent_recorded_iff (E : Env) (X : pyname) (names : list string)
    (s : gset pyname) :
  _eval_dependency E (ImportFrom X names) = Ok s ->
  X ∈ s
  <-> ¬ (NoDup names ∧ ∀ Y, Y ∈ names -> resolves E (qualified X Y) = true).
Proof.
  simpl. destruct (resolve_names E X names ∅) as [ms|e] eqn:Hr; [|done].
  apply resolve_names_exact in Hr. rewrite (right_id_L ∅ (∪)) in Hr. subst ms.
  rewrite (left_id_L ∅ (∪)). rewrite <- all_resolved.
  case_bool_decide as Hsize; intros [= <-].
  - split; [done|]. intros _. set_solver.
  - split; [|done]. intros Hin. by apply parent_not_resolved in Hin.
Qed.

Lemma parent_recorded_iff_witness :
  Some "pkg" ∈ value_of (∅ : gset pyname)
                 (_eval_dependency Examples.env (ImportFrom (Some "pkg") ["b"; "b"])).
Proof.
  assert (_eval_dependency Examples.env (ImportFrom (Some "pkg") ["b"; "b"])
          = Ok (value_of ∅ (_eval_dependency Examples.env
                              (ImportFrom (Some "pkg") ["b"; "b"])))) as Hrun
    by (vm_compute; reflexivity).
  refine (proj2 (parent_recorded_iff Examples.env (Some "pkg") ["b"; "b"] _ Hrun) _).
  intros [Hnd _]. apply NoDup_cons in Hnd as [Hin _]. apply Hin. left.
Defined.

(** ** The value of [get_abstraction] *)

(** X20. The first abstraction of a unit.  On a unit without classes and
    without a cached abstraction whose module imports, [get_abstraction]
    returns the share of abstract classes among the classes of the module
    that [load_classes] records, which are those not defined in a module
    the unit has an outgoing edge to, and 0 when it records none; the
    classes and the value are stored in the unit.  The ratio itself is
    computed by [calculate_abstraction] of the base class. *)
Theorem get_abstraction_value (E : Env) (c : loc) (g : Graph) (C : Component)
    (name : string) (o : pyobj) :
  heap g !! c = Some C ->
  abstract_classes C = [] -> no_abstract_classes C = [] -> abstraction C = None ->
  comp_name C = Some name -> import_module E name = Ok o ->
  let own := List.filter (qualifies (heap g) c) (getmembers E name) in
  let v := if (length own =? 0)%nat then 0%Q
           else (inject_Z (Z.of_nat (length (List.filter m_isabstract own)))
                 / inject_Z (Z.of_nat (length own)))%Q in
  get_abstraction E c g
  = (Ok v,
     set_heap
       (<[c := set_abstraction v
                 (with_classes (List.filter m_isabstract own)
                    (List.filter (fun obj => negb (m_isabstract obj)) own) C)]>
          (heap g)) g).
Proof.
  intros HC Ha Hn Hnone Hname Himp own v.
  pose proof (lookup_lt_Some _ _ _ HC) as Hc.
  unfold get_abstraction. unfold bind at 1.
  rewrite (load_classes_unfold E c g C name o HC Ha Hn Hname Himp).
  rewrite <- (set_heap_id g) at 1.
  rewrite (classify_loop c g (heap g) _ (heap g) C HC) by done.
  rewrite Ha, Hn. cbn [app]. fold own.
  unfold bind at 1. rewrite calculate_abstraction_spec. cbn [heap set_heap].
  rewrite (alter_as_insert _ _ _ _ (list_lookup_insert_eq _ _ _ Hc)).
  rewrite list_insert_insert_eq.
  unfold bind, read, ret. cbn [heap set_heap].
  rewrite list_lookup_insert_eq by done. cbn [from_option].
  assert (fill_abstraction
            (with_classes (List.filter m_isabstract own)
               (List.filter (fun obj => negb (m_isabstract obj)) own) C)
          = set_abstraction v
              (with_classes (List.filter m_isabstract own)
                 (List.filter (fun obj => negb (m_isabstract obj)) own) C)) as ->.
  { unfold fill_abstraction. cbn [with_classes abstraction]. rewrite Hnone.
    f_equal. unfold abstraction_formula.
    cbn [with_classes abstract_classes no_abstract_classes].
    rewrite <- Nat2Z.inj_add, filter_length. unfold v.
    destruct (length own) as [|n]; [done|]. reflexivity. }
  reflexivity.
Qed.

Lemma get_abstraction_value_witness :
  ∃ g', get_abstraction Examples.env 2%nat (graph Examples.resolved) = (Ok 1%Q, g').
Proof.
  set (g := graph Examples.resolved).
  set (C := default (Component_init None None) (heap g !! 2%nat)).
  assert (heap g !! 2%nat = Some C) as HC by (vm_compute; reflexivity).
  assert (abstract_classes C = []) as Ha by (vm_compute; reflexivity).
  assert (no_abstract_classes C = []) as Hn by (vm_compute; reflexivity).
  assert (abstraction C = None) as Hnone by (vm_compute; reflexivity).
  assert (comp_name C = Some "pkg.b") as Hname by (vm_compute; reflexivity).
  assert (import_module Examples.env "pkg.b" = Ok (PyModule false)) as Himp
    by (vm_compute; reflexivity).
  pose proof (get_abstraction_value Examples.env 2%nat g C "pkg.b" _
                HC Ha Hn Hnone Hname Himp) as Hrun.
  cbv zeta in Hrun. eexists. etransitivity; [exact Hrun|].
  apply (f_equal (fun q => (Ok q, _))). vm_compute. reflexivity.
Defined.

(** ** Every discovered file is registered *)

Lemma last_with_name (ps : list Path) (nm : string) :
  Exists (fun q => _get_name_from_path q = nm) ps ->
  ∃ i q, ps !! i = Some q
         ∧ _get_name_from_path q = nm
         ∧ ∀ j q', (i < j)%nat -> ps !! j = Some q' -> _get_name_from_path q' ≠ nm.
Proof.
  induction ps as [|x ps IH]; intros Hex; [by apply Exists_nil in Hex|].
  destruct (decide (Exists (fun q => _get_name_from_path q = nm) ps)) as [Htl|Hno].
  - destruct (IH Htl) as (i & q & Hi & Hname & Hlast).
    exists (S i), q. split_and!; [done..|].
    intros [|j] q' Hj Hq'; [lia|]. apply (Hlast j); [lia|done].
  - apply Exists_cons in Hex as [Hx|?]; [|done].
    exists 0%nat, x. split_and!; [done..|].
    intros [|j] q' Hj Hq' Heq; [lia|]. simpl in Hq'.
    apply Hno, Exists_exists. exists q'. split; [|done].
    by eapply list_elem_of_lookup_2.
Qed.

(** X21. Every discovered file is registered under its derived name, and
    the unit registered is a new one, created by this run of discovery
    for a file that derives the name, without edges, classes or metrics.
    Run again on a loader that holds components, discovery binds every
    derived name anew; the units bound before are left in the heap. *)
Theorem every_file_registered (E : Env) (root : string) (g : Graph) (p : Path) :
  p ∈ get_py_modules E root ->
  ∃ c C,
    Dict.get (components (_load_components E root g).2)
             (Some (_get_name_from_path p)) = Some c
    ∧ (length (heap g) <= c)%nat
    ∧ heap (_load_components E root g).2 !! c = Some C
    ∧ pristine C
    ∧ comp_name C = Some (_get_name_from_path p).
Proof.
  intros Hp.
  destruct (last_with_name (get_py_modules E root) (_get_name_from_path p))
    as (i & q & Hi & Hname & Hlast); [apply Exists_exists; eauto|].
  destruct (discovery_loop E (get_py_modules E root) g)
    as (g' & Hrun & Hheap & _ & _ & _ & Hbind & _).
  unfold _load_components. rewrite Hrun. simpl.
  exists (length (heap g) + i)%nat, (unit_of_path q). split_and!.
  - rewrite <- Hname. apply Hbind; [done|].
    intros j q' Hj Hq'. rewrite Hname. by eapply Hlast.
  - lia.
  - rewrite Hheap, lookup_app_r by lia.
    replace (length (heap g) + i - length (heap g))%nat with i by lia.
    by rewrite list_lookup_fmap, Hi.
  - reflexivity.
  - simpl. by rewrite Hname.
Qed.

Lemma every_file_registered_witness :
  ∃ c C,
    Dict.get (components (_load_components Clash.env "pkg" Examples.discovered).2)
             (Some (_get_name_from_path (PyPath.of_string "pkg/a.py"))) = Some c
    ∧ (length (heap Examples.discovered) <= c)%nat
    ∧ heap (_load_components Clash.env "pkg" Examples.discovered).2 !! c = Some C
    ∧ pristine C
    ∧ comp_name C = Some (_get_name_from_path (PyPath.of_string "pkg/a.py")).
Proof.
  apply (every_file_registered Clash.env "pkg" Examples.discovered
           (PyPath.of_string "pkg/a.py")).
  by_compute.
Defined.
